(** * Event-sourced state store and pool discovery / quoting engine

    A shallow embedding of two adapters of the DEX library:

    - [IdleDao]: the [IdleDaoEventPool] subscriber (processLog,
      generateState, handleCoinTransfer);
    - [Ekubo]: the [Ekubo] adapter (getPricesVolume, getInitializedPools,
      updatePoolMap, fetchPoolsByPair, initializePools, fetchAllPoolKeys).

    JavaScript [bigint] values are [Z]; exceptions and rejected promises are
    the [Throw] case of [Result]; the logger is an explicit list of entries;
    a JavaScript [Map] is an association list in insertion order. *)

From Stdlib Require Import ZArith QArith Ascii String List Lia.
From stdpp Require Import base option list sorting strings pretty gmap.

Set Default Proof Using "Type".

(** ** Exceptions and results *)

Inductive Error : Type :=
| Timeout                              (* new Error('Timeout') *)
| UnknownPoolExtension (extension : Z) (* new Error(`Unknown pool extension ...`) *)
| TypeError                            (* property access on undefined *)
| External (msg : string)              (* raised by a collaborator *)
| DecodeMismatch (reason : string)     (* raised by a log decoder *)
| StateAdvanceError (cause : Error).   (* a handler produced no snapshot *)

Inductive Result (A : Type) : Type :=
| Ok (a : A)
| Throw (e : Error).
Arguments Ok {A} a.
Arguments Throw {A} e.

Definition isOk {A} (r : Result A) : bool :=
  match r with Ok _ => true | Throw _ => false end.

Definition mapResult {A B} (f : A → B) (r : Result A) : Result B :=
  match r with Ok a => Ok (f a) | Throw e => Throw e end.

(** [Result] as a monad, for synchronous code that may throw. *)
#[global] Instance Result_ret : MRet Result := @Ok.
#[global] Instance Result_bind : MBind Result :=
  fun A B k r => match r with Ok a => k a | Throw e => Throw e end.

(** ** Methods: a state and exception monad

    A method of an object whose mutable part is [S] maps the state before
    the call to its outcome and the state after it. *)

Definition M (S A : Type) : Type := S → Result A * S.

Definition ret {S A} (a : A) : M S A := fun s => (Ok a, s).

Definition bind {S A B} (m : M S A) (k : A → M S B) : M S B :=
  fun s => match m s with
           | (Ok a, s') => k a s'
           | (Throw e, s') => (Throw e, s')
           end.

#[global] Instance M_ret {S} : MRet (M S) := @ret S.
#[global] Instance M_bind {S} : MBind (M S) := fun A B k m => bind m k.

(** A synchronous outcome inside a method. *)
Definition lift {S A} (r : Result A) : M S A := fun s => (r, s).

Definition gets {S A} (f : S → A) : M S A := fun s => (Ok (f s), s).

Definition modify {S} (f : S → S) : M S unit := fun s => (Ok tt, f s).

(** [try { body } catch (e) { handler e }]: what [body] did to the state
    before it threw stays done. *)
Definition tryCatch {S A} (body : M S A) (handler : Error → M S A) : M S A :=
  fun s => match body s with
           | (Ok a, s') => (Ok a, s')
           | (Throw e, s') => handler e s'
           end.

(** ** JavaScript [Map]: keys in insertion order, [set] on a present key
    replaces the value in place. *)

Module JSMap.

Definition t (K V : Type) : Type := list (K * V).

Definition empty {K V} : t K V := [].

Fixpoint get {K V} `{EqDecision K} (k : K) (m : t K V) : option V :=
  match m with
  | [] => None
  | (k', v) :: rest => if decide (k = k') then Some v else get k rest
  end.

Definition has {K V} `{EqDecision K} (k : K) (m : t K V) : bool :=
  match get k m with Some _ => true | None => false end.

Fixpoint set {K V} `{EqDecision K} (k : K) (v : V) (m : t K V) : t K V :=
  match m with
  | [] => [(k, v)]
  | (k', v') :: rest =>
      if decide (k = k') then (k', v) :: rest else (k', v') :: set k v rest
  end.

Definition values {K V} (m : t K V) : list V := map snd m.

End JSMap.

(** ** The IdleDao event pool *)

Module IdleDao.

Record IdleToken := {
  idleSymbol : string;
  idleAddress : string;
  cdoAddress : string
}.

Record PoolState := { tokenPrice : Z }.

Record Log := {
  address : string;
  blockNumber : Z;
  topics : list string;
  data : string
}.

(** What [poolInterface.parseLog] returns; only [name] is inspected. *)
Record Event := { name : string; args : list string }.

(** What [catchParseLogError] is handed; at which level it reaches the
    logger, if at all, is the helper's business. *)
Inductive LogEntry : Type :=
| ParseLogError (e : Error).

(** One authoritative read: contract, method argument, block tag. *)
Record Read := { contract : string; argument : string; blockTag : Z }.

(** What a run of the subscriber leaves behind: the errors it handed to
    the logging helper and the on-chain reads it issued. *)
Record World := {
  logged : list LogEntry;
  issued : list Read
}.

(** The collaborators outside the class: the ABI decoder (the event, or
    the reason it gives for rejecting the log), the node behind
    [cdoContract.methods.virtualPrice(..).call({}, block)] (a function of the
    query and the block: the value, or the message of the failure) and the
    [BigInt] constructor (nothing for a string that is no integer). *)
Record Collaborators := {
  logDecoder : Log → Event + string;
  ethCall : string → string → Z → string + string;
  bigintOf : string → option Z
}.

(** What each collaborator throws is of its own kind: the decoder throws
    decode mismatches and nothing else, the node and [BigInt] never do. *)
Definition parseLog (env : Collaborators) (log : Log) : Result Event :=
  match logDecoder env log with
  | inl event => Ok event
  | inr reason => Throw (DecodeMismatch reason)
  end.

Definition virtualPrice (env : Collaborators) (cdo arg : string) (block : Z)
  : Result string :=
  match ethCall env cdo arg block with
  | inl price => Ok price
  | inr message => Throw (External message)
  end.

Definition BigInt (env : Collaborators) (value : string) : Result Z :=
  match bigintOf env value with
  | Some z => Ok z
  | None => Throw (External "SyntaxError: Cannot convert to a BigInt")
  end.

Definition logEntry (entry : LogEntry) : M World unit :=
  modify (fun w => {| logged := logged w ++ [entry]; issued := issued w |}).

(** The handlers of the class, as the keys of [this.handlers] name them. *)
Inductive Handler : Type :=
| HandleCoinTransfer.

Record IdleDaoEventPool := {
  idleToken : IdleToken;
  handlers : gmap string Handler;
  addressesSubscribed : list string
}.

(** The constructor: only the Transfer handler is registered. *)
Definition new_IdleDaoEventPool (tok : IdleToken) : IdleDaoEventPool :=
  {| idleToken := tok;
     handlers := <["Transfer"%string := HandleCoinTransfer]> ∅;
     addressesSubscribed := [idleAddress tok] |}.

Section Subscriber.

Variable env : Collaborators.

(** Modelled from the spec: [catchParseLogError] of utils (not under src/).
    A decode failure "is ignored (not an error)": the helper takes the
    error and returns. "If the kind is handled but the handler cannot
    produce a new snapshot, the call fails with a StateAdvanceError": any
    other error leaves the helper as the failure of the call. *)
Definition catchParseLogError (e : Error) : M World unit :=
  match e with
  | DecodeMismatch _ => logEntry (ParseLogError e)
  | _ => fun w => (Throw (StateAdvanceError e), w)
  end.

Definition call_virtualPrice (cdo arg : string) (block : Z) : M World string :=
  fun w =>
    (virtualPrice env cdo arg block,
     {| logged := logged w;
        issued := issued w ++
                  [{| contract := cdo; argument := arg; blockTag := block |}] |}).

Definition generateState (this : IdleDaoEventPool) (blockNumber : Z)
  : M World PoolState :=
  tranchePrice ← call_virtualPrice (cdoAddress (idleToken this))
                                   (idleAddress (idleToken this)) blockNumber ;
  price ← lift (BigInt env tranchePrice) ;
  mret {| tokenPrice := price |}.

Definition handleCoinTransfer (this : IdleDaoEventPool)
    (event : Event) (state : PoolState) (log : Log) : M World (option PoolState) :=
  result ← generateState this (blockNumber log) ;
  mret (Some result).

Definition runHandler (this : IdleDaoEventPool) (h : Handler)
    (event : Event) (state : PoolState) (log : Log) : M World (option PoolState) :=
  match h with
  | HandleCoinTransfer => handleCoinTransfer this event state log
  end.

(** [processLog]: the value [None] is JavaScript's [null] ("unchanged").
    The names [parseLog] can produce are the event names of the ERC-20
    interface, so [event.name in this.handlers] is a lookup among the keys
    the constructor registered. *)
Definition processLog (this : IdleDaoEventPool)
    (state : PoolState) (log : Log) : M World (option PoolState) :=
  tryCatch
    (event ← lift (parseLog env log) ;
     match handlers this !! name event with
     | Some h =>
         result ← runHandler this h event state log ;
         mret result
     | None => mret None
     end)
    (fun e => _ ← catchParseLogError e; mret None).

End Subscriber.

End IdleDao.

(** ** The Ekubo adapter *)

Module Ekubo.

Inductive SwapSide : Type := SELL | BUY.

#[global] Instance SwapSide_eq_dec : EqDecision SwapSide.
Proof. solve_decision. Defined.

Record Token := { address : string; decimals : Z }.

(** [new PoolConfig(tickSpacing, fee, extension)] *)
Record PoolConfig := { tickSpacing : Z; fee : Z; extension : Z }.

(** [new PoolKey(token0, token1, config)] *)
Record PoolKey := { token0 : Z; token1 : Z; config : PoolConfig }.

(** What [pool.quote] returns. *)
Record Quote := {
  consumedAmount : Z;
  calculatedAmount : Z;
  gasConsumed : Z;
  skipAhead : Z
}.

(** One entry of the data fetcher's answer and the snapshot built from it;
    the adapter only passes them on. *)
Record QuoteData := { quoteData : list Z }.
Record PoolState := { snapshot : list Z }.

Inductive PoolClass : Type := BasePoolClass | OraclePoolClass.

(** A pool object. [ref] is the identity of the object ([new] gives every
    object a fresh one): two objects of equal contents are still two. *)
Record BasePool := {
  ref : nat;
  class : PoolClass;
  key : PoolKey;
  initializedAt : Z;
  initialState : PoolState
}.

Record EkuboData := {
  poolKey : PoolKey;
  isToken1 : bool;
  data_skipAhead : JSMap.t Z Z
}.

(** One element of [exchangePrices]. *)
Record PoolPrices := {
  prices : list Z;
  unit_ : Z;
  data : EkuboData;
  poolIdentifier : string;
  exchange : string;
  gasCost : list Z
}.

Inductive LogEntry : Type :=
| CantQuotePair (token0 token1 : Z) (poolId : string)   (* logger.error *)
| NotEnoughLiquidity                                    (* logger.debug *)
| QuoteError (err : Error)                              (* logger.error *)
| PoolNotFound (poolId : string)                        (* logger.warn *)
| UpdatingPoolMapFailed (err : Error)                   (* logger.error *)
| FallingBack (token0 token1 : Z) (err : Error)         (* logger.error *)
| FetchingBatchFailed (batch : list PoolKey) (err : Error). (* logger.error *)

(** The fields of the adapter the methods read: [BigInt(this.config.oracle)]
    and [BigInt(this.core.address)], both evaluated by the constructor. *)
Record Adapter := {
  dexKey : string;
  oracle : Z;
  coreAddress : Z
}.

(** The mutable part of the adapter: [this.pools], the count of pool objects
    constructed so far, and the logger's output. *)
Record State := {
  pools : JSMap.t string BasePool;
  allocated : nat;
  logged : list LogEntry
}.

(** Code the adapter calls and that is not under src/. *)
Record Collaborators := {
  convertParaSwapToEkubo : string → Z;          (* ./utils *)
  NATIVE_TOKEN_ADDRESS : Z;                     (* ./utils *)
  FULL_RANGE_TICK_SPACING : Z;                  (* ./pools/math/tick *)
  string_id : PoolKey → string;                 (* PoolKey.string_id, ./types *)
  fromQuoter : QuoteData → Result PoolState;    (* PoolState.fromQuoter, ./types *)
  quote : BasePool → Z → Z → Z → Result Quote;  (* pool.quote, ./pools *)
  BigInt : string → Result Z                    (* the BigInt constructor *)
}.

Definition FALLBACK_POOL_PARAMETERS : list (Z * Z) :=
  (* fee, tickSpacing *)
  [ (1844674407370955, 200);
    (9223372036854775, 1000);
    (55340232221128654, 5982);
    (184467440737095516, 19802);
    (922337203685477580, 95310) ]%Z.

Definition MIN_TICK_SPACINGS_PER_POOL : Z := 10.
Definition MAX_POOL_BATCH_COUNT : nat := 5.

(** The state after the logger has received [entries]. *)
Definition addLogs (entries : list LogEntry) (s : State) : State :=
  {| pools := pools s; allocated := allocated s;
     logged := logged s ++ entries |}.

Definition log (entry : LogEntry) : M State unit :=
  modify (addLogs [entry]).

Section Adapter.

Variable env : Collaborators.
Variable this : Adapter.

(** Modelled from the spec: [sortAndConvertTokens] of ./utils (not under
    src/). "Canonical ordering by numeric address value, lower first." *)
Definition sortAndConvertTokens (tokenA tokenB : Token) : Z * Z :=
  let a := convertParaSwapToEkubo env (address tokenA) in
  let b := convertParaSwapToEkubo env (address tokenB) in
  if (b <? a)%Z then (b, a) else (a, b).

(** Modelled from the spec: [getBigIntPow] of utils (not under src/).
    "One whole token of the amount token": ten to the token's decimals. *)
Definition getBigIntPow (decimals : Z) : Z := (10 ^ decimals)%Z.

(** *** getInitializedPools *)

Definition pairIs (token0 token1 : Z) (k : PoolKey) : bool :=
  bool_decide (Ekubo.token0 k = token0) && bool_decide (Ekubo.token1 k = token1).

(** [limitPools.flatMap(poolId => ...)] *)
Fixpoint lookupPools (limitPools : list string) : M State (list BasePool) :=
  match limitPools with
  | [] => mret []
  | poolId :: rest =>
      pool ← gets (fun s => JSMap.get poolId (pools s));
      found ← match pool with
              | None => _ ← log (PoolNotFound poolId); mret []
              | Some pool => mret [pool]
              end;
      others ← lookupPools rest;
      mret (found ++ others)
  end.

Definition getInitializedPools (tokenA tokenB : Token)
    (limitPools : option (list string)) : M State (list BasePool) :=
  match limitPools with
  | None =>
      let '(token0, token1) := sortAndConvertTokens tokenA tokenB in
      gets (fun s =>
              List.filter (fun pool => pairIs token0 token1 (key pool))
                          (JSMap.values (pools s)))
  | Some limitPools => lookupPools limitPools
  end.

(** *** getPricesVolume *)

(** How the loop over [[unitAmount, ...amounts]] ends. *)
Inductive LoopExit : Type :=
| Completed (quotes : list Quote) (skipAheadMap : JSMap.t Z Z)
| ContinuePoolLoop.

(** [isExactOut ? -amount : amount] *)
Definition inputAmount (isExactOut : bool) (amount : Z) : Z :=
  if isExactOut then (- amount)%Z else amount.

Fixpoint quoteAmounts (pool : BasePool) (isExactOut : bool)
    (amountTokenAddress blockNumber : Z) (amounts : list Z)
    (quotes : list Quote) (skipAheadMap : JSMap.t Z Z) : M State LoopExit :=
  match amounts with
  | [] => mret (Completed quotes skipAheadMap)
  | amount :: rest =>
      let inputAmount := inputAmount isExactOut amount in
      quote ← lift (quote env pool inputAmount amountTokenAddress blockNumber);
      if isExactOut && negb (consumedAmount quote =? inputAmount)%Z then
        _ ← log NotEnoughLiquidity;
        mret ContinuePoolLoop
      else
        quoteAmounts pool isExactOut amountTokenAddress blockNumber rest
          (quotes ++ [quote])
          (JSMap.set amount (skipAhead quote) skipAheadMap)
  end.

(** One iteration of [poolLoop]: what it pushes onto [exchangePrices]. *)
Definition quotePool (token0 token1 : Z) (isExactOut : bool)
    (amountTokenAddress unitAmount : Z) (amounts : list Z) (blockNumber : Z)
    (pool : BasePool) : M State (list PoolPrices) :=
  let poolId := string_id env (key pool) in
  if negb (pairIs token0 token1 (key pool)) then
    _ ← log (CantQuotePair token0 token1 poolId);
    mret []
  else
    tryCatch
      (exit ← quoteAmounts pool isExactOut amountTokenAddress blockNumber
                (unitAmount :: amounts) [] JSMap.empty;
       match exit with
       | ContinuePoolLoop => mret []
       | Completed quotes skipAheadMap =>
           match quotes with
           | [] => lift (Throw TypeError)
           | unitQuote :: otherQuotes =>
               mret [ {| prices := map calculatedAmount otherQuotes;
                         unit_ := calculatedAmount unitQuote;
                         data := {| poolKey := key pool;
                                    isToken1 :=
                                      bool_decide (amountTokenAddress = token1);
                                    data_skipAhead := skipAheadMap |};
                         poolIdentifier := poolId;
                         exchange := dexKey this;
                         gasCost := map gasConsumed otherQuotes |} ]
           end
       end)
      (fun err => _ ← log (QuoteError err); mret []).

Fixpoint poolLoop (token0 token1 : Z) (isExactOut : bool)
    (amountTokenAddress unitAmount : Z) (amounts : list Z) (blockNumber : Z)
    (pools : list BasePool) (exchangePrices : list PoolPrices)
  : M State (list PoolPrices) :=
  match pools with
  | [] => mret exchangePrices
  | pool :: rest =>
      pushed ← quotePool token0 token1 isExactOut amountTokenAddress
                 unitAmount amounts blockNumber pool;
      poolLoop token0 token1 isExactOut amountTokenAddress unitAmount amounts
        blockNumber rest (exchangePrices ++ pushed)
  end.

Definition getPricesVolume (srcToken destToken : Token) (amounts : list Z)
    (side : SwapSide) (blockNumber : Z) (limitPools : option (list string))
  : M State (list PoolPrices) :=
  pools ← getInitializedPools srcToken destToken limitPools;
  let isExactOut := bool_decide (side = BUY) in
  let amountToken := if isExactOut then destToken else srcToken in
  let amountTokenAddress := convertParaSwapToEkubo env (address amountToken) in
  let unitAmount := getBigIntPow (decimals amountToken) in
  let '(token0, token1) := sortAndConvertTokens srcToken destToken in
  poolLoop token0 token1 isExactOut amountTokenAddress unitAmount amounts
    blockNumber pools [].

(** *** fetchAllPoolKeys *)

(** A row of the [/pools] answer, once the schema has accepted it. *)
Record PoolInfo := {
  core_address : string;
  info_token0 : string;
  info_token1 : string;
  info_fee : string;
  tick_spacing : Z;
  info_extension : string
}.

Definition supportedExtensions : list Z := [0%Z; oracle this].

Definition includes (xs : list Z) (x : Z) : bool :=
  existsb (fun y => (y =? x)%Z) xs.

Fixpoint filterR {A} (p : A → Result bool) (l : list A) : Result (list A) :=
  match l with
  | [] => mret []
  | x :: rest =>
      keep ← p x;
      kept ← filterR p rest;
      mret (if keep : bool then x :: kept else kept)
  end.

Fixpoint mapR {A B} (f : A → Result B) (l : list A) : Result (list B) :=
  match l with
  | [] => mret []
  | x :: rest =>
      y ← f x;
      ys ← mapR f rest;
      mret (y :: ys)
  end.

(** [response] is what [httpRequest.get] and the schema validation deliver:
    the validated rows, or the failure of either. *)
Definition fetchAllPoolKeys (response : Result (list PoolInfo))
  : Result (list PoolKey) :=
  value ← response;
  kept ← filterR
           (fun res =>
              ext ← BigInt env (info_extension res);
              if includes supportedExtensions ext then
                core ← BigInt env (core_address res);
                mret (core =? coreAddress this)%Z
              else mret false)
           value;
  mapR (fun info =>
          t0 ← BigInt env (info_token0 info);
          t1 ← BigInt env (info_token1 info);
          fee ← BigInt env (info_fee info);
          ext ← BigInt env (info_extension info);
          mret {| token0 := t0; token1 := t1;
                  config := {| tickSpacing := tick_spacing info;
                               fee := fee; extension := ext |} |})
       kept.

(** *** initializePools *)

(** What the outside world does to the batch's call: [answer] is what
    [dataFetcher.getQuoteData] resolves or rejects with, [answeredAt] orders
    the answers of the batches of one pass, and [deadlineFirst] says that
    the batch's timer, when it has one, fires before the answer. *)
Record BatchRun := {
  answer : Result (list QuoteData);
  answeredAt : nat;
  deadlineFirst : bool
}.

(** The object a failed batch rejects with: [{ batch, err }]. *)
Record BatchError := { batch : list PoolKey; err : Error }.

(** An element of [await Promise.allSettled(promises)]. *)
Inductive Settled : Type :=
| Fulfilled (value : list string)
| Rejected (reason : BatchError).

(** [l.slice(from, to)] *)
Definition slice {A} (from to : nat) (l : list A) : list A :=
  take (to - from) (drop from l).

(** The [for] loop over [batchStart]: the batches with their offsets. The
    loop runs at most once per key. *)
Fixpoint batchLoop (fuel : nat) (poolKeys : list PoolKey) (batchStart : nat)
  : list (nat * list PoolKey) :=
  match fuel with
  | O => []
  | S fuel =>
      if bool_decide (batchStart < length poolKeys) then
        (batchStart, slice batchStart (batchStart + MAX_POOL_BATCH_COUNT) poolKeys)
          :: batchLoop fuel poolKeys (batchStart + MAX_POOL_BATCH_COUNT)
      else []
  end.

Definition batches (poolKeys : list PoolKey) : list (nat * list PoolKey) :=
  batchLoop (length poolKeys) poolKeys 0.

(** What the callback of [fetchedData.map] has in hand when it constructs
    the pool. *)
Record NewPool := {
  new_poolId : string;
  new_class : PoolClass;
  new_key : PoolKey;
  new_state : PoolState
}.

(** The callback, up to the choice of the constructor. *)
Definition preparePool (poolKeys : list PoolKey) (batchStart i : nat)
    (data : QuoteData) : Result NewPool :=
  initialState ← fromQuoter env data;
  poolKey ← match poolKeys !! (batchStart + i) with
            | Some poolKey => Ok poolKey
            | None => Throw TypeError
            end;
  let poolId := string_id env poolKey in
  let extension := extension (config poolKey) in
  poolConstructor ←
    (if (extension =? 0)%Z then Ok BasePoolClass
     else if (extension =? oracle this)%Z then Ok OraclePoolClass
     else Throw (UnknownPoolExtension extension));
  mret {| new_poolId := poolId; new_class := poolConstructor;
          new_key := poolKey; new_state := initialState |}.

(** The rest of the callback: [new poolConstructor(...)],
    [this.pools.set(poolId, pool)], [pool.initialize], [return poolId]. *)
Definition constructPool (blockNumber : Z) (p : NewPool) : M State string :=
  modify (fun s =>
            let pool := {| ref := allocated s; class := new_class p;
                           key := new_key p; initializedAt := blockNumber;
                           initialState := new_state p |} in
            {| pools := JSMap.set (new_poolId p) pool (pools s);
               allocated := S (allocated s);
               logged := logged s |}) ;;
  mret (new_poolId p).

Definition initializePool (poolKeys : list PoolKey) (batchStart : nat)
    (blockNumber : Z) (i : nat) (data : QuoteData) : M State string :=
  p ← lift (preparePool poolKeys batchStart i data);
  constructPool blockNumber p.

(** [xs.map(async ...)]: every callback runs, whatever the others do; the
    outcomes are collected in order. *)
Fixpoint runAll {A} (callbacks : list (M State A)) : State → list (Result A) * State :=
  fun s =>
    match callbacks with
    | [] => ([], s)
    | callback :: rest =>
        let '(r, s1) := callback s in
        let '(rs, s2) := runAll rest s1 in
        (r :: rs, s2)
    end.

(** [Promise.all] over promises that are settled already: the first
    rejection, or all the values. *)
Fixpoint promiseAll {A} (outcomes : list (Result A)) : Result (list A) :=
  match outcomes with
  | [] => Ok []
  | Ok a :: rest => others ← promiseAll rest; mret (a :: others)
  | Throw e :: _ => Throw e
  end.

(** [Promise.all(xs.map(async ...))] *)
Definition awaitAll {A} (callbacks : list (M State A)) : M State (list A) :=
  fun s => let '(outcomes, s') := runAll callbacks s in (promiseAll outcomes, s').

(** The async function of one batch: it awaits the answer of
    [getQuoteData] and runs the callback on every entry of it. *)
Definition fetchBatch (poolKeys : list PoolKey) (blockNumber : Z)
    (batchStart : nat) (run : BatchRun) : M State (list string) :=
  fetchedData ← lift (answer run);
  awaitAll (imap (initializePool poolKeys batchStart blockNumber) fetchedData).

(** [maxTime ? [timer] : []]: [undefined], [0] and [NaN] start no timer. *)
Definition hasDeadline (maxTime : option Q) : bool :=
  match maxTime with
  | Some t => negb (Qeq_bool t 0)
  | None => false
  end.

(** [Promise.race([...timer, body]).catch(err => { throw { batch, err } })] *)
Definition raceBatch (maxTime : option Q) (batch : list PoolKey)
    (run : BatchRun) (body : Result (list string)) : Settled :=
  match (if hasDeadline maxTime && deadlineFirst run
         then Throw Timeout else body) with
  | Ok poolIds => Fulfilled poolIds
  | Throw err => Rejected {| batch := batch; err := err |}
  end.

(** A call in flight: the batch, its offset and what the world does to it. *)
Record Call := {
  call_start : nat;
  call_batch : list PoolKey;
  call_run : BatchRun
}.

Definition answeredBefore (a b : Call) : Prop :=
  answeredAt (call_run a) ≤ answeredAt (call_run b).

#[global] Instance answeredBefore_dec a b : Decision (answeredBefore a b).
Proof. unfold answeredBefore. apply _. Defined.

Definition calls (poolKeys : list PoolKey) (world : nat → BatchRun) : list Call :=
  imap (fun j b => {| call_start := fst b; call_batch := snd b;
                      call_run := world j |})
       (batches poolKeys).

(** [initializePools], together with the [Promise.allSettled] both callers
    apply to what it returns. [world j] is what happens to the call of the
    [j]-th batch. The batch functions run as their answers arrive, in the
    order of [answeredAt]; a timer that fires first settles the batch's
    promise and leaves the call in flight, so the state returned is the
    state once every call has been answered. What a batch function returns
    or throws does not depend on the state it finds, so the settled values
    are read off a run from the state at the call. *)
Definition initializePools (poolKeys : list PoolKey) (blockNumber : Z)
    (maxTime : option Q) (world : nat → BatchRun) : M State (list Settled) :=
  fun s =>
    let inFlight := calls poolKeys world in
    let settled :=
      map (fun c =>
             raceBatch maxTime (call_batch c) (call_run c)
               (fst (fetchBatch poolKeys blockNumber (call_start c) (call_run c) s)))
          inFlight in
    let s' :=
      foldl (fun s c =>
               snd (fetchBatch poolKeys blockNumber (call_start c) (call_run c) s))
            s (merge_sort answeredBefore inFlight) in
    (Ok settled, s').

(** *** updatePoolMap *)

Definition uninitialized (registry : JSMap.t string BasePool) (poolKey : PoolKey) : bool :=
  negb (JSMap.has (string_id env poolKey) registry).

Fixpoint reportRejected (results : list Settled) : M State unit :=
  match results with
  | [] => mret tt
  | Fulfilled _ :: rest => reportRejected rest
  | Rejected reason :: rest =>
      log (FetchingBatchFailed (batch reason) (err reason)) ;;
      reportRejected rest
  end.

Definition updatePoolMap (blockNumber : Z) (response : Result (list PoolInfo))
    (world : nat → BatchRun) : M State unit :=
  match fetchAllPoolKeys response with
  | Throw err => log (UpdatingPoolMapFailed err)
  | Ok poolKeys =>
      registry ← gets pools;
      let uninitializedPoolKeys := List.filter (uninitialized registry) poolKeys in
      results ← initializePools uninitializedPoolKeys blockNumber None world;
      reportRejected results
  end.

(** *** fetchPoolsByPair *)

(** The [try]/[catch] that chooses the pool keys of the pair. *)
Definition pairPoolKeys (token0 token1 : Z) (response : Result (list PoolInfo))
  : M State (list PoolKey) :=
  match fetchAllPoolKeys response with
  | Ok all => mret (List.filter (pairIs token0 token1) all)
  | Throw err =>
      log (FallingBack token0 token1 err) ;;
      let poolKeys :=
        map (fun params =>
               {| token0 := token0; token1 := token1;
                  config := {| tickSpacing := snd params; fee := fst params;
                               extension := 0 |} |})
            FALLBACK_POOL_PARAMETERS in
      mret (if includes [token0; token1] (NATIVE_TOKEN_ADDRESS env) then
              poolKeys ++
              [ {| token0 := token0; token1 := token1;
                   config := {| tickSpacing := FULL_RANGE_TICK_SPACING env;
                                fee := 0; extension := oracle this |} |} ]
            else poolKeys)
  end.

(** The [flatMap] over the settled batches. *)
Fixpoint collectFulfilled (results : list Settled) : M State (list string) :=
  match results with
  | [] => mret []
  | Fulfilled value :: rest =>
      others ← collectFulfilled rest;
      mret (value ++ others)
  | Rejected reason :: rest =>
      log (FetchingBatchFailed (batch reason) (err reason)) ;;
      collectFulfilled rest
  end.

Definition fetchPoolsByPair (tokenA tokenB : Token) (blockNumber : Z)
    (maxTime : Q) (response : Result (list PoolInfo))
    (world : nat → BatchRun) : M State (list string) :=
  let '(token0, token1) := sortAndConvertTokens tokenA tokenB in
  let maxTime := (maxTime - 50)%Q in
  poolKeys ← pairPoolKeys token0 token1 response;
  registry ← gets pools;
  let uninitializedPoolKeys := List.filter (uninitialized registry) poolKeys in
  let initializedPoolKeys :=
    List.filter (fun poolKey => negb (uninitialized registry poolKey)) poolKeys in
  results ← initializePools uninitializedPoolKeys blockNumber
              (Some (maxTime / 2)%Q) world;
  let oldPoolIds := map (string_id env) initializedPoolKeys in
  newPoolIds ← collectFulfilled results;
  mret (oldPoolIds ++ newPoolIds).

(** *** Vocabulary of the statements about quoting *)

(** [q] is what the pool quotes for [amount], and on the buy side it
    consumed exactly what was asked. *)
Definition quotedAs (pool : BasePool) (isExactOut : bool)
    (amountTokenAddress blockNumber : Z) (amount : Z) (q : Quote) : Prop :=
  quote env pool (inputAmount isExactOut amount) amountTokenAddress blockNumber
    = Ok q ∧
  (isExactOut = true → consumedAmount q = inputAmount isExactOut amount).

(** [skipAheadMap] after the loop has stored the quotes of [amounts]. *)
Definition recordSkipAhead (m : JSMap.t Z Z) (amounts : list Z)
    (qs : list Quote) : JSMap.t Z Z :=
  foldl (fun m aq => JSMap.set (fst aq) (skipAhead (snd aq)) m) m
        (zip amounts qs).

(** The price point of a pool that quoted [unitQuote] for the unit and
    [otherQuotes] for the amounts. *)
Definition pricePoint (token1 amountTokenAddress unitAmount : Z)
    (amounts : list Z) (pool : BasePool) (unitQuote : Quote)
    (otherQuotes : list Quote) : PoolPrices :=
  {| prices := map calculatedAmount otherQuotes;
     unit_ := calculatedAmount unitQuote;
     data := {| poolKey := key pool;
                isToken1 := bool_decide (amountTokenAddress = token1);
                data_skipAhead :=
                  recordSkipAhead JSMap.empty (unitAmount :: amounts)
                                  (unitQuote :: otherQuotes) |};
     poolIdentifier := string_id env (key pool);
     exchange := dexKey this;
     gasCost := map gasConsumed otherQuotes |}.

(** From whatever state, quoting [pool] returns [fst out] and writes
    [snd out] to the logger. *)
Definition pushes (token0 token1 : Z) (isExactOut : bool)
    (amountTokenAddress unitAmount : Z) (amounts : list Z) (blockNumber : Z)
    (pool : BasePool) (out : list PoolPrices * list LogEntry) : Prop :=
  ∀ s, quotePool token0 token1 isExactOut amountTokenAddress unitAmount
         amounts blockNumber pool s = (Ok (fst out), addLogs (snd out) s).

(** *** Vocabulary of the statements about discovery *)

Definition tracked (poolId : string) (s : State) : Prop :=
  JSMap.has poolId (pools s) = true.

Definition stores (poolId : string) (pool : BasePool) (s : State) : Prop :=
  JSMap.get poolId (pools s) = Some pool.

(** The keys the fallback always lists for a pair. *)
Definition genericFallback (token0 token1 : Z) : list PoolKey :=
  map (fun params =>
         {| token0 := token0; token1 := token1;
            config := {| tickSpacing := snd params; fee := fst params;
                         extension := 0 |} |})
      FALLBACK_POOL_PARAMETERS.

(** The key the fallback adds for a pair with the native token. *)
Definition oracleFallback (token0 token1 : Z) : PoolKey :=
  {| token0 := token0; token1 := token1;
     config := {| tickSpacing := FULL_RANGE_TICK_SPACING env; fee := 0;
                  extension := oracle this |} |}.

(** *** getPoolIdentifiers *)

(** [FETCH_POOL_IDENTIFIER_TIMEOUT] of the constants (not under src/) is an
    argument. *)
Definition getPoolIdentifiers (FETCH_POOL_IDENTIFIER_TIMEOUT : Q)
    (srcToken destToken : Token) (_side : SwapSide) (blockNumber : Z)
    (response : Result (list PoolInfo)) (world : nat → BatchRun)
  : M State (list string) :=
  fetchPoolsByPair srcToken destToken blockNumber FETCH_POOL_IDENTIFIER_TIMEOUT
    response world.

(** *** fetchPairPoolsInfo *)

(** A row of the [/pair/.../pools] answer. *)
Record PairInfo := {
  pair_fee : string;
  pair_tick_spacing : Z;
  pair_core_address : string;
  pair_extension : string;
  tvl0_total : string;
  tvl1_total : string
}.

Definition fetchPairPoolsInfo (response : Result (list PairInfo))
  : Result (list PairInfo) :=
  value ← response;
  filterR
    (fun res =>
       ext ← BigInt env (pair_extension res);
       if includes supportedExtensions ext then
         core ← BigInt env (pair_core_address res);
         mret ((coreAddress this =? core)%Z &&
               (negb (bool_decide (tvl0_total res = "0"%string)) ||
                negb (bool_decide (tvl1_total res = "0"%string))))
       else mret false)
    value.

(** *** More vocabulary *)

(** The extensions the adapter knows how to construct. *)
Definition supported (poolKey : PoolKey) : Prop :=
  extension (config poolKey) = 0%Z ∨ extension (config poolKey) = oracle this.

(** Every pool object is stored under the identifier of its own key, with
    the class of its extension. *)
Definition wellKeyed (s : State) : Prop :=
  Forall (fun entry =>
            string_id env (key (snd entry)) = fst entry ∧
            supported (key (snd entry)) ∧
            class (snd entry) =
              (if (extension (config (key (snd entry))) =? 0)%Z
               then BasePoolClass else OraclePoolClass))
         (pools s).

(** The identifiers of the allow-list that the registry does not hold. *)
Definition missing (limitPools : list string) (s : State) : list string :=
  List.filter (fun poolId => negb (JSMap.has poolId (pools s))) limitPools.

(** What the callers make of the settled batches: the identifiers of the
    fulfilled ones, and one log entry per rejected one. *)
Definition fulfilledIds (results : list Settled) : list string :=
  concat (map (fun result => match result with
                             | Fulfilled value => value
                             | Rejected _ => []
                             end) results).

Definition rejectionEntries (results : list Settled) : list LogEntry :=
  concat (map (fun result => match result with
                             | Fulfilled _ => []
                             | Rejected reason =>
                                 [FetchingBatchFailed (batch reason) (err reason)]
                             end) results).

(** What the callback of [initializePools] returns for the [i]-th entry of
    an answer: the identifier of the key at [batchStart + i], or what it
    throws before it constructs the pool. *)
Definition callbackOutcome (poolKeys : list PoolKey) (batchStart i : nat)
    (data : QuoteData) : Result string :=
  mapResult new_poolId (preparePool poolKeys batchStart i data).

(** The row predicate of [fetchAllPoolKeys], as a function of the row. *)
Definition rowIsKept (res : PoolInfo) : Result bool :=
  ext ← BigInt env (info_extension res);
  if includes supportedExtensions ext then
    core ← BigInt env (core_address res);
    mret (core =? coreAddress this)%Z
  else mret false.

End Adapter.

(** *** getDexParam *)

(** The arguments handed to [routerIface.encodeFunctionData('swap(...)')],
    in order, before their conversion ([poolKey.toAbi()], [BigNumber.from]). *)
Record SwapArguments := {
  arg_poolKey : PoolKey;
  arg_isToken1 : bool;
  arg_amount : Z;
  arg_sqrtRatioLimit : Z;
  arg_skipAhead : Z;
  arg_calculatedAmountThreshold : Z;
  arg_recipient : string
}.

(** What the call builder reads outside the class: the constants of
    ./pools/math and [isPriceIncreasing] of ./pools/math/swap (not under
    src/), [config.router], and the encoder of the router's interface with
    the conversions of its arguments: the calldata, or what it throws for
    a value that does not fit its slot (an amount outside [int128], a
    recipient that is no address). *)
Record Router := {
  MAX_SQRT_RATIO_FLOAT : Z;
  MIN_SQRT_RATIO_FLOAT : Z;
  MIN_I256 : Z;
  isPriceIncreasing : Z → bool → bool;
  router : string;
  encodeFunctionData : SwapArguments → Result string
}.

Record DexExchangeParam := {
  needWrapNative : bool;
  exchangeData : string;
  targetExchange : string;
  dexFuncHasRecipient : bool
}.

Definition getDexParam (env : Collaborators) (routerConfig : Router)
    (srcAmount destAmount recipient : string) (data : EkuboData)
    (side : SwapSide) : Result DexExchangeParam :=
  amount ← BigInt env (if bool_decide (side = BUY)
                       then ("-" +:+ destAmount)%string else srcAmount);
  requested ← BigInt env (if bool_decide (side = SELL)
                          then srcAmount else destAmount);
  exchangeData ←
    encodeFunctionData routerConfig
      {| arg_poolKey := poolKey data;
         arg_isToken1 := isToken1 data;
         arg_amount := amount;
         arg_sqrtRatioLimit :=
           if isPriceIncreasing routerConfig amount (isToken1 data)
           then MAX_SQRT_RATIO_FLOAT routerConfig
           else MIN_SQRT_RATIO_FLOAT routerConfig;
         arg_skipAhead :=
           default 0%Z (JSMap.get requested (data_skipAhead data));
         arg_calculatedAmountThreshold := MIN_I256 routerConfig;
         arg_recipient := recipient |};
  mret {| needWrapNative := false;
          exchangeData := exchangeData;
          targetExchange := router routerConfig;
          dexFuncHasRecipient := true |}.

(** *** getDecimals *)

(** [this.decimals] and the calls made to token contracts so far. A token
    address is never the name of a number-valued property that a plain
    object inherits, so [typeof cached === 'number'] is a lookup among the
    stored keys. *)
Record TokenCache := {
  decimalsOf : gmap string Z;
  decimalsCalls : list string
}.

(** [{ [ETHER_ADDRESS]: 18 }] *)
Definition initialTokenCache (ETHER_ADDRESS : string) : TokenCache :=
  {| decimalsOf := <[ETHER_ADDRESS := 18%Z]> ∅; decimalsCalls := [] |}.

(** [erc20 n token] is what the [n]-th call to a token contract answers
    when it asks [token] for its decimals. *)
Definition getDecimals (erc20 : nat → string → Result Z)
    (paraswapToken : string) : M TokenCache Z :=
  cached ← gets (fun c => decimalsOf c !! paraswapToken);
  match cached with
  | Some cached => mret cached
  | None =>
      decimals ← (fun c =>
                    (erc20 (length (decimalsCalls c)) paraswapToken,
                     {| decimalsOf := decimalsOf c;
                        decimalsCalls := decimalsCalls c ++ [paraswapToken] |}));
      modify (fun c => {| decimalsOf := <[paraswapToken := decimals]> (decimalsOf c);
                          decimalsCalls := decimalsCalls c |}) ;;
      mret decimals
  end.

End Ekubo.

(** ** The EtherFi adapter *)

Module EtherFi.

Inductive EtherFiFunctions : Type := deposit | wrap | unwrap.

Inductive ContractInterface : Type := eETHPoolInterface | weETHInterface.

Record Addresses := { eETH : string; eETHPool : string; weETH : string }.

Definition EtherFiConfig : gmap Z Addresses :=
  <[1%Z := {| eETH := "0x35fa164735182de50811e8e2e824cfb9b6118ac2";
              eETHPool := "0x308861a430be4cce5502d0a12724771fc6daf216";
              weETH := "0xcd5fe23c85820f7b72d0926fc9b05b43e359b7ee" |}]> ∅.

(** What the adapter throws. *)
Inductive Thrown : Type :=
| AssertionFailed (message : string)  (* assert(false, message) *)
| LogicError                          (* new Error('LOGIC ERROR') *)
| UndefinedConfig                     (* a field of EtherFiConfig[network] *)
| Raised (message : string).          (* by a collaborator *)

Inductive Outcome (A : Type) : Type :=
| Returns (a : A)
| Throws (t : Thrown).
Arguments Returns {A} a.
Arguments Throws {A} t.

(** [String.prototype.toLowerCase] on the characters of an address. *)
Definition lowerAscii (c : ascii) : ascii :=
  let n := nat_of_ascii c in
  if (65 <=? n)%nat && (n <=? 90)%nat then ascii_of_nat (n + 32) else c.

Fixpoint toLowerCase (s : string) : string :=
  match s with
  | EmptyString => EmptyString
  | String c rest => String (lowerAscii c) (toLowerCase rest)
  end.

(** The fields of the adapter. *)
Record EtherFi := {
  network : Z;
  this_eETH : string;
  this_eETHPool : string;
  this_weETH : string
}.

(** The constructor; [network] is the network of the helper it is given. *)
Definition new_EtherFi (network : Z) : Outcome EtherFi :=
  match EtherFiConfig !! network with
  | None => Throws UndefinedConfig
  | Some addresses =>
      Returns {| network := network;
                 this_eETH := toLowerCase (eETH addresses);
                 this_eETHPool := toLowerCase (eETHPool addresses);
                 this_weETH := toLowerCase (weETH addresses) |}
  end.

(** [isWETH] of SimpleExchange, [isETHAddress] of utils and the ABI encoder
    (none under src/). *)
Record Helpers := {
  isWETH : string → bool;
  isETHAddress : string → bool;
  encodeFunctionData :
    ContractInterface → EtherFiFunctions → list string → Outcome string
}.

(** The tuple the immediately-invoked function of [getSimpleParam] returns. *)
Record Selected := {
  selected_interface : ContractInterface;
  swapCallee : string;
  swapFunction : EtherFiFunctions;
  swapFunctionParams : list string
}.

(** What [getSimpleParam] hands to [buildSimpleParamWithoutWETHConversion]
    (of SimpleExchange, not under src/), in order. *)
Record SimpleParamArguments := {
  built_srcToken : string;
  built_srcAmount : string;
  built_destToken : string;
  built_destAmount : string;
  built_swapData : string;
  built_swapCallee : string
}.

Section Adapter.

Variable helpers : Helpers.
Variable this : EtherFi.

Definition is_eETH (token : string) : bool :=
  bool_decide (toLowerCase token = this_eETH this).

Definition is_weETH (token : string) : bool :=
  bool_decide (toLowerCase token = this_weETH this).

Definition assert (condition : bool) (message : string) : Outcome unit :=
  if condition then Returns tt else Throws (AssertionFailed message).

Definition selectCall (srcToken destToken srcAmount : string) : Outcome Selected :=
  if is_eETH destToken then
    match assert (isWETH helpers srcToken || isETHAddress helpers srcToken)
                 "srcToken should be eth" with
    | Throws t => Throws t
    | Returns _ =>
        Returns {| selected_interface := eETHPoolInterface;
                   swapCallee := this_eETHPool this;
                   swapFunction := deposit;
                   swapFunctionParams := [] |}
    end
  else if is_weETH destToken then
    match assert (is_eETH srcToken) "srcToken should be eETH" with
    | Throws t => Throws t
    | Returns _ =>
        Returns {| selected_interface := weETHInterface;
                   swapCallee := this_weETH this;
                   swapFunction := wrap;
                   swapFunctionParams := [srcAmount] |}
    end
  else if is_weETH srcToken then
    match assert (is_eETH destToken) "destToken should be eETH" with
    | Throws t => Throws t
    | Returns _ =>
        Returns {| selected_interface := weETHInterface;
                   swapCallee := this_weETH this;
                   swapFunction := unwrap;
                   swapFunctionParams := [srcAmount] |}
    end
  else Throws LogicError.

Definition getSimpleParam (srcToken destToken srcAmount destAmount : string)
  : Outcome SimpleParamArguments :=
  match selectCall srcToken destToken srcAmount with
  | Throws t => Throws t
  | Returns selected =>
      match encodeFunctionData helpers (selected_interface selected)
              (swapFunction selected) (swapFunctionParams selected) with
      | Throws t => Throws t
      | Returns swapData =>
          Returns {| built_srcToken := srcToken;
                     built_srcAmount := srcAmount;
                     built_destToken := destToken;
                     built_destAmount := destAmount;
                     built_swapData := swapData;
                     built_swapCallee := swapCallee selected |}
      end
  end.

End Adapter.

End EtherFi.

(** ** A concrete world

    Collaborators simple enough to run, used where a statement is
    evaluated on an input. *)

Module Examples.

Definition digitValue (c : ascii) : option Z :=
  let n := Z.of_nat (nat_of_ascii c) in
  if (48 <=? n)%Z && (n <=? 57)%Z then Some (n - 48)%Z
  else if (97 <=? n)%Z && (n <=? 102)%Z then Some (n - 87)%Z
  else if (65 <=? n)%Z && (n <=? 70)%Z then Some (n - 55)%Z
  else None.

Fixpoint digits (base acc : Z) (s : string) : option Z :=
  match s with
  | EmptyString => Some acc
  | String c rest =>
      match digitValue c with
      | Some d => if (d <? base)%Z then digits base (acc * base + d)%Z rest else None
      | None => None
      end
  end.

(** Decimal and [0x] literals, as [BigInt] reads them. *)
Definition parseBigInt (s : string) : Result Z :=
  let parsed :=
    match s with
    | String "0" (String "x" (String c rest)) => digits 16 0 (String c rest)
    | _ => digits 10 0 s
    end in
  match parsed with
  | Some z => Ok z
  | None => Throw (External "SyntaxError: Cannot convert to a BigInt")
  end.

(** *** IdleDao *)

Definition idleEnv : IdleDao.Collaborators :=
  {| IdleDao.logDecoder := fun log =>
       match IdleDao.topics log with
       | topic :: _ =>
           if bool_decide (topic = "Transfer" ∨ topic = "Approval")
           then inl {| IdleDao.name := topic; IdleDao.args := IdleDao.topics log |}
           else inr "no matching event"
       | [] => inr "no matching event"
       end;
     IdleDao.ethCall := fun _ _ block =>
       if (0 <=? block)%Z then inl (pretty (1000000 + block)%Z)
       else inr "header not found";
     IdleDao.bigintOf := fun value =>
       match parseBigInt value with
       | Ok z => Some z
       | Throw _ => None
       end |}.

Definition idleToken : IdleDao.IdleToken :=
  {| IdleDao.idleSymbol := "AA_idle";
     IdleDao.idleAddress := "0x1a";
     IdleDao.cdoAddress := "0x2b" |}.

Definition idlePool : IdleDao.IdleDaoEventPool :=
  IdleDao.new_IdleDaoEventPool idleToken.

Definition idleWorld : IdleDao.World :=
  {| IdleDao.logged := []; IdleDao.issued := [] |}.

Definition approvalLog : IdleDao.Log :=
  {| IdleDao.address := "0x1a"; IdleDao.blockNumber := 7;
     IdleDao.topics := ["Approval"]; IdleDao.data := "" |}.

Definition transferLog : IdleDao.Log :=
  {| IdleDao.address := "0x1a"; IdleDao.blockNumber := 7;
     IdleDao.topics := ["Transfer"]; IdleDao.data := "" |}.

Definition foreignLog : IdleDao.Log :=
  {| IdleDao.address := "0x1a"; IdleDao.blockNumber := 7;
     IdleDao.topics := ["Swap"]; IdleDao.data := "" |}.

(** *** Ekubo *)

Definition ETHER_ADDRESS : string := "0xeeeeeeeeeeeeeeeeeeeeeeeeeeeeeeeeeeeeeeee".

Definition poolId (k : Ekubo.PoolKey) : string :=
  pretty (Ekubo.token0 k) +:+ "_" +:+ pretty (Ekubo.token1 k) +:+ "_" +:+
  pretty (Ekubo.extension (Ekubo.config k)) +:+ "_" +:+
  pretty (Ekubo.fee (Ekubo.config k)) +:+ "_" +:+
  pretty (Ekubo.tickSpacing (Ekubo.config k)).

(** A toy pool: the first number of its snapshot is the depth it can pay
    out; it pays one for one and throws when it has no snapshot. *)
Definition toyQuote (pool : Ekubo.BasePool) (amount token blockNumber : Z)
  : Result Ekubo.Quote :=
  match Ekubo.snapshot (Ekubo.initialState pool) with
  | [] => Throw (External "no state")
  | depth :: _ =>
      let consumed := if (amount <? 0)%Z then Z.max amount (- depth) else amount in
      Ok {| Ekubo.consumedAmount := consumed;
            Ekubo.calculatedAmount := Z.abs consumed;
            Ekubo.gasConsumed := 20000;
            Ekubo.skipAhead := 0 |}
  end.

Definition ekuboEnv : Ekubo.Collaborators :=
  {| Ekubo.convertParaSwapToEkubo := fun a =>
       if bool_decide (a = ETHER_ADDRESS) then 0%Z
       else match parseBigInt a with Ok z => z | Throw _ => 0%Z end;
     Ekubo.NATIVE_TOKEN_ADDRESS := 0;
     Ekubo.FULL_RANGE_TICK_SPACING := 0;
     Ekubo.string_id := poolId;
     Ekubo.fromQuoter := fun d => Ok {| Ekubo.snapshot := Ekubo.quoteData d |};
     Ekubo.quote := toyQuote;
     Ekubo.BigInt := parseBigInt |}.

Definition ekubo : Ekubo.Adapter :=
  {| Ekubo.dexKey := "Ekubo"; Ekubo.oracle := 81; Ekubo.coreAddress := 224 |}.

Definition ETH : Ekubo.Token :=
  {| Ekubo.address := ETHER_ADDRESS; Ekubo.decimals := 18 |}.
Definition USDC : Ekubo.Token :=
  {| Ekubo.address := "0xa0b8"; Ekubo.decimals := 6 |}.
Definition DAI : Ekubo.Token :=
  {| Ekubo.address := "0x6b17"; Ekubo.decimals := 18 |}.

Definition keyOf (t0 t1 fee spacing ext : Z) : Ekubo.PoolKey :=
  {| Ekubo.token0 := t0; Ekubo.token1 := t1;
     Ekubo.config := {| Ekubo.tickSpacing := spacing; Ekubo.fee := fee;
                        Ekubo.extension := ext |} |}.

Definition poolOf (r : nat) (k : Ekubo.PoolKey) (depth : list Z) : Ekubo.BasePool :=
  {| Ekubo.ref := r; Ekubo.class := Ekubo.BasePoolClass; Ekubo.key := k;
     Ekubo.initializedAt := 1; Ekubo.initialState := {| Ekubo.snapshot := depth |} |}.

Definition emptyState : Ekubo.State :=
  {| Ekubo.pools := JSMap.empty; Ekubo.allocated := 0; Ekubo.logged := [] |}.

(** The world answers every call at once with one entry per requested pool. *)
Definition promptWorld (entries : nat) (j : nat) : Ekubo.BatchRun :=
  {| Ekubo.answer := Ok (replicate entries {| Ekubo.quoteData := [1000%Z] |});
     Ekubo.answeredAt := j;
     Ekubo.deadlineFirst := false |}.

(** A registry that tracks one pool of the pair (ETH, USDC). *)
Definition knownKey : Ekubo.PoolKey := keyOf 0 41144 100 200 0.
Definition knownPool : Ekubo.BasePool := poolOf 0 knownKey [5000%Z].

Definition oneKnownPool : Ekubo.State :=
  {| Ekubo.pools := [(poolId knownKey, knownPool)];
     Ekubo.allocated := 1; Ekubo.logged := [] |}.

(** A row of the index for [knownKey] and one for a pool not yet tracked. *)
Definition knownRow : Ekubo.PoolInfo :=
  {| Ekubo.core_address := "224"; Ekubo.info_token0 := "0";
     Ekubo.info_token1 := "41144"; Ekubo.info_fee := "100";
     Ekubo.tick_spacing := 200; Ekubo.info_extension := "0" |}.
Definition newRow : Ekubo.PoolInfo :=
  {| Ekubo.core_address := "224"; Ekubo.info_token0 := "0";
     Ekubo.info_token1 := "41144"; Ekubo.info_fee := "300";
     Ekubo.tick_spacing := 1000; Ekubo.info_extension := "0" |}.

(** A registry with a deep and a shallow pool of (ETH, USDC) and a pool of
    another pair that has no snapshot. *)
Definition shallowKey : Ekubo.PoolKey := keyOf 0 41144 300 1000 0.
Definition strayKey : Ekubo.PoolKey := keyOf 0 27415 300 1000 0.

Definition threePools : Ekubo.State :=
  {| Ekubo.pools := [ (poolId knownKey, poolOf 0 knownKey [5000000%Z]);
                      (poolId shallowKey, poolOf 1 shallowKey [1500000%Z]);
                      (poolId strayKey, poolOf 2 strayKey []) ];
     Ekubo.allocated := 3; Ekubo.logged := [] |}.

(** *** The call builder and the token cache *)

(** An encoder that checks the slots of the amount and of the recipient. *)
Definition encodeSwap (args : Ekubo.SwapArguments) : Result string :=
  if negb ((- 2 ^ 127 <=? Ekubo.arg_amount args)%Z &&
           (Ekubo.arg_amount args <? 2 ^ 127)%Z) then
    Throw (External "value out-of-bounds (argument=amount)")
  else if negb (String.length (Ekubo.arg_recipient args) =? 42)%nat then
    Throw (External "invalid address (argument=recipient)")
  else
    Ok ("swap(" +:+ poolId (Ekubo.arg_poolKey args) +:+ "," +:+
        (if Ekubo.arg_isToken1 args then "true" else "false") +:+ "," +:+
        pretty (Ekubo.arg_amount args) +:+ "," +:+
        pretty (Ekubo.arg_sqrtRatioLimit args) +:+ "," +:+
        pretty (Ekubo.arg_skipAhead args) +:+ "," +:+
        Ekubo.arg_recipient args +:+ ")")%string.

Definition routerConfig : Ekubo.Router :=
  {| Ekubo.MAX_SQRT_RATIO_FLOAT := 79227682466138141934206691491;
     Ekubo.MIN_SQRT_RATIO_FLOAT := 4611797791050542631;
     Ekubo.MIN_I256 := - 2 ^ 255;
     Ekubo.isPriceIncreasing := fun amount isToken1 =>
       xorb (amount <? 0)%Z isToken1;
     Ekubo.router := "0x9995855c00494d039ab6792f18e368e530dff931";
     Ekubo.encodeFunctionData := encodeSwap |}.

(** Token contracts that answer 6 for USDC, 18 for DAI, and revert
    otherwise; from the third call on the node is down. *)
Definition toyErc20 (n : nat) (token : string) : Result Z :=
  if bool_decide (2 ≤ n) then Throw (External "network error")
  else if bool_decide (token = "0xa0b8"%string) then Ok 6%Z
  else if bool_decide (token = "0x6b17"%string) then Ok 18%Z
  else Throw (External "call revert exception").

(** A pool that fills a sale only up to its depth. *)
Definition thinQuote (pool : Ekubo.BasePool) (amount token blockNumber : Z)
  : Result Ekubo.Quote :=
  match Ekubo.snapshot (Ekubo.initialState pool) with
  | [] => Throw (External "no state")
  | depth :: _ =>
      let consumed := if (amount <? 0)%Z then Z.max amount (- depth)
                      else Z.min amount depth in
      Ok {| Ekubo.consumedAmount := consumed;
            Ekubo.calculatedAmount := Z.abs consumed;
            Ekubo.gasConsumed := 20000;
            Ekubo.skipAhead := Z.abs consumed / 1000000 |}
  end.

Definition thinEnv : Ekubo.Collaborators :=
  {| Ekubo.convertParaSwapToEkubo := Ekubo.convertParaSwapToEkubo ekuboEnv;
     Ekubo.NATIVE_TOKEN_ADDRESS := 0;
     Ekubo.FULL_RANGE_TICK_SPACING := 0;
     Ekubo.string_id := poolId;
     Ekubo.fromQuoter := Ekubo.fromQuoter ekuboEnv;
     Ekubo.quote := thinQuote;
     Ekubo.BigInt := fun s =>
       match s with
       | String "-" rest => mapResult Z.opp (parseBigInt rest)
       | _ => parseBigInt s
       end |}.

(** A row of the index for a pool with an extension the adapter does not
    know; its other fields do not even parse. *)
Definition foreignRow : Ekubo.PoolInfo :=
  {| Ekubo.core_address := "not an address"; Ekubo.info_token0 := "?";
     Ekubo.info_token1 := "?"; Ekubo.info_fee := "?";
     Ekubo.tick_spacing := 1; Ekubo.info_extension := "77" |}.

(** A row whose extension is not a number. *)
Definition brokenRow : Ekubo.PoolInfo :=
  {| Ekubo.core_address := "224"; Ekubo.info_token0 := "0";
     Ekubo.info_token1 := "41144"; Ekubo.info_fee := "100";
     Ekubo.tick_spacing := 200; Ekubo.info_extension := "zero" |}.

(** *** EtherFi *)

Definition WETH : string := "0xc02aaa39b223fe8d0a0e5c4f27ead9083c756cc2".

Definition functionName (f : EtherFi.EtherFiFunctions) : string :=
  match f with
  | EtherFi.deposit => "deposit"
  | EtherFi.wrap => "wrap"
  | EtherFi.unwrap => "unwrap"
  end.

Definition etherfiHelpers : EtherFi.Helpers :=
  {| EtherFi.isWETH := fun token =>
       bool_decide (EtherFi.toLowerCase token = WETH);
     EtherFi.isETHAddress := fun token =>
       bool_decide (EtherFi.toLowerCase token = ETHER_ADDRESS);
     EtherFi.encodeFunctionData := fun _ f params =>
       EtherFi.Returns (functionName f +:+ "(" +:+ String.concat "," params +:+ ")") |}.

Definition etherfi : EtherFi.EtherFi :=
  {| EtherFi.network := 1;
     EtherFi.this_eETH := "0x35fa164735182de50811e8e2e824cfb9b6118ac2";
     EtherFi.this_eETHPool := "0x308861a430be4cce5502d0a12724771fc6daf216";
     EtherFi.this_weETH := "0xcd5fe23c85820f7b72d0926fc9b05b43e359b7ee" |}.

(** The shallow pool and what it quotes for any sale above its depth. *)
Definition shallowPool : Ekubo.BasePool := poolOf 1 shallowKey [1500000%Z].

Definition partialQuote : Ekubo.Quote :=
  {| Ekubo.consumedAmount := 1500000; Ekubo.calculatedAmount := 1500000;
     Ekubo.gasConsumed := 20000; Ekubo.skipAhead := 1 |}.

(** A world in which the data fetcher cannot be reached. *)
Definition deafWorld (j : nat) : Ekubo.BatchRun :=
  {| Ekubo.answer := Throw (External "missing response");
     Ekubo.answeredAt := j;
     Ekubo.deadlineFirst := false |}.

(** Rows of the pools of a pair: one with liquidity, one without. *)
Definition livePairRow : Ekubo.PairInfo :=
  {| Ekubo.pair_fee := "100"; Ekubo.pair_tick_spacing := 200;
     Ekubo.pair_core_address := "224"; Ekubo.pair_extension := "0";
     Ekubo.tvl0_total := "0"; Ekubo.tvl1_total := "12500" |}.
Definition deadPairRow : Ekubo.PairInfo :=
  {| Ekubo.pair_fee := "300"; Ekubo.pair_tick_spacing := 1000;
     Ekubo.pair_core_address := "224"; Ekubo.pair_extension := "0";
     Ekubo.tvl0_total := "0"; Ekubo.tvl1_total := "0" |}.

(** Seven keys of one pair, and two worlds for the two calls they take:
    in the first the first call is slower than its timer and the second
    call is answered at once; in the second the first call is lost. *)
Definition sevenKeys : list Ekubo.PoolKey :=
  map (fun fee => keyOf 0 41144 fee 200 0) [1; 2; 3; 4; 5; 6; 7]%Z.

Definition slowFirstCall (j : nat) : Ekubo.BatchRun :=
  match j with
  | O => {| Ekubo.answer := Ok (replicate 5 {| Ekubo.quoteData := [1000%Z] |});
            Ekubo.answeredAt := 9;
            Ekubo.deadlineFirst := true |}
  | _ => {| Ekubo.answer := Ok (replicate 2 {| Ekubo.quoteData := [1000%Z] |});
            Ekubo.answeredAt := 1;
            Ekubo.deadlineFirst := false |}
  end.

Definition lostFirstCall (j : nat) : Ekubo.BatchRun :=
  match j with
  | O => {| Ekubo.answer := Throw (External "missing response");
            Ekubo.answeredAt := 9;
            Ekubo.deadlineFirst := false |}
  | _ => slowFirstCall j
  end.

End Examples.

(** * Properties *)

(** ** The event-sourced state store *)

Module IdleDaoSpec.
Import IdleDao.

Section Subscriber.

Variable env : Collaborators.
Variable this : IdleDaoEventPool.

(** What [generateState] returns is fixed by the block number and the
    subscriber's token: the world it runs in only receives the read. *)
Lemma generateState_run blockNumber w :
  generateState env this blockNumber w =
  (price ← virtualPrice env (cdoAddress (idleToken this))
                            (idleAddress (idleToken this)) blockNumber;
   z ← BigInt env price;
   mret {| tokenPrice := z |},
   {| logged := logged w;
      issued := issued w ++
                [{| contract := cdoAddress (idleToken this);
                    argument := idleAddress (idleToken this);
                    blockTag := blockNumber |}] |}).
Proof.
  unfold generateState, call_virtualPrice, mbind, M_bind, bind, lift; simpl.
  destruct (virtualPrice env _ _ blockNumber) as [price|e]; simpl; [|done].
  destruct (BigInt env price); done.
Qed.

(** What the decoder throws is a decode mismatch; what [generateState]
    throws is not. *)
Lemma parseLog_throws log e :
  parseLog env log = Throw e → ∃ reason, e = DecodeMismatch reason.
Proof. unfold parseLog. destruct (logDecoder env log); [done|]. intros [= <-]. eauto. Qed.

Lemma generateState_throws blockNumber w e :
  fst (generateState env this blockNumber w) = Throw e → ∃ message, e = External message.
Proof.
  rewrite generateState_run. cbn [fst]. unfold virtualPrice, BigInt, mbind, Result_bind.
  destruct (ethCall env _ _ _) as [price|message]; [|intros [= <-]; eauto].
  destruct (bigintOf env price); [done|]. intros [= <-]. eauto.
Qed.

(** C8. An incoming log that the decoder rejects, or whose event name has
    no entry in [handlers], makes [processLog] return [null] ("unchanged"):
    the call does not throw, and it reads nothing from the chain. *)
Theorem processLog_ignores_foreign_logs state log w :
  (∃ e, parseLog env log = Throw e) ∨
  (∃ event, parseLog env log = Ok event ∧ handlers this !! name event = None) →
  fst (processLog env this state log w) = Ok None ∧
  issued (snd (processLog env this state log w)) = issued w.
Proof.
  intros [[e He] | [event [Hev Hnone]]];
    unfold processLog, tryCatch, mbind, M_bind, bind, lift.
  - rewrite He. by destruct (parseLog_throws _ _ He) as [reason ->].
  - rewrite Hev, Hnone. done.
Qed.

(** C9. [generateState] is idempotent: two calls at the same block number
    return the same outcome, whatever the subscriber did in between (the
    second call may start from any world, in particular from the one the
    first call left). *)
Theorem generateState_idempotent blockNumber w w' :
  fst (generateState env this blockNumber w') =
  fst (generateState env this blockNumber w) ∧
  fst (generateState env this blockNumber
         (snd (generateState env this blockNumber w))) =
  fst (generateState env this blockNumber w).
Proof. by rewrite !generateState_run. Qed.

(** C10. The Transfer handler returns exactly what [generateState] returns
    at the block of the log, and leaves the world as [generateState] leaves
    it; neither the decoded event nor the previous state matters. *)
Theorem handleCoinTransfer_regenerates event state log w :
  handleCoinTransfer env this event state log w =
  (mapResult Some (fst (generateState env this (blockNumber log) w)),
   snd (generateState env this (blockNumber log) w)) ∧
  ∀ event' state',
    handleCoinTransfer env this event' state' log w =
    handleCoinTransfer env this event state log w.
Proof.
  split; [|done].
  unfold handleCoinTransfer, mbind, M_bind, bind.
  destruct (generateState env this (blockNumber log) w) as [[r|e] w1]; done.
Qed.

End Subscriber.

(** Through [processLog], a Transfer log gives the state regenerated at its
    block; when the regeneration fails, the failure reaches the same
    [catch] as a decode failure, is not one, and fails the call. *)
Lemma processLog_on_transfer env this state log event w :
  parseLog env log = Ok event →
  handlers this !! name event = Some HandleCoinTransfer →
  processLog env this state log w =
  match generateState env this (blockNumber log) w with
  | (Ok regenerated, w') => (Ok (Some regenerated), w')
  | (Throw e, w') => (Throw (StateAdvanceError e), w')
  end.
Proof.
  intros Hev Hh. unfold processLog, tryCatch, mbind, M_bind, bind, lift.
  rewrite Hev, Hh. simpl. unfold handleCoinTransfer, mbind, M_bind, bind.
  pose proof (generateState_throws env this (blockNumber log) w) as Hkind.
  destruct (generateState env this (blockNumber log) w) as [[st|e] w']; [done|].
  by destruct (Hkind e eq_refl) as [message ->].
Qed.

(** The constructor registers [Transfer] only: an [Approval] of the tracked
    token decodes and is ignored. *)
Lemma processLog_ignores_foreign_logs_witness :
  fst (processLog Examples.idleEnv Examples.idlePool {| tokenPrice := 5 |}
         Examples.approvalLog Examples.idleWorld) = Ok None.
Proof.
  apply (processLog_ignores_foreign_logs Examples.idleEnv Examples.idlePool).
  right. eexists. split; [reflexivity | vm_compute; reflexivity].
Defined.

(** Through [processLog], a Transfer log regenerates the state at its block. *)
Example processLog_transfer :
  fst (processLog Examples.idleEnv Examples.idlePool {| tokenPrice := 5 |}
         Examples.transferLog Examples.idleWorld)
  = Ok (Some {| tokenPrice := 1000007 |}).
Proof. vm_compute. reflexivity. Qed.

End IdleDaoSpec.

(** ** JavaScript maps *)

Module JSMapFacts.

Section Facts.

Context {K V : Type} `{EqDecision K}.
Implicit Types (m : JSMap.t K V) (k : K) (v : V).

Lemma get_set_eq k v m : JSMap.get k (JSMap.set k v m) = Some v.
Proof.
  induction m as [|[k' v'] m IH]; simpl.
  - by rewrite decide_True.
  - destruct (decide (k = k')) as [->|Hne]; simpl.
    + by rewrite decide_True.
    + by rewrite decide_False.
Qed.

Lemma get_set_ne k k' v m : k ≠ k' → JSMap.get k' (JSMap.set k v m) = JSMap.get k' m.
Proof.
  intros Hne. induction m as [|[k0 v0] m IH]; simpl.
  - by rewrite decide_False.
  - destruct (decide (k = k0)) as [->|Hne0]; simpl.
    + by rewrite !decide_False.
    + destruct (decide (k' = k0)); [done | apply IH].
Qed.

Lemma has_set k k' v m :
  JSMap.has k' m = true → JSMap.has k' (JSMap.set k v m) = true.
Proof.
  unfold JSMap.has. destruct (decide (k = k')) as [->|Hne].
  - by rewrite get_set_eq.
  - by rewrite get_set_ne.
Qed.

Lemma has_set_eq k v m : JSMap.has k (JSMap.set k v m) = true.
Proof. unfold JSMap.has. by rewrite get_set_eq. Qed.

Lemma keys_set k v m :
  map fst (JSMap.set k v m) =
  if JSMap.has k m then map fst m else map fst m ++ [k].
Proof.
  unfold JSMap.has. induction m as [|[k' v'] m IH]; simpl; [done|].
  destruct (decide (k = k')) as [->|Hne]; simpl; [done|].
  rewrite IH. by destruct (JSMap.get k m).
Qed.

Lemma get_None_keys k m : JSMap.get k m = None → k ∉ map fst m.
Proof.
  induction m as [|[k' v'] m IH]; simpl; intros Hget.
  - apply not_elem_of_nil.
  - destruct (decide (k = k')); [done|].
    apply not_elem_of_cons. split; [done | by apply IH].
Qed.

(** A map never holds two entries for one key. *)
Lemma set_NoDup k v m : NoDup (map fst m) → NoDup (map fst (JSMap.set k v m)).
Proof.
  intros Hnd. rewrite keys_set. unfold JSMap.has.
  destruct (JSMap.get k m) eqn:Hget; [done|].
  apply NoDup_app. split_and!; [done | | apply NoDup_singleton].
  intros x Hx ->%list_elem_of_singleton. by apply (get_None_keys _ _ Hget).
Qed.

Lemma get_Some_values k v m : JSMap.get k m = Some v → v ∈ JSMap.values m.
Proof.
  unfold JSMap.values. induction m as [|[k' v'] m IH]; simpl; [done|].
  destruct (decide (k = k')).
  - intros [= ->]. apply list_elem_of_here.
  - intros Hget. apply list_elem_of_further. by apply IH.
Qed.

End Facts.

End JSMapFacts.

(** ** The quoting engine *)

Module EkuboSpec.
Import Ekubo.

Lemma addLogs_nil s : addLogs [] s = s.
Proof. destruct s. unfold addLogs; simpl. by rewrite app_nil_r. Qed.

Lemma addLogs_app es1 es2 s : addLogs es2 (addLogs es1 s) = addLogs (es1 ++ es2) s.
Proof. unfold addLogs; simpl. by rewrite app_assoc. Qed.

Lemma pools_addLogs es s : pools (addLogs es s) = pools s.
Proof. done. Qed.

(** Unfolds the monad down to matches on the outcomes of the steps. *)
Ltac run :=
  unfold mbind, M_bind, bind, mret, M_ret, ret, lift, gets, modify, log,
    tryCatch; simpl.

Section Quoting.

Variable env : Collaborators.
Variable this : Adapter.

Variables (token0 token1 : Z) (isExactOut : bool).
Variables (amountTokenAddress unitAmount : Z) (amounts : list Z).
Variable blockNumber : Z.

Abbreviation quotedAs' pool :=
  (quotedAs env pool isExactOut amountTokenAddress blockNumber).

(** The loop over the amounts ends in one of three ways, whatever the
    state: every amount is quoted (and filled exactly, on the buy side);
    or, on the buy side, some amount is not filled exactly; or some quote
    throws. *)
Lemma quoteAmounts_cases pool todo :
  ∀ quotes m,
    (∃ qs, Forall2 (quotedAs' pool) todo qs ∧
       ∀ s, quoteAmounts env pool isExactOut amountTokenAddress blockNumber
              todo quotes m s =
            (Ok (Completed (quotes ++ qs) (recordSkipAhead m todo qs)), s))
    ∨ (isExactOut = true ∧
       (∃ amount q, amount ∈ todo ∧
          quote env pool (inputAmount isExactOut amount) amountTokenAddress
            blockNumber = Ok q ∧
          consumedAmount q ≠ inputAmount isExactOut amount) ∧
       ∀ s, quoteAmounts env pool isExactOut amountTokenAddress blockNumber
              todo quotes m s =
            (Ok ContinuePoolLoop, addLogs [NotEnoughLiquidity] s))
    ∨ (∃ e,
       (∃ amount, amount ∈ todo ∧
          quote env pool (inputAmount isExactOut amount) amountTokenAddress
            blockNumber = Throw e) ∧
       ∀ s, quoteAmounts env pool isExactOut amountTokenAddress blockNumber
              todo quotes m s = (Throw e, s)).
Proof.
  induction todo as [|amount rest IH]; intros quotes m.
  - left. exists []. split; [constructor|].
    intros s. simpl. by rewrite app_nil_r.
  - simpl.
    destruct (quote env pool (inputAmount isExactOut amount)
                amountTokenAddress blockNumber) as [q|e] eqn:Hq.
    2:{ right; right. exists e. split.
        - exists amount. split; [apply list_elem_of_here | done].
        - intros s. run. by rewrite ?Hq. }
    destruct (isExactOut && negb (consumedAmount q =? inputAmount isExactOut amount)%Z)
      eqn:Hshort.
    + pose proof Hshort as [Hex Hne]%andb_true_iff.
      apply negb_true_iff, Z.eqb_neq in Hne.
      right; left. split; [done|]. split.
      * exists amount, q. split; [apply list_elem_of_here | done].
      * intros s. run. rewrite ?Hq. simpl. by rewrite Hshort.
    + assert (Hexact : isExactOut = true →
                       consumedAmount q = inputAmount isExactOut amount).
      { intros Hex. apply Z.eqb_eq, negb_false_iff.
        rewrite Hex in Hshort |- *. exact Hshort. }
      destruct (IH (quotes ++ [q]) (JSMap.set amount (skipAhead q) m))
        as [[qs [Hqs Hrun]] | [[Hex [[a [q' [Ha Hq']]] Hrun]] | [e [[a [Ha Hthrow]] Hrun]]]].
      * left. exists (q :: qs). split; [by constructor|].
        intros s. run. rewrite ?Hq. simpl. rewrite Hshort.
        rewrite Hrun. by rewrite <- app_assoc.
      * right; left. split; [done|]. split.
        -- exists a, q'. split; [by apply list_elem_of_further | done].
        -- intros s. run. rewrite ?Hq. simpl. rewrite Hshort. apply Hrun.
      * right; right. exists e. split.
        -- exists a. split; [by apply list_elem_of_further | done].
        -- intros s. run. rewrite ?Hq. simpl. rewrite Hshort. apply Hrun.
Qed.

Abbreviation pushes' :=
  (pushes env this token0 token1 isExactOut amountTokenAddress unitAmount
          amounts blockNumber).

(** One iteration of the pool loop, case by case: the pool is for another
    pair; or it quoted the unit and every amount; or, on the buy side, it
    could not fill an amount; or a quote threw. *)
Lemma quotePool_cases pool :
  (pairIs token0 token1 (key pool) = false ∧
   pushes' pool ([], [CantQuotePair token0 token1 (string_id env (key pool))]))
  ∨ (pairIs token0 token1 (key pool) = true ∧
     ((∃ unitQuote otherQuotes,
         Forall2 (quotedAs' pool) (unitAmount :: amounts)
                 (unitQuote :: otherQuotes) ∧
         (∀ s, quoteAmounts env pool isExactOut amountTokenAddress blockNumber
                 (unitAmount :: amounts) [] JSMap.empty s =
               (Ok (Completed (unitQuote :: otherQuotes)
                      (recordSkipAhead JSMap.empty (unitAmount :: amounts)
                                       (unitQuote :: otherQuotes))), s)) ∧
         pushes' pool
           ([pricePoint env this token1 amountTokenAddress unitAmount amounts
                        pool unitQuote otherQuotes], []))
      ∨ (isExactOut = true ∧
         (∃ amount q, amount ∈ unitAmount :: amounts ∧
            quote env pool (inputAmount isExactOut amount) amountTokenAddress
              blockNumber = Ok q ∧
            consumedAmount q ≠ inputAmount isExactOut amount) ∧
         pushes' pool ([], [NotEnoughLiquidity]))
      ∨ (∃ e,
         (∃ amount, amount ∈ unitAmount :: amounts ∧
            quote env pool (inputAmount isExactOut amount) amountTokenAddress
              blockNumber = Throw e) ∧
         (∀ s, quoteAmounts env pool isExactOut amountTokenAddress blockNumber
                 (unitAmount :: amounts) [] JSMap.empty s = (Throw e, s)) ∧
         pushes' pool ([], [QuoteError e])))).
Proof.
  destruct (pairIs token0 token1 (key pool)) eqn:Hpair.
  2:{ left. split; [done|]. intros s. unfold quotePool. by rewrite Hpair. }
  right. split; [done|].
  destruct (quoteAmounts_cases pool (unitAmount :: amounts) [] JSMap.empty)
    as [[qs [Hqs Hrun]] | [[Hex [Hshort Hrun]] | [e [Hthrow Hrun]]]].
  - left. destruct qs as [|unitQuote otherQuotes]; [by inversion Hqs|].
    exists unitQuote, otherQuotes. split_and!; [done..|].
    intros s. unfold quotePool. rewrite Hpair. cbn [negb].
    unfold tryCatch, mbind, M_bind, bind.
    rewrite Hrun. simpl. by rewrite addLogs_nil.
  - right; left. split_and!; [done..|].
    intros s. unfold quotePool. rewrite Hpair. cbn [negb].
    unfold tryCatch, mbind, M_bind, bind.
    by rewrite Hrun.
  - right; right. exists e. split_and!; [done..|].
    intros s. unfold quotePool. rewrite Hpair. cbn [negb].
    unfold tryCatch, mbind, M_bind, bind.
    by rewrite Hrun.
Qed.

Lemma quotePool_total pool : ∃ out, pushes' pool out.
Proof.
  destruct (quotePool_cases pool)
    as [[_ H] | [_ [(? & ? & _ & _ & H) | [(_ & _ & H) | (? & _ & _ & H)]]]];
    eauto.
Qed.

(** Two descriptions of what a pool pushes agree. *)
Lemma pushes_agree pool out out' : pushes' pool out → pushes' pool out' → out = out'.
Proof.
  intros H H'.
  pose proof (H {| pools := []; allocated := 0; logged := [] |}) as E.
  rewrite H' in E. unfold addLogs in E; simpl in E.
  destruct out, out'; simpl in *. by simplify_eq.
Qed.

(** The loop pushes, pool after pool, what each pool pushes on its own. *)
Lemma poolLoop_spec candidates :
  ∃ outs,
    Forall2 pushes' candidates outs ∧
    ∀ exchangePrices s,
      poolLoop env this token0 token1 isExactOut amountTokenAddress unitAmount
        amounts blockNumber candidates exchangePrices s =
      (Ok (exchangePrices ++ concat outs.*1), addLogs (concat outs.*2) s).
Proof.
  induction candidates as [|pool rest [outs [Houts Hrun]]].
  - exists []. split; [constructor|]. intros acc s. simpl.
    by rewrite app_nil_r, addLogs_nil.
  - destruct (quotePool_total pool) as [out Hout].
    exists (out :: outs). split; [by constructor|].
    intros acc s. simpl. unfold mbind, M_bind, bind.
    rewrite (Hout s), Hrun. by rewrite addLogs_app, <- app_assoc.
Qed.

Lemma pushes_cases pool out :
  pushes' pool out →
  (pairIs token0 token1 (key pool) = false ∧
   out = ([], [CantQuotePair token0 token1 (string_id env (key pool))]))
  ∨ (pairIs token0 token1 (key pool) = true ∧
     ((∃ unitQuote otherQuotes,
         Forall2 (quotedAs' pool) (unitAmount :: amounts)
                 (unitQuote :: otherQuotes) ∧
         (∀ s, quoteAmounts env pool isExactOut amountTokenAddress blockNumber
                 (unitAmount :: amounts) [] JSMap.empty s =
               (Ok (Completed (unitQuote :: otherQuotes)
                      (recordSkipAhead JSMap.empty (unitAmount :: amounts)
                                       (unitQuote :: otherQuotes))), s)) ∧
         out = ([pricePoint env this token1 amountTokenAddress unitAmount
                            amounts pool unitQuote otherQuotes], []))
      ∨ (isExactOut = true ∧
         (∃ amount q, amount ∈ unitAmount :: amounts ∧
            quote env pool (inputAmount isExactOut amount) amountTokenAddress
              blockNumber = Ok q ∧
            consumedAmount q ≠ inputAmount isExactOut amount) ∧
         out = ([], [NotEnoughLiquidity]))
      ∨ (∃ e,
         (∀ s, quoteAmounts env pool isExactOut amountTokenAddress blockNumber
                 (unitAmount :: amounts) [] JSMap.empty s = (Throw e, s)) ∧
         out = ([], [QuoteError e])))).
Proof.
  intros Hout.
  destruct (quotePool_cases pool)
    as [[Hpair H] | [Hpair [(uq & oqs & Hqs & Hloop & H) | [(Hex & Hshort & H) | (e & _ & Hrun & H)]]]];
    pose proof (pushes_agree _ _ _ Hout H) as ->.
  - by left.
  - right. split; [done|]. left. by exists uq, oqs.
  - right. split; [done|]. right; left. done.
  - right. split; [done|]. right; right. by exists e.
Qed.

(** Every amount of a completed loop has its quote. *)
Lemma quotedAs_elem pool todo qs amount :
  Forall2 (quotedAs' pool) todo qs → amount ∈ todo →
  ∃ q, quotedAs' pool amount q.
Proof.
  intros Hqs [i Hi]%list_elem_of_lookup_1.
  destruct (Forall2_lookup_l _ _ _ _ _ Hqs Hi) as (q & _ & Hq). by exists q.
Qed.

(** Quotes that all return (and, on the buy side, fill exactly) complete
    the loop, and a pool of the pair then pushes their price point. *)
Lemma quoteAmounts_quoted pool todo qs :
  Forall2 (quotedAs' pool) todo qs →
  ∀ quotes m s,
    quoteAmounts env pool isExactOut amountTokenAddress blockNumber todo
      quotes m s =
    (Ok (Completed (quotes ++ qs) (recordSkipAhead m todo qs)), s).
Proof.
  induction 1 as [|amount q todo qs [Hq Hexact] _ IH]; intros quotes m s.
  - simpl. by rewrite app_nil_r.
  - assert (Hshort : isExactOut &&
                     negb (consumedAmount q =? inputAmount isExactOut amount)%Z
                     = false).
    { destruct (decide (isExactOut = true)) as [E|E].
      - rewrite (Hexact E), Z.eqb_refl. apply andb_false_r.
      - apply not_true_is_false in E. by rewrite E. }
    simpl. run. rewrite ?Hq. simpl. rewrite Hshort.
    rewrite IH. by rewrite <- app_assoc.
Qed.

Lemma quotePool_quoted pool unitQuote otherQuotes :
  pairIs token0 token1 (key pool) = true →
  Forall2 (quotedAs' pool) (unitAmount :: amounts) (unitQuote :: otherQuotes) →
  pushes' pool
    ([pricePoint env this token1 amountTokenAddress unitAmount amounts pool
                 unitQuote otherQuotes], []).
Proof.
  intros Hpair Hqs s. unfold quotePool. rewrite Hpair. cbn [negb].
  unfold tryCatch, mbind, M_bind, bind.
  rewrite (quoteAmounts_quoted _ _ _ Hqs). simpl. by rewrite addLogs_nil.
Qed.

End Quoting.

Section Requests.

Variable env : Collaborators.
Variable this : Adapter.

Lemma pairIs_spec t0 t1 k :
  pairIs t0 t1 k = true ↔ (token0 k, token1 k) = (t0, t1).
Proof.
  unfold pairIs. rewrite andb_true_iff, !bool_decide_eq_true.
  split; [by intros [-> ->] | by intros [= -> ->]].
Qed.

(** The allow-list is looked up entry by entry; a missing entry costs a
    warning. *)
Lemma lookupPools_spec limitPools :
  ∀ s, ∃ candidates es,
    lookupPools limitPools s = (Ok candidates, addLogs es s) ∧
    Forall (fun pool => pool ∈ JSMap.values (pools s)) candidates.
Proof.
  induction limitPools as [|poolId rest IH]; intros s.
  - exists [], []. split; [by rewrite addLogs_nil | constructor].
  - simpl. run.
    destruct (JSMap.get poolId (pools s)) as [pool|] eqn:Hget.
    + destruct (IH s) as (cs & es & Hrun & Hcs).
      exists (pool :: cs), es. rewrite Hrun. split; [done|].
      constructor; [by eapply JSMapFacts.get_Some_values | done].
    + destruct (IH (addLogs [PoolNotFound poolId] s)) as (cs & es & Hrun & Hcs).
      exists cs, (PoolNotFound poolId :: es). rewrite Hrun.
      split; [by rewrite addLogs_app | done].
Qed.

Lemma getInitializedPools_spec tokenA tokenB limitPools s :
  ∃ candidates es,
    getInitializedPools env tokenA tokenB limitPools s =
      (Ok candidates, addLogs es s) ∧
    Forall (fun pool => pool ∈ JSMap.values (pools s)) candidates.
Proof.
  destruct limitPools as [limitPools|]; simpl.
  - apply lookupPools_spec.
  - destruct (sortAndConvertTokens env tokenA tokenB) as [t0 t1].
    eexists _, []. split; [unfold gets; by rewrite addLogs_nil|].
    apply Forall_forall. intros pool [Hin _]%list_elem_of_In%filter_In.
    by apply list_elem_of_In.
Qed.

(** The request as a whole: the candidates are selected, and each pushes
    what it pushes on its own. *)
Lemma getPricesVolume_spec srcToken destToken amounts side blockNumber limitPools s :
  ∃ candidates es0 outs,
    getInitializedPools env srcToken destToken limitPools s =
      (Ok candidates, addLogs es0 s) ∧
    Forall2
      (pushes env this
         (fst (sortAndConvertTokens env srcToken destToken))
         (snd (sortAndConvertTokens env srcToken destToken))
         (bool_decide (side = BUY))
         (convertParaSwapToEkubo env
            (address (if bool_decide (side = BUY) then destToken else srcToken)))
         (getBigIntPow
            (decimals (if bool_decide (side = BUY) then destToken else srcToken)))
         amounts blockNumber)
      candidates outs ∧
    getPricesVolume env this srcToken destToken amounts side blockNumber
      limitPools s =
      (Ok (concat outs.*1), addLogs (es0 ++ concat outs.*2) s).
Proof.
  destruct (getInitializedPools_spec srcToken destToken limitPools s)
    as (candidates & es0 & Hinit & _).
  destruct (poolLoop_spec env this
              (fst (sortAndConvertTokens env srcToken destToken))
              (snd (sortAndConvertTokens env srcToken destToken))
              (bool_decide (side = BUY))
              (convertParaSwapToEkubo env
                 (address (if bool_decide (side = BUY) then destToken else srcToken)))
              (getBigIntPow
                 (decimals (if bool_decide (side = BUY) then destToken else srcToken)))
              amounts blockNumber candidates) as (outs & Houts & Hloop).
  exists candidates, es0, outs. split_and!; [done..|].
  unfold getPricesVolume, mbind, M_bind, bind. rewrite Hinit.
  destruct (sortAndConvertTokens env srcToken destToken) as [t0 t1]; simpl in *.
  rewrite Hloop. by rewrite addLogs_app.
Qed.

(** C1. On the buy side every price point comes from a candidate pool that
    consumed exactly the negated amount for the unit and for every requested
    amount; a pool that consumed anything else for one of them pushes no
    price point; and what a pool pushes is what quoting that pool alone
    gives, whatever the other pools did. *)
Theorem buy_quotes_fill_exactly srcToken destToken amounts blockNumber limitPools s :
  ∃ candidates pushed,
    fst (getInitializedPools env srcToken destToken limitPools s) = Ok candidates ∧
    fst (getPricesVolume env this srcToken destToken amounts BUY blockNumber
           limitPools s) = Ok (concat pushed) ∧
    Forall2
      (fun pool pps =>
         (∀ s', fst (quotePool env this
                       (fst (sortAndConvertTokens env srcToken destToken))
                       (snd (sortAndConvertTokens env srcToken destToken))
                       true
                       (convertParaSwapToEkubo env (address destToken))
                       (getBigIntPow (decimals destToken))
                       amounts blockNumber pool s') = Ok pps) ∧
         (∀ pp, pp ∈ pps →
            poolKey (data pp) = key pool ∧
            ∀ amount, amount ∈ getBigIntPow (decimals destToken) :: amounts →
              ∃ q, quote env pool (- amount)
                     (convertParaSwapToEkubo env (address destToken))
                     blockNumber = Ok q ∧
                   consumedAmount q = (- amount)%Z) ∧
         ((∃ amount q,
             amount ∈ getBigIntPow (decimals destToken) :: amounts ∧
             quote env pool (- amount)
               (convertParaSwapToEkubo env (address destToken)) blockNumber
               = Ok q ∧
             consumedAmount q ≠ (- amount)%Z) →
          pps = []))
      candidates pushed.
Proof.
  destruct (getPricesVolume_spec srcToken destToken amounts BUY blockNumber
              limitPools s) as (candidates & es0 & outs & Hinit & Houts & Hrun).
  exists candidates, (outs.*1). rewrite Hinit, Hrun. split_and!; [done..|].
  apply Forall2_fmap_r. eapply Forall2_impl; [exact Houts|].
  intros pool out Hout. simpl in Hout. split_and!.
  - intros s'. by rewrite (Hout s').
  - intros pp Hpp.
    destruct (pushes_cases _ _ _ _ _ _ _ _ _ _ _ Hout)
      as [[_ ->] | [_ [(uq & oqs & Hqs & Hloop & ->) | [(_ & _ & ->) | (e & _ & ->)]]]];
      simpl in Hpp; try by apply elem_of_nil in Hpp.
    apply list_elem_of_singleton in Hpp as ->. split; [done|].
    intros amount Hamount.
    destruct (quotedAs_elem _ _ _ _ _ _ _ _ Hqs Hamount) as (q & Hq & Hexact).
    exists q. split; [exact Hq | by apply Hexact].
  - intros (amount & q & Hamount & Hq & Hne).
    destruct (pushes_cases _ _ _ _ _ _ _ _ _ _ _ Hout)
      as [[_ ->] | [_ [(uq & oqs & Hqs & Hloop & ->) | [(_ & _ & ->) | (e & _ & ->)]]]];
      try done.
    destruct (quotedAs_elem _ _ _ _ _ _ _ _ Hqs Hamount) as (q' & Hq' & Hexact).
    simpl in Hq'. rewrite Hq in Hq'. injection Hq' as <-.
    by destruct Hne; apply Hexact.
Qed.

(** C2. Every price point comes from a candidate pool whose key carries the
    sorted pair of the request; a candidate for another pair pushes nothing
    and costs one logged error, and the request still returns. *)
Theorem price_points_are_for_the_pair srcToken destToken amounts side blockNumber
    limitPools s :
  ∃ candidates outs es0,
    fst (getInitializedPools env srcToken destToken limitPools s) = Ok candidates ∧
    getPricesVolume env this srcToken destToken amounts side blockNumber
      limitPools s =
      (Ok (concat outs.*1), addLogs (es0 ++ concat outs.*2) s) ∧
    Forall2
      (fun pool out =>
         (∀ pp, pp ∈ fst out →
            poolKey (data pp) = key pool ∧
            (token0 (key pool), token1 (key pool)) =
              sortAndConvertTokens env srcToken destToken) ∧
         ((token0 (key pool), token1 (key pool)) ≠
            sortAndConvertTokens env srcToken destToken →
          out = ([], [CantQuotePair
                        (fst (sortAndConvertTokens env srcToken destToken))
                        (snd (sortAndConvertTokens env srcToken destToken))
                        (string_id env (key pool))])))
      candidates outs.
Proof.
  destruct (getPricesVolume_spec srcToken destToken amounts side blockNumber
              limitPools s) as (candidates & es0 & outs & Hinit & Houts & Hrun).
  exists candidates, outs, es0. rewrite Hinit. split_and!; [done..|].
  eapply Forall2_impl; [exact Houts|].
  intros pool out Hout.
  destruct (sortAndConvertTokens env srcToken destToken) as [t0 t1]; simpl in *.
  destruct (pushes_cases _ _ _ _ _ _ _ _ _ _ _ Hout)
    as [[Hpair ->] | [Hpair [(uq & oqs & Hqs & Hloop & ->) | [(_ & _ & ->) | (e & _ & ->)]]]];
    simpl.
  - split; [by intros pp ?%elem_of_nil | done].
  - apply pairIs_spec in Hpair. split; [|done].
    by intros pp ->%list_elem_of_singleton.
  - apply pairIs_spec in Hpair. split; [by intros pp ?%elem_of_nil | done].
  - apply pairIs_spec in Hpair. split; [by intros pp ?%elem_of_nil | done].
Qed.

(** C6. The request never throws. An exception thrown while a candidate is
    quoted is caught and logged, that candidate pushes nothing, and the
    others push what they push on their own; when no candidate pushes a
    price point the result is the empty list. *)
Theorem quote_failures_are_contained srcToken destToken amounts side blockNumber
    limitPools s :
  ∃ candidates outs es0,
    fst (getInitializedPools env srcToken destToken limitPools s) = Ok candidates ∧
    getPricesVolume env this srcToken destToken amounts side blockNumber
      limitPools s =
      (Ok (concat outs.*1), addLogs (es0 ++ concat outs.*2) s) ∧
    Forall2
      (fun pool out =>
         (∀ s', quotePool env this
                  (fst (sortAndConvertTokens env srcToken destToken))
                  (snd (sortAndConvertTokens env srcToken destToken))
                  (bool_decide (side = BUY))
                  (convertParaSwapToEkubo env
                     (address (if bool_decide (side = BUY) then destToken else srcToken)))
                  (getBigIntPow
                     (decimals (if bool_decide (side = BUY) then destToken else srcToken)))
                  amounts blockNumber pool s' =
                (Ok (fst out), addLogs (snd out) s')) ∧
         (∀ e s',
            (token0 (key pool), token1 (key pool)) =
              sortAndConvertTokens env srcToken destToken →
            fst (quoteAmounts env pool (bool_decide (side = BUY))
                   (convertParaSwapToEkubo env
                      (address (if bool_decide (side = BUY) then destToken else srcToken)))
                   blockNumber
                   (getBigIntPow
                      (decimals (if bool_decide (side = BUY) then destToken else srcToken))
                    :: amounts)
                   [] JSMap.empty s') = Throw e →
            out = ([], [QuoteError e])))
      candidates outs ∧
    (Forall (fun out => fst out = []) outs →
     fst (getPricesVolume env this srcToken destToken amounts side blockNumber
            limitPools s) = Ok []).
Proof.
  destruct (getPricesVolume_spec srcToken destToken amounts side blockNumber
              limitPools s) as (candidates & es0 & outs & Hinit & Houts & Hrun).
  exists candidates, outs, es0. rewrite Hinit, Hrun. split_and!; [done..| |].
  - eapply Forall2_impl; [exact Houts|].
    intros pool out Hout. split; [exact Hout|].
    intros e s' Hpair Hthrow.
    destruct (sortAndConvertTokens env srcToken destToken) as [t0 t1];
      cbn [fst snd] in *.
    apply pairIs_spec in Hpair.
    destruct (quotePool_cases env this t0 t1 (bool_decide (side = BUY))
                (convertParaSwapToEkubo env
                   (address (if bool_decide (side = BUY) then destToken else srcToken)))
                (getBigIntPow
                   (decimals (if bool_decide (side = BUY) then destToken else srcToken)))
                amounts blockNumber pool)
      as [[Hno _] | [_ [(uq & oqs & Hqs & _ & H) | [(_ & _ & H) | (e' & _ & Hrun' & H)]]]].
    + congruence.
    + exfalso. specialize (H s'). unfold quotePool in H.
      rewrite Hpair in H. cbn [negb] in H.
      unfold tryCatch, mbind, M_bind, bind in H.
      destruct (quoteAmounts _ _ _ _ _ _ _ _ s') as [[[qs m|]|e0] s1];
        simpl in Hthrow; discriminate.
    + exfalso. specialize (H s'). unfold quotePool in H.
      rewrite Hpair in H. cbn [negb] in H.
      unfold tryCatch, mbind, M_bind, bind in H.
      destruct (quoteAmounts _ _ _ _ _ _ _ _ s') as [[[qs m|]|e0] s1];
        simpl in Hthrow; try discriminate.
      injection Hthrow as ->.
      apply (f_equal (fun r => last (logged (snd r)))) in H. simpl in H.
      rewrite !last_snoc in H. discriminate.
    + rewrite Hrun' in Hthrow. simpl in Hthrow. injection Hthrow as ->.
      by apply (pushes_agree env this _ _ _ _ _ _ _ _ _ _ Hout H).
  - intros Hnone. simpl. f_equal.
    clear -Hnone. induction Hnone as [|out outs Hout _ IH]; [done|].
    rewrite fmap_cons. cbn [concat]. rewrite Hout. exact IH.
Qed.

(** C7. Every candidate pool is quoted for the unit first, one whole token
    of the amount token (the destination token of a buy, the source token
    of a sell), and then for the requested amounts in the order given. A
    pool of the pair whose quotes all return (and, on the buy side, fill
    exactly) gives exactly one price point, made of these quotes; and in
    every price point returned, [prices] and [gasCost] have one entry per
    requested amount, the [i]-th entry being the quote of the [i]-th
    amount, and [unit] is the quote of the unit. *)
Theorem prices_follow_amounts srcToken destToken amounts side blockNumber
    limitPools s :
  let isExactOut := bool_decide (side = BUY) in
  let amountToken := if isExactOut then destToken else srcToken in
  let amountTokenAddress := convertParaSwapToEkubo env (address amountToken) in
  let unitAmount := (10 ^ decimals amountToken)%Z in
  ∃ candidates pushed,
    fst (getInitializedPools env srcToken destToken limitPools s) = Ok candidates ∧
    fst (getPricesVolume env this srcToken destToken amounts side blockNumber
           limitPools s) = Ok (concat pushed) ∧
    Forall2
      (fun pool pps =>
         length pps ≤ 1 ∧
         (∀ unitQuote otherQuotes,
            (token0 (key pool), token1 (key pool)) =
              sortAndConvertTokens env srcToken destToken →
            Forall2
              (fun amount q =>
                 quote env pool (inputAmount isExactOut amount)
                   amountTokenAddress blockNumber = Ok q ∧
                 (side = BUY → consumedAmount q = (- amount)%Z))
              (unitAmount :: amounts) (unitQuote :: otherQuotes) →
            ∃ skipAheadMap,
              pps = [ {| prices := map calculatedAmount otherQuotes;
                         unit_ := calculatedAmount unitQuote;
                         data :=
                           {| poolKey := key pool;
                              isToken1 :=
                                bool_decide
                                  (amountTokenAddress =
                                   snd (sortAndConvertTokens env srcToken destToken));
                              data_skipAhead := skipAheadMap |};
                         poolIdentifier := string_id env (key pool);
                         exchange := dexKey this;
                         gasCost := map gasConsumed otherQuotes |} ]) ∧
         (∀ pp, pp ∈ pps →
           ∃ unitQuote otherQuotes,
             (∀ s', quoteAmounts env pool isExactOut amountTokenAddress
                      blockNumber (unitAmount :: amounts) [] JSMap.empty s' =
                    (Ok (Completed (unitQuote :: otherQuotes)
                           (data_skipAhead (data pp))), s')) ∧
             quote env pool (inputAmount isExactOut unitAmount)
               amountTokenAddress blockNumber = Ok unitQuote ∧
             unit_ pp = calculatedAmount unitQuote ∧
             prices pp = map calculatedAmount otherQuotes ∧
             gasCost pp = map gasConsumed otherQuotes ∧
             length (prices pp) = length amounts ∧
             length (gasCost pp) = length amounts ∧
             ∀ i amount, amounts !! i = Some amount →
               ∃ q, quote env pool (inputAmount isExactOut amount)
                      amountTokenAddress blockNumber = Ok q ∧
                    otherQuotes !! i = Some q ∧
                    prices pp !! i = Some (calculatedAmount q) ∧
                    gasCost pp !! i = Some (gasConsumed q)))
      candidates pushed.
Proof.
  intros isExactOut amountToken amountTokenAddress unitAmount.
  destruct (getPricesVolume_spec srcToken destToken amounts side blockNumber
              limitPools s) as (candidates & es0 & outs & Hinit & Houts & Hrun).
  exists candidates, (outs.*1). rewrite Hinit, Hrun. split_and!; [done..|].
  apply Forall2_fmap_r. eapply Forall2_impl; [exact Houts|].
  intros pool out Hout. split_and!.
  - destruct (pushes_cases _ _ _ _ _ _ _ _ _ _ _ Hout)
      as [[_ ->] | [_ [(uq & oqs & _ & _ & ->) | [(_ & _ & ->) | (e & _ & ->)]]]];
      simpl; lia.
  - intros unitQuote otherQuotes Hpair Hqs.
    rewrite (surjective_pairing (sortAndConvertTokens env srcToken destToken))
      in Hpair.
    apply pairIs_spec in Hpair.
    assert (Hquoted : Forall2
              (quotedAs env pool isExactOut amountTokenAddress blockNumber)
              (unitAmount :: amounts) (unitQuote :: otherQuotes)).
    { eapply Forall2_impl; [exact Hqs|]. intros amount q [Hq Hexact].
      split; [done|]. intros Hbuy. rewrite Hbuy. simpl.
      apply Hexact. unfold isExactOut in Hbuy.
      by apply bool_decide_eq_true in Hbuy. }
    pose proof (quotePool_quoted env this _ _ _ _ _ _ _ _ _ _ Hpair Hquoted)
      as Hpush.
    rewrite (pushes_agree env this _ _ _ _ _ _ _ _ _ _ Hout Hpush).
    eexists. reflexivity.
  - intros pp Hpp.
    destruct (pushes_cases _ _ _ _ _ _ _ _ _ _ _ Hout)
      as [[_ ->] | [_ [(uq & oqs & Hqs & Hloop & ->) | [(_ & _ & ->) | (e & _ & ->)]]]];
      simpl in Hpp; try by apply elem_of_nil in Hpp.
    apply list_elem_of_singleton in Hpp as ->.
    apply Forall2_cons in Hqs as [[Hunit _] Hothers].
    pose proof (Forall2_length _ _ _ Hothers) as Hlen.
    exists uq, oqs. simpl. rewrite !length_map.
    split_and!; try done.
    intros i amount Hi.
    destruct (Forall2_lookup_l _ _ _ _ _ Hothers Hi) as (q & Hq & Hquote & _).
    exists q. rewrite !list_lookup_fmap, Hq. done.
Qed.

End Requests.

(** *** On a concrete registry *)

(** A buy of 100 and of 2000000 units of USDC: the shallow pool fills the
    unit and the first amount but not the second, and returns nothing. *)
Example buy_skips_the_shallow_pool :
  let '(result, after) :=
    getPricesVolume Examples.ekuboEnv Examples.ekubo Examples.ETH Examples.USDC
      [100; 2000000]%Z BUY 1 None Examples.threePools in
  mapResult (map (fun pp => (poolIdentifier pp, unit_ pp, prices pp))) result
    = Ok [("0_41144_0_100_200"%string, 1000000%Z, [100; 2000000]%Z)] ∧
  logged after = [NotEnoughLiquidity].
Proof. vm_compute. done. Qed.

(** A sell with an allow-list: the unknown identifier costs a warning, the
    pool of another pair an error, and the request returns the other pool. *)
Example sell_with_allow_list :
  let '(result, after) :=
    getPricesVolume Examples.ekuboEnv Examples.ekubo Examples.ETH Examples.USDC
      [100; 2000000]%Z SELL 1
      (Some ["0_27415_0_300_1000"; "nowhere"; "0_41144_0_100_200"]%string)
      Examples.threePools in
  mapResult (map (fun pp => (poolIdentifier pp, prices pp, gasCost pp))) result
    = Ok [("0_41144_0_100_200"%string, [100; 2000000]%Z, [20000; 20000]%Z)] ∧
  logged after = [PoolNotFound "nowhere";
                  CantQuotePair 0 41144 "0_27415_0_300_1000"].
Proof. vm_compute. done. Qed.

(** A pool whose quote throws is logged and skipped. *)
Example throwing_pool_is_skipped :
  getPricesVolume Examples.ekuboEnv Examples.ekubo Examples.ETH Examples.DAI
    [100]%Z SELL 1 None Examples.threePools
  = (Ok [], addLogs [QuoteError (External "no state")] Examples.threePools).
Proof. vm_compute. done. Qed.

End EkuboSpec.

(** ** Discovery and the registry *)

Module DiscoverySpec.
Import Ekubo.
Import EkuboSpec.

(** *** Batches *)

Lemma slice_batch {A} (start : nat) (l : list A) :
  slice start (start + MAX_POOL_BATCH_COUNT) l =
  take MAX_POOL_BATCH_COUNT (drop start l).
Proof.
  unfold slice.
  by rewrite (Nat.add_comm start), Nat.add_sub.
Qed.


Lemma batchLoop_lookup poolKeys fuel :
  ∀ start j b, batchLoop fuel poolKeys start !! j = Some b →
    fst b = start + j * MAX_POOL_BATCH_COUNT ∧
    snd b = take MAX_POOL_BATCH_COUNT (drop (fst b) poolKeys) ∧
    fst b < length poolKeys.
Proof.
  induction fuel as [|fuel IH]; intros start j b; simpl; [done|].
  case_bool_decide as Hlt; [|done].
  destruct j as [|j]; simpl.
  - intros [= <-]. simpl. split_and!; [lia | apply slice_batch | done].
  - intros Hj. destruct (IH _ _ _ Hj) as (Hstart & Hbatch & Hin).
    split_and!; [unfold MAX_POOL_BATCH_COUNT in *; lia | done..].
Qed.


(** *** What a pass does to the registry *)

Section Passes.

Variable env : Collaborators.
Variable this : Adapter.

Lemma preparePool_Ok poolKeys start i data p :
  preparePool env this poolKeys start i data = Ok p →
  ∃ poolKey,
    poolKeys !! (start + i) = Some poolKey ∧
    new_poolId p = string_id env poolKey ∧
    new_key p = poolKey ∧
    (extension (config poolKey) = 0%Z ∨
     extension (config poolKey) = oracle this).
Proof.
  unfold preparePool. destruct (fromQuoter env data) as [st|]; simpl; [|done].
  destruct (poolKeys !! (start + i)) as [poolKey|]; simpl; [|done].
  destruct (Z.eqb_spec (extension (config poolKey)) 0) as [H0|_]; simpl.
  { intros [= <-]. exists poolKey. auto. }
  destruct (Z.eqb_spec (extension (config poolKey)) (oracle this)) as [Ho|_];
    simpl; [|done].
  intros [= <-]. exists poolKey. auto.
Qed.

(** The callback either throws before it touches the registry, or stores a
    fresh object under the identifier of its key. *)
Lemma initializePool_run poolKeys start blockNumber i data s :
  initializePool env this poolKeys start blockNumber i data s =
  match preparePool env this poolKeys start i data with
  | Ok p =>
      (Ok (new_poolId p),
       {| pools := JSMap.set (new_poolId p)
                     {| ref := allocated s; class := new_class p;
                        key := new_key p; initializedAt := blockNumber;
                        initialState := new_state p |} (pools s);
          allocated := S (allocated s);
          logged := logged s |})
  | Throw e => (Throw e, s)
  end.
Proof.
  unfold initializePool, constructPool. run.
  by destruct (preparePool env this poolKeys start i data).
Qed.

Lemma runAll_preserves {A} (P : State → Prop) (callbacks : list (M State A)) :
  Forall (fun callback => ∀ s, P s → P (snd (callback s))) callbacks →
  ∀ s, P s → P (snd (runAll callbacks s)).
Proof.
  induction 1 as [|callback rest Hcb _ IH]; intros s Hs; simpl; [done|].
  specialize (Hcb s Hs). destruct (callback s) as [r s1]. simpl in Hcb.
  specialize (IH s1 Hcb). by destruct (runAll rest s1).
Qed.

(** A property of the state that every callback preserves is preserved by
    the function of a batch ... *)
Lemma fetchBatch_preserves (P : State → Prop) poolKeys blockNumber start run :
  (∀ i data s, P s →
     P (snd (initializePool env this poolKeys start blockNumber i data s))) →
  ∀ s, P s → P (snd (fetchBatch env this poolKeys blockNumber start run s)).
Proof.
  intros Hcb s Hs. unfold fetchBatch, mbind, M_bind, bind, lift.
  destruct (answer run) as [fetchedData|]; [|done].
  unfold awaitAll.
  pose proof (runAll_preserves P
                (imap (initializePool env this poolKeys start blockNumber) fetchedData))
    as Hall.
  destruct (runAll _ s) as [outcomes s1] eqn:Hrun. simpl.
  replace s1 with (snd (runAll
    (imap (initializePool env this poolKeys start blockNumber) fetchedData) s))
    by (by rewrite Hrun).
  apply Hall; [|done].
  apply Forall_forall. intros cb (i & data & -> & _)%elem_of_lookup_imap_1.
  apply Hcb.
Qed.

(** ... and by the pass, in whatever order the answers arrive. *)
Lemma initializePools_preserves (P : State → Prop) poolKeys blockNumber maxTime world :
  (∀ start i data s, P s →
     P (snd (initializePool env this poolKeys start blockNumber i data s))) →
  ∀ s, P s →
    P (snd (initializePools env this poolKeys blockNumber maxTime world s)).
Proof.
  intros Hcb s Hs. unfold initializePools. simpl.
  generalize (merge_sort answeredBefore (calls poolKeys world)).
  intros answered. revert s Hs.
  induction answered as [|c rest IH]; intros s Hs; simpl; [done|].
  apply IH. apply fetchBatch_preserves; [apply Hcb | done].
Qed.

(** [pools.set] only ever adds identifiers. *)
Lemma initializePool_tracked poolKeys start blockNumber i data poolId s :
  tracked poolId s →
  tracked poolId (snd (initializePool env this poolKeys start blockNumber i data s)).
Proof.
  rewrite initializePool_run. unfold tracked.
  destruct (preparePool env this poolKeys start i data); simpl; [|done].
  apply JSMapFacts.has_set.
Qed.

Lemma initializePool_tracks poolKeys start blockNumber i data poolId s :
  fst (initializePool env this poolKeys start blockNumber i data s) = Ok poolId →
  tracked poolId (snd (initializePool env this poolKeys start blockNumber i data s)).
Proof.
  rewrite initializePool_run. unfold tracked.
  destruct (preparePool env this poolKeys start i data); simpl; [|done].
  intros [= <-]. apply JSMapFacts.has_set_eq.
Qed.

(** The registry never holds two entries for one identifier. *)
Lemma initializePool_NoDup poolKeys start blockNumber i data s :
  NoDup (map fst (pools s)) →
  NoDup (map fst (pools (snd (initializePool env this poolKeys start blockNumber
                                i data s)))).
Proof.
  rewrite initializePool_run.
  destruct (preparePool env this poolKeys start i data); simpl; [|done].
  apply JSMapFacts.set_NoDup.
Qed.

(** An object stays where it is as long as no key of the pass has its
    identifier. *)
Lemma initializePool_stores poolKeys start blockNumber i data poolId pool s :
  Forall (fun poolKey => string_id env poolKey ≠ poolId) poolKeys →
  stores poolId pool s →
  stores poolId pool
    (snd (initializePool env this poolKeys start blockNumber i data s)).
Proof.
  intros Hkeys. rewrite initializePool_run. unfold stores.
  destruct (preparePool env this poolKeys start i data) as [p|] eqn:Hp;
    simpl; [|done].
  apply preparePool_Ok in Hp as (poolKey & Hkey & Hid & _).
  intros Hget. rewrite JSMapFacts.get_set_ne; [done|].
  rewrite Hid. eapply (proj1 (Forall_forall _ _) Hkeys).
  by eapply list_elem_of_lookup_2.
Qed.

(** What a callback returns or throws does not depend on the state. *)
Lemma initializePool_value poolKeys start blockNumber i data s s' :
  fst (initializePool env this poolKeys start blockNumber i data s) =
  fst (initializePool env this poolKeys start blockNumber i data s').
Proof.
  rewrite !initializePool_run.
  by destruct (preparePool env this poolKeys start i data).
Qed.

Lemma runAll_value {A} (callbacks : list (M State A)) :
  Forall (fun callback => ∀ s s', fst (callback s) = fst (callback s')) callbacks →
  ∀ s s', fst (runAll callbacks s) = fst (runAll callbacks s').
Proof.
  induction 1 as [|callback rest Hcb _ IH]; intros s s'; simpl; [done|].
  specialize (Hcb s s').
  destruct (callback s) as [r s1], (callback s') as [r' s1']. simpl in Hcb.
  specialize (IH s1 s1').
  destruct (runAll rest s1), (runAll rest s1'). simpl in *. congruence.
Qed.

Lemma fetchBatch_value poolKeys blockNumber start run s s' :
  fst (fetchBatch env this poolKeys blockNumber start run s) =
  fst (fetchBatch env this poolKeys blockNumber start run s').
Proof.
  unfold fetchBatch, mbind, M_bind, bind, lift.
  destruct (answer run) as [fetchedData|]; [|done].
  unfold awaitAll.
  pose proof (runAll_value
                (imap (initializePool env this poolKeys start blockNumber) fetchedData))
    as Hall.
  specialize (Hall ltac:(apply Forall_forall;
    intros cb (i & data & -> & _)%elem_of_lookup_imap_1;
    apply initializePool_value) s s').
  destruct (runAll _ s), (runAll _ s'). simpl in *. by rewrite Hall.
Qed.

Lemma runAll_tracks (callbacks : list (M State string)) :
  Forall (fun callback => ∀ s,
            (∀ poolId, fst (callback s) = Ok poolId →
                       tracked poolId (snd (callback s))) ∧
            (∀ poolId, tracked poolId s → tracked poolId (snd (callback s))))
         callbacks →
  ∀ s poolIds,
    promiseAll (fst (runAll callbacks s)) = Ok poolIds →
    ∀ poolId, poolId ∈ poolIds → tracked poolId (snd (runAll callbacks s)).
Proof.
  induction 1 as [|callback rest Hcb Hrest IH]; intros s poolIds; simpl.
  { intros [= <-] poolId ?%elem_of_nil. done. }
  destruct (Hcb s) as [Hnew Hold].
  pose proof (runAll_preserves (A := string)) as Hkeep.
  destruct (callback s) as [[a|e] s1]; simpl in *;
    specialize (IH s1); destruct (runAll rest s1) as [rs s2] eqn:Hrun;
    simpl in *; [|done].
  destruct (promiseAll rs) as [others|] eqn:Hall; simpl; [|done].
  intros [= <-] poolId [->|Hin]%elem_of_cons.
  - replace s2 with (snd (runAll rest s1)) by (by rewrite Hrun).
    apply (Hkeep (tracked a)); [|by apply Hnew].
    eapply Forall_impl; [exact Hrest|]. intros cb H s0. apply H.
  - by apply (IH others).
Qed.

(** The identifiers a batch function returns are in the registry when it
    returns. *)
Lemma fetchBatch_tracks poolKeys blockNumber start run s poolIds :
  fst (fetchBatch env this poolKeys blockNumber start run s) = Ok poolIds →
  ∀ poolId, poolId ∈ poolIds →
    tracked poolId (snd (fetchBatch env this poolKeys blockNumber start run s)).
Proof.
  unfold fetchBatch, mbind, M_bind, bind, lift.
  destruct (answer run) as [fetchedData|]; [|done].
  unfold awaitAll.
  pose proof (runAll_tracks
                (imap (initializePool env this poolKeys start blockNumber) fetchedData))
    as Hall.
  specialize (Hall ltac:(apply Forall_forall;
    intros cb (i & data & -> & _)%elem_of_lookup_imap_1; intros s0; split;
    intros poolId; [apply initializePool_tracks | apply initializePool_tracked])
    s poolIds).
  destruct (runAll _ s) as [outcomes s1]. simpl in *. exact Hall.
Qed.

Lemma foldl_preserves {C} (P : State → Prop) (step : State → C → State) l :
  (∀ c s, P s → P (step s c)) → ∀ s, P s → P (foldl step s l).
Proof.
  intros Hstep. induction l as [|c l IH]; intros s Hs; simpl; [done|].
  apply IH, Hstep, Hs.
Qed.

Lemma calls_lookup poolKeys world j :
  calls poolKeys world !! j =
  (fun b => {| call_start := fst b; call_batch := snd b; call_run := world j |})
    <$> batches poolKeys !! j.
Proof. unfold calls. by rewrite list_lookup_imap. Qed.

Lemma initializePools_settled poolKeys blockNumber maxTime world s :
  fst (initializePools env this poolKeys blockNumber maxTime world s) =
  Ok (map (fun c =>
             raceBatch maxTime (call_batch c) (call_run c)
               (fst (fetchBatch env this poolKeys blockNumber (call_start c)
                       (call_run c) s)))
          (calls poolKeys world)).
Proof. done. Qed.

(** The identifiers that the function of a batch returns are in the
    registry when the pass is over, whatever happened to the other calls. *)
Lemma initializePools_tracks poolKeys blockNumber maxTime world s j b poolIds s' :
  batches poolKeys !! j = Some b →
  fst (fetchBatch env this poolKeys blockNumber (fst b) (world j) s') = Ok poolIds →
  ∀ poolId, poolId ∈ poolIds →
    tracked poolId
      (snd (initializePools env this poolKeys blockNumber maxTime world s)).
Proof.
  intros Hj Hids poolId Hin. unfold initializePools. simpl.
  assert (Hcall : {| call_start := fst b; call_batch := snd b;
                     call_run := world j |} ∈
                  merge_sort answeredBefore (calls poolKeys world)).
  { rewrite merge_sort_Permutation. apply list_elem_of_lookup. exists j.
    by rewrite calls_lookup, Hj. }
  apply list_elem_of_split in Hcall as (before & after & ->).
  rewrite foldl_app. simpl.
  apply (foldl_preserves (tracked poolId)).
  { intros c s0. apply fetchBatch_preserves. intros i data s1.
    apply initializePool_tracked. }
  eapply fetchBatch_tracks; [|exact Hin].
  rewrite <- Hids. apply fetchBatch_value.
Qed.


(** *** The passes *)

Lemma reportRejected_run results :
  ∀ s, ∃ es, reportRejected results s = (Ok tt, addLogs es s).
Proof.
  induction results as [|[value|reason] rest IH]; intros s; simpl.
  - exists []. by rewrite addLogs_nil.
  - apply IH.
  - run. destruct (IH (addLogs [FetchingBatchFailed (batch reason) (err reason)] s))
      as [es Hrun].
    eexists. rewrite Hrun. by rewrite addLogs_app.
Qed.

Lemma collectFulfilled_run results :
  ∀ s, ∃ poolIds es, collectFulfilled results s = (Ok poolIds, addLogs es s).
Proof.
  induction results as [|[value|reason] rest IH]; intros s; simpl.
  - exists [], []. by rewrite addLogs_nil.
  - run. destruct (IH s) as (poolIds & es & Hrun). rewrite Hrun. eauto.
  - run. destruct (IH (addLogs [FetchingBatchFailed (batch reason) (err reason)] s))
      as (poolIds & es & Hrun).
    eexists _, _. rewrite Hrun. by rewrite addLogs_app.
Qed.

Lemma pairPoolKeys_run token0 token1 response s :
  ∃ poolKeys es,
    pairPoolKeys env this token0 token1 response s = (Ok poolKeys, addLogs es s).
Proof.
  unfold pairPoolKeys.
  destruct (fetchAllPoolKeys env this response).
  - eexists _, []. by rewrite addLogs_nil.
  - run. eauto.
Qed.

Lemma initializePools_run poolKeys blockNumber maxTime world s :
  ∃ settled,
    initializePools env this poolKeys blockNumber maxTime world s =
    (Ok settled, snd (initializePools env this poolKeys blockNumber maxTime world s)).
Proof. eexists. reflexivity. Qed.

(** The keys a pass hands to [initializePools] have identifiers that the
    registry does not hold. *)
Lemma uninitialized_fresh poolKeys poolId pool s :
  stores poolId pool s →
  Forall (fun poolKey => string_id env poolKey ≠ poolId)
         (List.filter (uninitialized env (pools s)) poolKeys).
Proof.
  unfold stores. intros Hget. apply Forall_forall.
  intros poolKey [_ Hun]%list_elem_of_In%filter_In Heq.
  unfold uninitialized, JSMap.has in Hun. by rewrite Heq, Hget in Hun.
Qed.

(** What a pass preserves when its callbacks preserve it and logging does
    not touch it. *)
Lemma updatePoolMap_preserves (P : State → Prop) blockNumber response world s :
  (∀ es s0, P s0 → P (addLogs es s0)) →
  (∀ poolKeys,
     fetchAllPoolKeys env this response = Ok poolKeys →
     ∀ start i data s0, P s0 →
       P (snd (initializePool env this
                 (List.filter (uninitialized env (pools s)) poolKeys)
                 start blockNumber i data s0))) →
  P s → P (snd (updatePoolMap env this blockNumber response world s)).
Proof.
  intros Hlog Hcb Hs. unfold updatePoolMap.
  destruct (fetchAllPoolKeys env this response) as [poolKeys|e].
  2:{ apply (Hlog [_]), Hs. }
  unfold mbind, M_bind, bind, gets. cbv beta iota.
  pose proof (initializePools_preserves P
    (List.filter (uninitialized env (pools s)) poolKeys) blockNumber None world
    (Hcb poolKeys eq_refl) s Hs) as Hpass.
  destruct (initializePools_run
    (List.filter (uninitialized env (pools s)) poolKeys) blockNumber None world s)
    as [settled Hrun].
  rewrite Hrun.
  destruct (reportRejected_run settled
    (snd (initializePools env this
            (List.filter (uninitialized env (pools s)) poolKeys)
            blockNumber None world s))) as [es Hrep].
  rewrite Hrep. simpl. by apply Hlog.
Qed.

Lemma fetchPoolsByPair_preserves (P : State → Prop) tokenA tokenB blockNumber
    maxTime response world s :
  (∀ es s0, P s0 → P (addLogs es s0)) →
  (∀ poolKeys,
     ∀ start i data s0, P s0 →
       P (snd (initializePool env this
                 (List.filter (uninitialized env (pools s)) poolKeys)
                 start blockNumber i data s0))) →
  P s →
  P (snd (fetchPoolsByPair env this tokenA tokenB blockNumber maxTime response
            world s)).
Proof.
  intros Hlog Hcb Hs. unfold fetchPoolsByPair.
  destruct (sortAndConvertTokens env tokenA tokenB) as [t0 t1].
  destruct (pairPoolKeys_run t0 t1 response s) as (poolKeys & es & Hkeys).
  unfold mbind, M_bind, bind. rewrite Hkeys. unfold gets. cbv beta iota.
  rewrite pools_addLogs.
  pose proof (initializePools_preserves P
    (List.filter (uninitialized env (pools s)) poolKeys) blockNumber
    (Some ((maxTime - 50) / 2)%Q) world (Hcb poolKeys) (addLogs es s)
    (Hlog es s Hs)) as Hpass.
  destruct (initializePools_run
    (List.filter (uninitialized env (pools s)) poolKeys) blockNumber
    (Some ((maxTime - 50) / 2)%Q) world (addLogs es s)) as [settled Hrun].
  rewrite Hrun.
  destruct (collectFulfilled_run settled
    (snd (initializePools env this
            (List.filter (uninitialized env (pools s)) poolKeys)
            blockNumber (Some ((maxTime - 50) / 2)%Q) world (addLogs es s))))
    as (poolIds & es' & Hcol).
  rewrite Hcol. simpl. by apply Hlog.
Qed.

(** C3, as the code has it. A pass hands to [initializePools] only the keys
    whose identifier the registry does not hold, so every pool object
    stored when the pass starts is still stored under its identifier when
    its calls have been answered, and the registry holds one entry per
    identifier. The insertion itself is unconditional: the callback stores
    the object it has constructed under its identifier, present or not. *)
Theorem passes_keep_tracked_pools tokenA tokenB blockNumber maxTime response
    world s poolId pool :
  stores poolId pool s →
  NoDup (map fst (pools s)) →
  (stores poolId pool (snd (updatePoolMap env this blockNumber response world s)) ∧
   NoDup (map fst (pools (snd (updatePoolMap env this blockNumber response
                                 world s))))) ∧
  (stores poolId pool
     (snd (fetchPoolsByPair env this tokenA tokenB blockNumber maxTime response
             world s)) ∧
   NoDup (map fst (pools (snd (fetchPoolsByPair env this tokenA tokenB
                                 blockNumber maxTime response world s))))) ∧
  (∀ p s',
     stores (new_poolId p)
       {| ref := allocated s'; class := new_class p; key := new_key p;
          initializedAt := blockNumber; initialState := new_state p |}
       (snd (constructPool blockNumber p s'))).
Proof.
  intros Hstored Hnodup. split_and!.
  - apply (updatePoolMap_preserves (stores poolId pool)); [done| |done].
    intros poolKeys _ start i data s0.
    by apply initializePool_stores, (uninitialized_fresh _ _ pool).
  - apply (updatePoolMap_preserves (fun s => NoDup (map fst (pools s))));
      [done| |done].
    intros poolKeys _ start i data s0. apply initializePool_NoDup.
  - apply (fetchPoolsByPair_preserves (stores poolId pool)); [done| |done].
    intros poolKeys start i data s0.
    by apply initializePool_stores, (uninitialized_fresh _ _ pool).
  - apply (fetchPoolsByPair_preserves (fun s => NoDup (map fst (pools s))));
      [done| |done].
    intros poolKeys start i data s0. apply initializePool_NoDup.
  - intros p s'. unfold stores, constructPool. run.
    apply JSMapFacts.get_set_eq.
Qed.

Lemma includes_pair token0 token1 x :
  includes [token0; token1] x = true ↔ token0 = x ∨ token1 = x.
Proof.
  unfold includes. simpl. rewrite !orb_true_iff, !Z.eqb_eq. intuition discriminate.
Qed.

Lemma fallback_NoDup token0 token1 :
  NoDup (genericFallback token0 token1 ++ [oracleFallback env this token0 token1]).
Proof.
  apply (NoDup_fmap_1 (fun poolKey => fee (config poolKey))).
  by apply (bool_decide_unpack _).
Qed.

(** C4. When the index call of [fetchPoolsByPair] fails, the keys of the
    pair are the static fallback list, one key per entry of
    [FALLBACK_POOL_PARAMETERS], followed by the oracle key exactly when one
    token of the pair is the native token; the keys are pairwise distinct,
    so a pair with the native token has one key more than the list has
    entries. *)
Theorem fallback_keys_on_failure token0 token1 response err s :
  fetchAllPoolKeys env this response = Throw err →
  ∃ poolKeys,
    pairPoolKeys env this token0 token1 response s =
      (Ok poolKeys, addLogs [FallingBack token0 token1 err] s) ∧
    NoDup poolKeys ∧
    (token0 = NATIVE_TOKEN_ADDRESS env ∨ token1 = NATIVE_TOKEN_ADDRESS env →
     poolKeys = genericFallback token0 token1 ++
                [oracleFallback env this token0 token1] ∧
     length poolKeys = length FALLBACK_POOL_PARAMETERS + 1) ∧
    (¬ (token0 = NATIVE_TOKEN_ADDRESS env ∨ token1 = NATIVE_TOKEN_ADDRESS env) →
     poolKeys = genericFallback token0 token1 ∧
     length poolKeys = length FALLBACK_POOL_PARAMETERS).
Proof.
  intros Hfail. unfold pairPoolKeys. rewrite Hfail. run.
  pose proof (includes_pair token0 token1 (NATIVE_TOKEN_ADDRESS env)) as Hnative.
  unfold includes in Hnative. simpl in Hnative.
  destruct ((token0 =? NATIVE_TOKEN_ADDRESS env)%Z
            || ((token1 =? NATIVE_TOKEN_ADDRESS env)%Z || false)) eqn:Hin.
  - eexists. split; [reflexivity|]. split_and!.
    + apply fallback_NoDup.
    + done.
    + intros Hno. destruct Hno. by apply Hnative.
  - eexists. split; [reflexivity|]. split_and!.
    + pose proof (fallback_NoDup token0 token1) as [Hnd _]%NoDup_app.
      exact Hnd.
    + intros Hyes. apply Hnative in Hyes. done.
    + done.
Qed.

End Passes.

(** *** On a concrete registry *)

Import Examples.

Lemma passes_keep_tracked_pools_witness :
  stores (poolId knownKey) knownPool oneKnownPool ∧
  stores (poolId knownKey) knownPool
    (snd (updatePoolMap ekuboEnv ekubo 9 (Ok [knownRow; newRow]) (promptWorld 1)
            oneKnownPool)).
Proof.
  split; [reflexivity|].
  apply (passes_keep_tracked_pools ekuboEnv ekubo ETH USDC 9 500
           (Ok [knownRow; newRow]) (promptWorld 1) oneKnownPool
           (poolId knownKey) knownPool).
  - reflexivity.
  - apply NoDup_singleton.
Defined.

(** That pass did initialize the pool that was not tracked. *)
Example updatePoolMap_adds_new_pool :
  map (fun entry => (fst entry, ref (snd entry)))
      (pools (snd (updatePoolMap ekuboEnv ekubo 9 (Ok [knownRow; newRow])
                     (promptWorld 1) oneKnownPool)))
  = [("0_41144_0_100_200", 0); ("0_41144_0_300_1000", 1)].
Proof. vm_compute. reflexivity. Qed.

(** C3, as stated, fails: when [initializePools] runs for a key whose
    identifier the registry holds, the object stored under the identifier
    is replaced by the one just constructed. *)
Lemma reinsertion_replaces_the_pool :
  stores (poolId knownKey) knownPool oneKnownPool ∧
  ¬ stores (poolId knownKey) knownPool
      (snd (initializePools ekuboEnv ekubo [knownKey] 9 None (promptWorld 1)
              oneKnownPool)) ∧
  ref <$> JSMap.get (poolId knownKey)
            (pools (snd (initializePools ekuboEnv ekubo [knownKey] 9 None
                           (promptWorld 1) oneKnownPool)))
  = Some 1.
Proof.
  split_and!; [reflexivity | | vm_compute; reflexivity].
  unfold stores. vm_compute. discriminate.
Qed.

(** The same happens inside one pass when the index lists a pool twice:
    both rows pass the filter, two objects are constructed, and the second
    takes the place of the first. *)
Example duplicate_rows_replace_the_pool :
  let after := snd (updatePoolMap ekuboEnv ekubo 9 (Ok [newRow; newRow])
                      (promptWorld 2) emptyState) in
  map (fun entry => (fst entry, ref (snd entry))) (pools after)
    = [("0_41144_0_300_1000", 1)] ∧
  allocated after = 2.
Proof. vm_compute. done. Qed.

Lemma fallback_keys_on_failure_witness :
  fetchAllPoolKeys ekuboEnv ekubo (Throw (External "ECONNREFUSED"))
    = Throw (External "ECONNREFUSED") ∧
  ∃ poolKeys,
    pairPoolKeys ekuboEnv ekubo 0 41144 (Throw (External "ECONNREFUSED"))
      emptyState =
      (Ok poolKeys,
       addLogs [FallingBack 0 41144 (External "ECONNREFUSED")] emptyState) ∧
    length poolKeys = 6.
Proof.
  split; [reflexivity|].
  destruct (fallback_keys_on_failure ekuboEnv ekubo 0 41144
              (Throw (External "ECONNREFUSED")) (External "ECONNREFUSED")
              emptyState eq_refl) as (poolKeys & Hrun & _ & Hnative & _).
  exists poolKeys. split; [exact Hrun|].
  apply Hnative. left. reflexivity.
Defined.

(** Without the native token the fallback is the generic list alone. *)
Example fallback_without_native :
  mapResult length
    (fst (pairPoolKeys ekuboEnv ekubo 27415 41144
            (Throw (External "ECONNREFUSED")) emptyState))
  = Ok 5.
Proof. vm_compute. reflexivity. Qed.

End DiscoverySpec.

(** ** The EtherFi adapter *)

Module EtherFiSpec.
Import EtherFi.

Section Adapter.

Variable helpers : Helpers.
Variable this : EtherFi.

(** X1. [getSimpleParam] selects a call in exactly two situations: a deposit
    into the eETH pool when the destination is eETH and the source is ETH or
    WETH, and a wrap of [srcAmount] when the destination is weETH and the
    source is eETH; the comparison of addresses ignores case. In every
    other situation it throws: in particular the unwrap branch, which is
    reached only when the destination is not eETH, asserts that it is, so
    no call ever unwraps. *)
Theorem selectCall_deposits_or_wraps srcToken destToken srcAmount selected :
  selectCall helpers this srcToken destToken srcAmount = Returns selected ↔
  (toLowerCase destToken = this_eETH this ∧
   (isWETH helpers srcToken = true ∨ isETHAddress helpers srcToken = true) ∧
   selected = {| selected_interface := eETHPoolInterface;
                 swapCallee := this_eETHPool this;
                 swapFunction := deposit;
                 swapFunctionParams := [] |})
  ∨ (toLowerCase destToken ≠ this_eETH this ∧
     toLowerCase destToken = this_weETH this ∧
     toLowerCase srcToken = this_eETH this ∧
     selected = {| selected_interface := weETHInterface;
                   swapCallee := this_weETH this;
                   swapFunction := wrap;
                   swapFunctionParams := [srcAmount] |}).
Proof.
  unfold selectCall, is_eETH, is_weETH, assert.
  destruct (decide (toLowerCase destToken = this_eETH this)) as [Hd|Hd].
  - rewrite (bool_decide_eq_true_2 _ Hd).
    destruct (isWETH helpers srcToken || isETHAddress helpers srcToken) eqn:Hsrc.
    + apply orb_true_iff in Hsrc. split.
      * intros [= <-]. left. done.
      * intros [(_ & _ & ->) | (Hno & _)]; [done | contradiction].
    + apply orb_false_iff in Hsrc as [Hw He]. split; [done|].
      intros [(_ & [Hyes|Hyes] & _) | (Hno & _)]; [congruence.. | contradiction].
  - rewrite (bool_decide_eq_false_2 _ Hd).
    destruct (decide (toLowerCase destToken = this_weETH this)) as [Hw|Hw].
    + rewrite (bool_decide_eq_true_2 _ Hw).
      destruct (decide (toLowerCase srcToken = this_eETH this)) as [Hs|Hs].
      * rewrite (bool_decide_eq_true_2 _ Hs). split.
        -- intros [= <-]. right. done.
        -- intros [(Hyes & _) | (_ & _ & _ & ->)]; [contradiction | done].
      * rewrite (bool_decide_eq_false_2 _ Hs). split; [done|].
        intros [(Hyes & _) | (_ & _ & Hyes & _)]; contradiction.
    + rewrite (bool_decide_eq_false_2 _ Hw).
      destruct (bool_decide (toLowerCase srcToken = this_weETH this));
        (split; [done|]);
        intros [(Hyes & _) | (_ & Hyes & _)]; contradiction.
Qed.

(** X2. A swap out of weETH towards anything but eETH or weETH always throws
    the assertion of the unwrap branch, and no input makes [getSimpleParam]
    encode an unwrap. *)
Theorem getSimpleParam_never_unwraps srcToken destToken srcAmount destAmount :
  (∀ built,
     getSimpleParam helpers this srcToken destToken srcAmount destAmount
       = Returns built →
     (encodeFunctionData helpers eETHPoolInterface deposit []
        = Returns (built_swapData built) ∧
      built_swapCallee built = this_eETHPool this) ∨
     (encodeFunctionData helpers weETHInterface wrap [srcAmount]
        = Returns (built_swapData built) ∧
      built_swapCallee built = this_weETH this)) ∧
  (toLowerCase srcToken = this_weETH this →
   toLowerCase destToken ≠ this_eETH this →
   toLowerCase destToken ≠ this_weETH this →
   getSimpleParam helpers this srcToken destToken srcAmount destAmount
     = Throws (AssertionFailed "destToken should be eETH")).
Proof.
  split.
  - intros built. unfold getSimpleParam.
    unfold selectCall, assert.
    destruct (is_eETH this destToken).
    + destruct (isWETH helpers srcToken || isETHAddress helpers srcToken);
        [|done]. simpl.
      destruct (encodeFunctionData helpers _ _ _); [|done].
      intros [= <-]. simpl. auto.
    + destruct (is_weETH this destToken).
      * destruct (is_eETH this srcToken); [|done]. simpl.
        destruct (encodeFunctionData helpers _ _ _); [|done].
        intros [= <-]. simpl. auto.
      * by destruct (is_weETH this srcToken).
  - intros Hs Hd Hw. unfold getSimpleParam, selectCall, is_eETH, is_weETH, assert.
    by rewrite (bool_decide_eq_false_2 _ Hd), (bool_decide_eq_false_2 _ Hw),
      (bool_decide_eq_true_2 _ Hs).
Qed.

(** What is handed on keeps the tokens and amounts as they were given. *)
Lemma getSimpleParam_passes_through srcToken destToken srcAmount destAmount built :
  getSimpleParam helpers this srcToken destToken srcAmount destAmount
    = Returns built →
  built_srcToken built = srcToken ∧ built_destToken built = destToken ∧
  built_srcAmount built = srcAmount ∧ built_destAmount built = destAmount.
Proof.
  unfold getSimpleParam.
  destruct (selectCall helpers this srcToken destToken srcAmount); [|done].
  destruct (encodeFunctionData helpers _ _ _); [|done].
  by intros [= <-].
Qed.

End Adapter.

(** On the main network: a wrap is selected whatever the case of the
    addresses, and the opposite direction throws. *)
Example wrap_on_mainnet :
  getSimpleParam Examples.etherfiHelpers Examples.etherfi
    "0x35FA164735182de50811E8e2E824cFb9B6118ac2"
    "0xCd5fE23C85820F7B72D0926FC9b05b43E359b7ee" "1000" "990"
  = Returns {| built_srcToken := "0x35FA164735182de50811E8e2E824cFb9B6118ac2";
               built_srcAmount := "1000";
               built_destToken := "0xCd5fE23C85820F7B72D0926FC9b05b43E359b7ee";
               built_destAmount := "990";
               built_swapData := "wrap(1000)";
               built_swapCallee := "0xcd5fe23c85820f7b72d0926fc9b05b43e359b7ee" |}.
Proof. vm_compute. reflexivity. Qed.

Example unwrap_on_mainnet_throws :
  getSimpleParam Examples.etherfiHelpers Examples.etherfi
    "0xcd5fe23c85820f7b72d0926fc9b05b43e359b7ee"
    "0x35fa164735182de50811e8e2e824cfb9b6118ac2" "1000" "990"
  = Throws (AssertionFailed "srcToken should be eth").
Proof. vm_compute. reflexivity. Qed.

(** The constructor lowers the case of the configured addresses. *)
Example constructor_on_mainnet :
  new_EtherFi 1 = Returns Examples.etherfi.
Proof. vm_compute. reflexivity. Qed.

End EtherFiSpec.

(** ** More on the event-sourced state store *)

Module IdleDaoMore.
Import IdleDao.

(** X3. A subscriber as the constructor builds it reads the chain only for a
    log that decodes to a Transfer: then it reads [virtualPrice] of the
    tracked token once, at the block of the log. The call fails only when
    the regeneration for such a log fails, with a [StateAdvanceError] that
    carries the cause; a log that does not decode to a Transfer is
    answered with [null]. *)
Theorem processLog_reads_for_transfers_only env tok state log w :
  issued (snd (processLog env (new_IdleDaoEventPool tok) state log w)) =
  issued w ++
  match parseLog env log with
  | Ok event =>
      if bool_decide (name event = "Transfer"%string)
      then [{| contract := cdoAddress tok; argument := idleAddress tok;
               blockTag := blockNumber log |}]
      else []
  | Throw _ => []
  end ∧
  (∀ e, fst (processLog env (new_IdleDaoEventPool tok) state log w) = Throw e →
     ∃ event cause,
       parseLog env log = Ok event ∧ name event = "Transfer"%string ∧
       fst (generateState env (new_IdleDaoEventPool tok) (blockNumber log) w)
         = Throw cause ∧
       e = StateAdvanceError cause) ∧
  ((∀ event, parseLog env log = Ok event → name event ≠ "Transfer"%string) →
   fst (processLog env (new_IdleDaoEventPool tok) state log w) = Ok None).
Proof.
  destruct (parseLog env log) as [event|e] eqn:Hev.
  - destruct (decide (name event = "Transfer"%string)) as [Hn|Hn].
    + rewrite (bool_decide_eq_true_2 _ Hn).
      rewrite (IdleDaoSpec.processLog_on_transfer env _ state log event w Hev)
        by (rewrite Hn; apply lookup_insert_eq).
      rewrite IdleDaoSpec.generateState_run. cbn [fst].
      destruct (_ ← virtualPrice env _ _ _; _) as [st|cause]; cbn [fst snd issued].
      * split_and!; [done | done |]. intros Hno. by destruct (Hno event).
      * split_and!; [done | |].
        -- intros e [= <-]. by exists event, cause.
        -- intros Hno. by destruct (Hno event).
    + rewrite (bool_decide_eq_false_2 _ Hn).
      unfold processLog, tryCatch, mbind, M_bind, bind, lift.
      rewrite Hev. cbn [new_IdleDaoEventPool handlers].
      rewrite lookup_insert_ne by done. rewrite lookup_empty. simpl.
      by rewrite app_nil_r.
  - destruct (IdleDaoSpec.parseLog_throws env log e Hev) as [reason ->].
    unfold processLog, tryCatch, mbind, M_bind, bind, lift.
    rewrite Hev. simpl. by rewrite app_nil_r.
Qed.

(** X4. A subscriber as the constructor builds it answers a Transfer log
    with the state regenerated at the block of the log; when the
    regeneration fails (the read or the conversion throws), the failure
    reaches the [catch] of [processLog], is no decode failure, and the call
    fails with a [StateAdvanceError] that carries it. *)
Theorem transfer_logs_regenerate_or_fail env tok state log event w :
  parseLog env log = Ok event →
  name event = "Transfer"%string →
  processLog env (new_IdleDaoEventPool tok) state log w =
  match generateState env (new_IdleDaoEventPool tok) (blockNumber log) w with
  | (Ok regenerated, w') => (Ok (Some regenerated), w')
  | (Throw e, w') => (Throw (StateAdvanceError e), w')
  end.
Proof.
  intros Hev Hname.
  apply (IdleDaoSpec.processLog_on_transfer env _ state log event w Hev).
  rewrite Hname. apply lookup_insert_eq.
Qed.

Lemma transfer_logs_regenerate_or_fail_witness :
  parseLog Examples.idleEnv Examples.transferLog
    = Ok {| name := "Transfer"; args := ["Transfer"%string] |} ∧
  processLog Examples.idleEnv (new_IdleDaoEventPool Examples.idleToken)
    {| tokenPrice := 5 |} Examples.transferLog Examples.idleWorld =
  match generateState Examples.idleEnv (new_IdleDaoEventPool Examples.idleToken)
          (blockNumber Examples.transferLog) Examples.idleWorld with
  | (Ok regenerated, w') => (Ok (Some regenerated), w')
  | (Throw e, w') => (Throw (StateAdvanceError e), w')
  end.
Proof.
  split; [reflexivity|].
  apply (transfer_logs_regenerate_or_fail Examples.idleEnv
           Examples.idleToken {| tokenPrice := 5 |} Examples.transferLog
           {| name := "Transfer"; args := ["Transfer"%string] |}
           Examples.idleWorld).
  - reflexivity.
  - reflexivity.
Defined.

(** A Transfer at a block the node cannot serve: the call fails, and the
    failure carries what the node answered. *)
Example processLog_fails_on_failed_regeneration :
  fst (processLog Examples.idleEnv Examples.idlePool {| tokenPrice := 5 |}
         {| address := "0x1a"; blockNumber := -1; topics := ["Transfer"%string];
            data := "" |}
         Examples.idleWorld)
  = Throw (StateAdvanceError (External "header not found")).
Proof. vm_compute. reflexivity. Qed.

(** A log of another contract event is ignored and costs no read. *)
Example processLog_ignores_a_swap :
  processLog Examples.idleEnv Examples.idlePool {| tokenPrice := 5 |}
    Examples.foreignLog Examples.idleWorld
  = (Ok None,
     {| logged := [ParseLogError (DecodeMismatch "no matching event")];
        issued := [] |}).
Proof. vm_compute. reflexivity. Qed.

End IdleDaoMore.

(** ** The cache of token decimals *)

Module TokenCacheSpec.
Import Ekubo.

(** A token whose decimals are cached is answered from the cache: no
    contract is called and nothing changes. *)
Lemma getDecimals_hit erc20 token cache cached :
  decimalsOf cache !! token = Some cached →
  getDecimals erc20 token cache = (Ok cached, cache).
Proof. intros Hhit. unfold getDecimals, mbind, M_bind, bind, gets. by rewrite Hhit. Qed.

Section Cache.

Variable erc20 : nat → string → Result Z.



End Cache.


(** The native token is answered without a call from the start. *)
Example native_decimals :
  getDecimals Examples.toyErc20 Examples.ETHER_ADDRESS
    (initialTokenCache Examples.ETHER_ADDRESS)
  = (Ok 18%Z, initialTokenCache Examples.ETHER_ADDRESS).
Proof. apply getDecimals_hit. apply lookup_insert_eq. Qed.

End TokenCacheSpec.

(** ** More on the quoting engine *)

Module QuotingMore.
Import Ekubo.
Import EkuboSpec.

Lemma get_Some_elem {K V} `{EqDecision K} (k : K) (v : V) (m : JSMap.t K V) :
  JSMap.get k m = Some v → (k, v) ∈ m.
Proof.
  induction m as [|[k' v'] m IH]; simpl; [done|].
  destruct (decide (k = k')) as [->|].
  - intros [= ->]. apply list_elem_of_here.
  - intros Hget. apply list_elem_of_further. by apply IH.
Qed.

Section Requests.

Variable env : Collaborators.
Variable this : Adapter.

(** With an allow-list the candidates are the pools stored under its
    identifiers, in its order and with its repetitions, and every
    identifier the registry does not hold costs one warning. The pair
    plays no part in the selection. *)
Lemma allow_list_selects_by_identifier tokenA tokenB limitPools s :
  getInitializedPools env tokenA tokenB (Some limitPools) s =
  (Ok (omap (fun poolId => JSMap.get poolId (pools s)) limitPools),
   addLogs (PoolNotFound <$> missing limitPools s) s).
Proof.
  simpl. revert s.
  induction limitPools as [|poolId rest IH]; intros s.
  - simpl. by rewrite addLogs_nil.
  - simpl. run. unfold missing. simpl. unfold JSMap.has.
    destruct (JSMap.get poolId (pools s)) as [pool|] eqn:Hget; simpl.
    + rewrite IH. done.
    + rewrite IH. simpl. by rewrite addLogs_app.
Qed.

Lemma allow_list_length limitPools s :
  length (omap (fun poolId => JSMap.get poolId (pools s)) limitPools) +
  length (missing limitPools s) = length limitPools.
Proof.
  unfold missing, JSMap.has.
  induction limitPools as [|poolId rest IH]; simpl; [done|].
  unfold omap in IH.
  destruct (JSMap.get poolId (pools s)); simpl; lia.
Qed.

(** Each candidate leaves exactly one trace: a price point or a log entry. *)
Lemma pushes_one token0 token1 isExactOut amountTokenAddress unitAmount amounts
    blockNumber candidates outs :
  Forall2 (pushes env this token0 token1 isExactOut amountTokenAddress
             unitAmount amounts blockNumber) candidates outs →
  length (concat outs.*1) + length (concat outs.*2) = length candidates.
Proof.
  induction 1 as [|pool out candidates outs Hout _ IH]; [done|].
  rewrite !fmap_cons. cbn [concat]. rewrite !length_app. cbn [length].
  destruct (pushes_cases _ _ _ _ _ _ _ _ _ _ _ Hout)
    as [[_ ->] | [_ [(uq & oqs & _ & _ & ->) | [(_ & _ & ->) | (e & _ & ->)]]]];
    simpl; lia.
Qed.

(** X7. [getPricesVolume] leaves the registry as it found it, and accounts for
    every entry of the allow-list (without one: for every pool of the pair
    in the registry) exactly once, by a price point or by one log entry. *)
Theorem every_candidate_is_accounted_for srcToken destToken amounts side
    blockNumber limitPools s :
  ∃ prices entries,
    getPricesVolume env this srcToken destToken amounts side blockNumber
      limitPools s = (Ok prices, addLogs entries s) ∧
    length prices + length entries =
    match limitPools with
    | Some limitPools => length limitPools
    | None =>
        length (List.filter
                  (fun pool =>
                     pairIs (fst (sortAndConvertTokens env srcToken destToken))
                            (snd (sortAndConvertTokens env srcToken destToken))
                            (key pool))
                  (JSMap.values (pools s)))
    end.
Proof.
  unfold getPricesVolume, mbind at 1, M_bind, bind.
  destruct limitPools as [limitPools|].
  - rewrite allow_list_selects_by_identifier.
    destruct (sortAndConvertTokens env srcToken destToken) as [t0 t1].
    destruct (poolLoop_spec env this t0 t1 (bool_decide (side = BUY))
                (convertParaSwapToEkubo env
                   (address (if bool_decide (side = BUY) then destToken else srcToken)))
                (getBigIntPow
                   (decimals (if bool_decide (side = BUY) then destToken else srcToken)))
                amounts blockNumber
                (omap (fun poolId => JSMap.get poolId (pools s)) limitPools))
      as (outs & Houts & Hloop).
    rewrite Hloop. rewrite addLogs_app. eexists _, _. split; [reflexivity|].
    cbn [app]. rewrite length_app, length_fmap.
    pose proof (pushes_one _ _ _ _ _ _ _ _ _ Houts).
    pose proof (allow_list_length limitPools s). lia.
  - simpl.
    destruct (sortAndConvertTokens env srcToken destToken) as [t0 t1].
    unfold gets. cbn [fst snd].
    destruct (poolLoop_spec env this t0 t1 (bool_decide (side = BUY))
                (convertParaSwapToEkubo env
                   (address (if bool_decide (side = BUY) then destToken else srcToken)))
                (getBigIntPow
                   (decimals (if bool_decide (side = BUY) then destToken else srcToken)))
                amounts blockNumber
                (List.filter (fun pool => pairIs t0 t1 (key pool))
                             (JSMap.values (pools s))))
      as (outs & Houts & Hloop).
    rewrite Hloop. eexists _, _. split; [reflexivity|].
    cbn [app]. apply (pushes_one _ _ _ _ _ _ _ _ _ Houts).
Qed.

(** X8. Without an allow-list the candidates all carry the pair, so the check
    at the head of the pool loop never fires and nothing is looked up: the
    only entries the request can log are shortfalls of liquidity and quote
    errors. *)
Theorem no_allow_list_no_mismatch srcToken destToken amounts side blockNumber s :
  ∃ prices entries,
    getPricesVolume env this srcToken destToken amounts side blockNumber
      None s = (Ok prices, addLogs entries s) ∧
    Forall (fun entry => entry = NotEnoughLiquidity ∨
                         ∃ err, entry = QuoteError err) entries ∧
    (side = SELL → Forall (fun entry => ∃ err, entry = QuoteError err) entries).
Proof.
  unfold getPricesVolume, mbind at 1, M_bind, bind. simpl.
  destruct (sortAndConvertTokens env srcToken destToken) as [t0 t1].
  unfold gets. cbn [fst snd].
  destruct (poolLoop_spec env this t0 t1 (bool_decide (side = BUY))
              (convertParaSwapToEkubo env
                 (address (if bool_decide (side = BUY) then destToken else srcToken)))
              (getBigIntPow
                 (decimals (if bool_decide (side = BUY) then destToken else srcToken)))
              amounts blockNumber
              (List.filter (fun pool => pairIs t0 t1 (key pool))
                           (JSMap.values (pools s))))
    as (outs & Houts & Hloop).
  rewrite Hloop. eexists _, _. split; [reflexivity|]. cbn [app].
  assert (Hpair : Forall (fun pool => pairIs t0 t1 (key pool) = true)
            (List.filter (fun pool => pairIs t0 t1 (key pool))
                         (JSMap.values (pools s)))).
  { apply Forall_forall. by intros pool [_ ?]%list_elem_of_In%filter_In. }
  clear Hloop. revert Houts Hpair.
  generalize (List.filter (fun pool => pairIs t0 t1 (key pool))
                          (JSMap.values (pools s))).
  intros candidates Houts.
  induction Houts as [|pool out rest outs Hout _ IH]; intros Hpair.
  { split; [constructor|]. intros _. constructor. }
  apply Forall_cons in Hpair as [Hpool Hpair].
  destruct (IH Hpair) as [IH1 IH2].
  rewrite fmap_cons. cbn [concat].
  destruct (pushes_cases _ _ _ _ _ _ _ _ _ _ _ Hout)
    as [[Hno _] | [_ [(uq & oqs & _ & _ & ->) | [(Hex & _ & ->) | (e & _ & ->)]]]].
  - congruence.
  - simpl. by split.
  - simpl. split.
    + constructor; [by left | done].
    + intros ->. done.
  - simpl. split.
    + constructor; [right; by exists e | done].
    + intros Hsell. constructor; [by exists e | by apply IH2].
Qed.

(** The loop on the sell side: every quote is taken as it comes. *)
Lemma quoteAmounts_sell pool amountTokenAddress blockNumber todo qs :
  Forall2 (fun amount q =>
             quote env pool amount amountTokenAddress blockNumber = Ok q)
          todo qs →
  ∀ quotes m s,
    quoteAmounts env pool false amountTokenAddress blockNumber todo quotes m s =
    (Ok (Completed (quotes ++ qs) (recordSkipAhead m todo qs)), s).
Proof.
  induction 1 as [|amount q todo qs Hq _ IH]; intros quotes m s; simpl.
  - by rewrite app_nil_r.
  - run. rewrite Hq. simpl. rewrite IH. by rewrite <- app_assoc.
Qed.

(** X9. On the sell side a pool of the pair whose quotes all return gives its
    price point whatever the quotes consumed: a sale that the pool fills
    only in part is priced at what the pool paid for the part. *)
Theorem sell_reports_partial_fills token0 token1 amountTokenAddress unitAmount
    amounts blockNumber pool unitQuote otherQuotes :
  pairIs token0 token1 (key pool) = true →
  Forall2 (fun amount q =>
             quote env pool amount amountTokenAddress blockNumber = Ok q)
          (unitAmount :: amounts) (unitQuote :: otherQuotes) →
  ∀ s, quotePool env this token0 token1 false amountTokenAddress unitAmount
         amounts blockNumber pool s =
       (Ok [pricePoint env this token1 amountTokenAddress unitAmount amounts
                       pool unitQuote otherQuotes], s).
Proof.
  intros Hpair Hquotes s. unfold quotePool. rewrite Hpair. cbn [negb].
  unfold tryCatch, mbind, M_bind, bind.
  by rewrite (quoteAmounts_sell _ _ _ _ _ Hquotes).
Qed.

(** What the skip-ahead map holds after the loop: for every amount of the
    list the skip-ahead of its quote, and nothing else. *)
Lemma recordSkipAhead_get (f : Z → Result Quote) todo qs :
  Forall2 (fun amount q => f amount = Ok q) todo qs →
  ∀ m amount,
    (amount ∈ todo →
     ∃ q, f amount = Ok q ∧
          JSMap.get amount (recordSkipAhead m todo qs) = Some (skipAhead q)) ∧
    (amount ∉ todo →
     JSMap.get amount (recordSkipAhead m todo qs) = JSMap.get amount m).
Proof.
  induction 1 as [|a q todo qs Hq _ IH]; intros m amount.
  { split; [by intros ?%elem_of_nil | done]. }
  unfold recordSkipAhead. simpl.
  fold (recordSkipAhead (JSMap.set a (skipAhead q) m) todo qs).
  destruct (IH (JSMap.set a (skipAhead q) m) amount) as [IHin IHout].
  destruct (decide (amount ∈ todo)) as [Hin|Hnin].
  - split; [intros _; by apply IHin|].
    intros Hno. destruct Hno. by apply list_elem_of_further.
  - split.
    + intros [->|Hin]%elem_of_cons; [|contradiction].
      exists q. split; [done|]. rewrite IHout by done.
      apply JSMapFacts.get_set_eq.
    + intros [Hne Hno]%not_elem_of_cons. rewrite IHout by done.
      by apply JSMapFacts.get_set_ne.
Qed.

(** X10. The skip-ahead map of a price point answers, for the unit and for each
    requested amount, with the skip-ahead of the quote of that amount, and
    has no entry for any other amount. *)
Theorem skipAhead_map_round_trip srcToken destToken amounts side blockNumber
    limitPools s :
  ∃ candidates pushed,
    fst (getInitializedPools env srcToken destToken limitPools s) = Ok candidates ∧
    fst (getPricesVolume env this srcToken destToken amounts side blockNumber
           limitPools s) = Ok (concat pushed) ∧
    Forall2
      (fun pool pps =>
         ∀ pp, pp ∈ pps → ∀ amount,
           (amount ∈ getBigIntPow
                       (decimals (if bool_decide (side = BUY)
                                  then destToken else srcToken)) :: amounts →
            ∃ q, quote env pool (inputAmount (bool_decide (side = BUY)) amount)
                   (convertParaSwapToEkubo env
                      (address (if bool_decide (side = BUY)
                                then destToken else srcToken)))
                   blockNumber = Ok q ∧
                 JSMap.get amount (data_skipAhead (data pp))
                   = Some (skipAhead q)) ∧
           (amount ∉ getBigIntPow
                       (decimals (if bool_decide (side = BUY)
                                  then destToken else srcToken)) :: amounts →
            JSMap.get amount (data_skipAhead (data pp)) = None))
      candidates pushed.
Proof.
  destruct (getPricesVolume_spec env this srcToken destToken amounts side
              blockNumber limitPools s)
    as (candidates & es0 & outs & Hinit & Houts & Hrun).
  exists candidates, (outs.*1). rewrite Hinit, Hrun. split_and!; [done..|].
  apply Forall2_fmap_r. eapply Forall2_impl; [exact Houts|].
  intros pool out Hout pp Hpp amount.
  destruct (pushes_cases _ _ _ _ _ _ _ _ _ _ _ Hout)
    as [[_ ->] | [_ [(uq & oqs & Hqs & _ & ->) | [(_ & _ & ->) | (e & _ & ->)]]]];
    simpl in Hpp; try by apply elem_of_nil in Hpp.
  apply list_elem_of_singleton in Hpp as ->. cbn [data data_skipAhead pricePoint].
  apply (recordSkipAhead_get
           (fun amount => quote env pool
                            (inputAmount (bool_decide (side = BUY)) amount)
                            (convertParaSwapToEkubo env
                               (address (if bool_decide (side = BUY)
                                         then destToken else srcToken)))
                            blockNumber)).
  eapply Forall2_impl; [exact Hqs|]. by intros a q [Hq _].
Qed.

(** X11. The call builder finds in a price point what the quote of the
    amount recorded. Handed the amounts of the request as strings that
    [BigInt] reads, [getDexParam] hands the encoder the key of the pool
    that quoted, the signed amount, the recipient and the skip-ahead of the
    quote of that amount (0 for an amount that was not quoted), and returns
    the calldata the encoder gives for [config.router], or throws what the
    encoder throws. *)
Theorem getDexParam_follows_the_quote routerConfig srcToken destToken amounts
    side blockNumber limitPools s :
  ∃ candidates pushed,
    fst (getInitializedPools env srcToken destToken limitPools s) = Ok candidates ∧
    fst (getPricesVolume env this srcToken destToken amounts side blockNumber
           limitPools s) = Ok (concat pushed) ∧
    Forall2
      (fun pool pps =>
         ∀ pp, pp ∈ pps →
         ∀ srcAmount destAmount recipient amount signed,
           BigInt env (if bool_decide (side = BUY)
                       then ("-" +:+ destAmount)%string else srcAmount)
             = Ok signed →
           BigInt env (if bool_decide (side = SELL) then srcAmount else destAmount)
             = Ok amount →
           ∃ args,
             getDexParam env routerConfig srcAmount destAmount recipient
               (data pp) side =
             mapResult (fun calldata =>
                          {| needWrapNative := false;
                             exchangeData := calldata;
                             targetExchange := router routerConfig;
                             dexFuncHasRecipient := true |})
                       (encodeFunctionData routerConfig args) ∧
             arg_poolKey args = key pool ∧
             arg_amount args = signed ∧
             arg_recipient args = recipient ∧
             arg_calculatedAmountThreshold args = MIN_I256 routerConfig ∧
             (amount ∈ amounts →
              ∃ q, quote env pool (inputAmount (bool_decide (side = BUY)) amount)
                     (convertParaSwapToEkubo env
                        (address (if bool_decide (side = BUY)
                                  then destToken else srcToken)))
                     blockNumber = Ok q ∧
                   arg_skipAhead args = skipAhead q) ∧
             (amount ∉ getBigIntPow
                         (decimals (if bool_decide (side = BUY)
                                    then destToken else srcToken)) :: amounts →
              arg_skipAhead args = 0%Z))
      candidates pushed.
Proof.
  destruct (getPricesVolume_spec env this srcToken destToken amounts side
              blockNumber limitPools s)
    as (candidates & es0 & outs & Hinit & Houts & Hrun).
  exists candidates, (outs.*1). rewrite Hinit, Hrun. split_and!; [done..|].
  apply Forall2_fmap_r. eapply Forall2_impl; [exact Houts|].
  intros pool out Hout pp Hpp srcAmount destAmount recipient amount signed
    Hsigned Hamount.
  destruct (pushes_cases _ _ _ _ _ _ _ _ _ _ _ Hout)
    as [[_ ->] | [_ [(uq & oqs & Hqs & _ & ->) | [(_ & _ & ->) | (e & _ & ->)]]]];
    simpl in Hpp; try by apply elem_of_nil in Hpp.
  apply list_elem_of_singleton in Hpp as ->.
  unfold getDexParam. rewrite Hsigned, Hamount.
  unfold mbind at 1 2, Result_bind.
  match goal with
  | |- context [encodeFunctionData routerConfig ?args] => exists args
  end.
  split.
  { unfold mbind, Result_bind, mapResult.
    by destruct (encodeFunctionData routerConfig _). }
  cbn [arg_poolKey arg_amount arg_recipient arg_calculatedAmountThreshold
       arg_skipAhead data pricePoint poolKey data_skipAhead].
  assert (Hget := recordSkipAhead_get
           (fun amount => quote env pool
                            (inputAmount (bool_decide (side = BUY)) amount)
                            (convertParaSwapToEkubo env
                               (address (if bool_decide (side = BUY)
                                         then destToken else srcToken)))
                            blockNumber)
           _ _ ltac:(eapply Forall2_impl; [exact Hqs|]; by intros a q [Hq _])
           JSMap.empty amount).
  destruct Hget as [Hin Hout'].
  split_and!; try done.
  - intros Hamounts. destruct Hin as (q & Hq & Hget).
    { by apply list_elem_of_further. }
    exists q. split; [done|]. by rewrite Hget.
  - intros Hnot. by rewrite (Hout' Hnot).
Qed.

(** X12. With a registry in which every pool is stored under the identifier of
    its own key, the request honours the allow-list: every price point
    carries an identifier of the list. *)
Theorem allow_list_is_honoured srcToken destToken amounts side blockNumber
    limitPools s :
  wellKeyed env this s →
  ∀ prices,
    fst (getPricesVolume env this srcToken destToken amounts side blockNumber
           (Some limitPools) s) = Ok prices →
    ∀ pp, pp ∈ prices → poolIdentifier pp ∈ limitPools.
Proof.
  intros Hkeyed prices.
  destruct (getPricesVolume_spec env this srcToken destToken amounts side
              blockNumber (Some limitPools) s)
    as (candidates & es0 & outs & Hinit & Houts & Hrun).
  rewrite Hrun. intros [= <-] pp Hpp.
  rewrite allow_list_selects_by_identifier in Hinit.
  injection Hinit as <- _.
  apply list_elem_of_In, in_concat in Hpp as (pps & Hpps & Hpp).
  apply list_elem_of_In in Hpps. apply list_elem_of_In in Hpp.
  apply list_elem_of_fmap in Hpps as (out & -> & Hout).
  apply list_elem_of_lookup_1 in Hout as [i Hi].
  destruct (Forall2_lookup_r _ _ _ _ _ Houts Hi) as (pool & Hpool & Hpushes).
  apply list_elem_of_lookup_2, list_elem_of_omap in Hpool
    as (poolId & Hid & Hget).
  apply get_Some_elem in Hget.
  pose proof (proj1 (Forall_forall _ _) Hkeyed _ Hget) as (Hname & _).
  simpl in Hname.
  destruct (pushes_cases _ _ _ _ _ _ _ _ _ _ _ Hpushes)
    as [[_ ->] | [_ [(uq & oqs & _ & _ & ->) | [(_ & _ & ->) | (e & _ & ->)]]]];
    simpl in Hpp; try by apply elem_of_nil in Hpp.
  apply list_elem_of_singleton in Hpp as ->. simpl. by rewrite Hname.
Qed.

End Requests.

(** *** On a concrete registry *)

Lemma sell_reports_partial_fills_witness :
  pairIs 0 41144 (key Examples.shallowPool) = true ∧
  quotePool Examples.thinEnv Examples.ekubo 0 41144 false 0
    (10 ^ 18) [2000000%Z] 1 Examples.shallowPool Examples.emptyState =
  (Ok [pricePoint Examples.thinEnv Examples.ekubo 41144 0 (10 ^ 18)
         [2000000%Z] Examples.shallowPool Examples.partialQuote
         [Examples.partialQuote]],
   Examples.emptyState).
Proof.
  split; [reflexivity|].
  apply (sell_reports_partial_fills Examples.thinEnv Examples.ekubo 0 41144 0
           (10 ^ 18) [2000000%Z] 1 Examples.shallowPool Examples.partialQuote
           [Examples.partialQuote]).
  - reflexivity.
  - repeat (constructor; [reflexivity|]). constructor.
Defined.

(** The sale of 2000000 to a pool that can take 1500000 is priced at
    1500000. *)
Example sell_above_depth :
  mapResult (map (fun pp => (poolIdentifier pp, prices pp)))
    (fst (getPricesVolume Examples.thinEnv Examples.ekubo Examples.ETH
            Examples.USDC [2000000%Z] SELL 1
            (Some ["0_41144_0_300_1000"%string]) Examples.threePools))
  = Ok [("0_41144_0_300_1000"%string, [1500000%Z])].
Proof. vm_compute. reflexivity. Qed.

Lemma allow_list_is_honoured_witness :
  wellKeyed Examples.ekuboEnv Examples.ekubo Examples.threePools ∧
  ∀ prices,
    fst (getPricesVolume Examples.ekuboEnv Examples.ekubo Examples.ETH
           Examples.USDC [100%Z] SELL 1
           (Some ["0_41144_0_300_1000"%string]) Examples.threePools)
      = Ok prices →
    ∀ pp, pp ∈ prices → poolIdentifier pp ∈ ["0_41144_0_300_1000"%string].
Proof.
  assert (Hkeyed : wellKeyed Examples.ekuboEnv Examples.ekubo Examples.threePools).
  { unfold wellKeyed, Examples.threePools. simpl.
    repeat (constructor; [split_and!; [reflexivity | by left | reflexivity]|]).
    constructor. }
  split; [exact Hkeyed|].
  apply (allow_list_is_honoured Examples.ekuboEnv Examples.ekubo Examples.ETH
           Examples.USDC [100%Z] SELL 1 ["0_41144_0_300_1000"%string]
           Examples.threePools Hkeyed).
Defined.

(** The call for a buy of 1000000 that was quoted, and the same call for a
    recipient that is no address. *)
Example call_for_a_quoted_buy :
  match fst (getPricesVolume Examples.thinEnv Examples.ekubo Examples.ETH
               Examples.USDC [100; 1000000]%Z BUY 1 None Examples.threePools) with
  | Ok (pp :: _) =>
      (mapResult exchangeData
         (getDexParam Examples.thinEnv Examples.routerConfig "5" "1000000"
            "0x00000000000000000000000000000000deadbeef" (data pp) BUY),
       getDexParam Examples.thinEnv Examples.routerConfig "5" "1000000"
         "0xbeef" (data pp) BUY)
  | _ => (Throw TypeError, Throw TypeError)
  end
  = (Ok ("swap(0_41144_0_100_200,true,-1000000,4611797791050542631,1," +:+
         "0x00000000000000000000000000000000deadbeef)")%string,
     Throw (External "invalid address (argument=recipient)")).
Proof. vm_compute. reflexivity. Qed.

End QuotingMore.

(** ** More on discovery *)

Module DiscoveryMore.
Import Ekubo.
Import EkuboSpec.
Import DiscoverySpec.

(** *** Filters and maps that may throw *)

Lemma filterR_Ok {A} (p : A → Result bool) l kept :
  filterR p l = Ok kept →
  kept = List.filter (fun x => match p x with Ok true => true | _ => false end) l ∧
  Forall (fun x => isOk (p x) = true) l.
Proof.
  revert kept. induction l as [|x l IH]; intros kept; simpl.
  - intros [= <-]. by split.
  - unfold mbind, Result_bind.
    destruct (p x) as [keep|] eqn:Hp; [|done].
    destruct (filterR p l) as [rest|]; [|done].
    destruct (IH rest eq_refl) as [-> Hall].
    intros [= <-]. split.
    + by destruct keep.
    + constructor; [by rewrite Hp | done].
Qed.

Lemma filterR_drop {A} (p : A → Result bool) before x after :
  p x = Ok false →
  filterR p (before ++ x :: after) = filterR p (before ++ after).
Proof.
  intros Hx. induction before as [|y before IH]; simpl.
  - unfold mbind, Result_bind. rewrite Hx. by destruct (filterR p after).
  - by rewrite IH.
Qed.

Lemma filterR_Throw {A} (p : A → Result bool) l x e :
  x ∈ l → p x = Throw e → ∃ e', filterR p l = Throw e'.
Proof.
  intros Hin Hx. induction l as [|y l IH]; [by apply elem_of_nil in Hin|].
  simpl. unfold mbind, Result_bind.
  apply elem_of_cons in Hin as [<-|Hin].
  - rewrite Hx. eauto.
  - destruct (p y); [|eauto]. destruct (IH Hin) as [e' ->]. eauto.
Qed.

Lemma mapR_Ok {A B} (f : A → Result B) l ys :
  mapR f l = Ok ys → Forall2 (fun x y => f x = Ok y) l ys.
Proof.
  revert ys. induction l as [|x l IH]; intros ys; simpl.
  - intros [= <-]. constructor.
  - unfold mbind, Result_bind.
    destruct (f x) as [y|] eqn:Hy; [|done].
    destruct (mapR f l) as [rest|]; [|done].
    intros [= <-]. constructor; [done | by apply IH].
Qed.

Section Index.

Variable env : Collaborators.
Variable this : Adapter.

Lemma fetchAllPoolKeys_unfold rows :
  fetchAllPoolKeys env this (Ok rows) =
  (kept ← filterR (rowIsKept env this) rows;
   mapR (fun info =>
           t0 ← BigInt env (info_token0 info);
           t1 ← BigInt env (info_token1 info);
           fee ← BigInt env (info_fee info);
           ext ← BigInt env (info_extension info);
           mret {| token0 := t0; token1 := t1;
                   config := {| tickSpacing := tick_spacing info;
                                fee := fee; extension := ext |} |})
        kept).
Proof. reflexivity. Qed.

Lemma includes_supported ext :
  includes (supportedExtensions this) ext = true ↔ ext = 0%Z ∨ ext = oracle this.
Proof.
  unfold includes, supportedExtensions. cbn [existsb].
  rewrite !orb_true_iff, !Z.eqb_eq. split.
  - intros [H|[H|H]]; [left; lia | right; lia | discriminate].
  - intros [->| ->]; [by left | right; by left].
Qed.

Lemma rowIsKept_true row :
  rowIsKept env this row = Ok true →
  ∃ ext, BigInt env (info_extension row) = Ok ext ∧
         (ext = 0%Z ∨ ext = oracle this) ∧
         BigInt env (core_address row) = Ok (coreAddress this).
Proof.
  unfold rowIsKept, mbind, Result_bind.
  destruct (BigInt env (info_extension row)) as [ext|]; [|done].
  destruct (includes (supportedExtensions this) ext) eqn:Hext; [|done].
  destruct (BigInt env (core_address row)) as [core|]; [|done].
  intros [= ->%Z.eqb_eq]. exists ext. split_and!; [done| |done].
  by apply includes_supported.
Qed.

Lemma fetchAllPoolKeys_rows rows poolKeys :
  fetchAllPoolKeys env this (Ok rows) = Ok poolKeys →
  ∃ kept,
    sublist kept rows ∧
    Forall2 (fun row poolKey =>
               BigInt env (core_address row) = Ok (coreAddress this) ∧
               BigInt env (info_token0 row) = Ok (token0 poolKey) ∧
               BigInt env (info_token1 row) = Ok (token1 poolKey) ∧
               BigInt env (info_fee row) = Ok (fee (config poolKey)) ∧
               BigInt env (info_extension row) = Ok (extension (config poolKey)) ∧
               tick_spacing row = tickSpacing (config poolKey) ∧
               supported this poolKey)
            kept poolKeys.
Proof.
  rewrite fetchAllPoolKeys_unfold. unfold mbind at 1, Result_bind at 1.
  destruct (filterR (rowIsKept env this) rows) as [kept|] eqn:Hkept; [|done].
  intros Hmap%mapR_Ok.
  apply filterR_Ok in Hkept as [Hkept _].
  exists kept. split.
  { rewrite Hkept. clear. induction rows as [|row rows IH]; simpl; [done|].
    destruct (match rowIsKept env this row with Ok true => true | _ => false end).
    - by apply sublist_skip.
    - by apply sublist_cons. }
  assert (Hall : Forall (fun row => rowIsKept env this row = Ok true) kept).
  { rewrite Hkept. apply Forall_forall.
    intros row [_ Hrow]%list_elem_of_In%filter_In.
    by destruct (rowIsKept env this row) as [[]|]. }
  clear Hkept. induction Hmap as [|row poolKey kept poolKeys Hrow _ IH].
  - constructor.
  - apply Forall_cons in Hall as [Hkeep Hall]. constructor; [|by apply IH].
    apply rowIsKept_true in Hkeep as (ext & Hext & Hsup & Hcore).
    revert Hrow. unfold mbind, Result_bind.
    destruct (BigInt env (info_token0 row)) as [t0|]; [|done].
    destruct (BigInt env (info_token1 row)) as [t1|]; [|done].
    destruct (BigInt env (info_fee row)) as [f|]; [|done].
    rewrite Hext. intros [= <-]. simpl. by split_and!.
Qed.

Lemma fetchAllPoolKeys_supported response poolKeys :
  fetchAllPoolKeys env this response = Ok poolKeys →
  Forall (supported this) poolKeys.
Proof.
  destruct response as [rows|]; [|done].
  intros (kept & _ & Hrows)%fetchAllPoolKeys_rows.
  apply Forall_forall. intros poolKey [i Hi]%list_elem_of_lookup_1.
  destruct (Forall2_lookup_r _ _ _ _ _ Hrows Hi) as (row & _ & Hrow).
  apply Hrow.
Qed.

(** X13. Every key the index call returns was read off a row of the answer that
    names the adapter's core and an extension the adapter supports; the
    keys come in the order of their rows, and there are no more keys than
    rows. *)
Theorem fetchAllPoolKeys_keeps_supported_rows rows poolKeys :
  fetchAllPoolKeys env this (Ok rows) = Ok poolKeys →
  Forall (supported this) poolKeys ∧
  length poolKeys ≤ length rows ∧
  ∃ kept,
    sublist kept rows ∧
    Forall2 (fun row poolKey =>
               BigInt env (core_address row) = Ok (coreAddress this) ∧
               BigInt env (info_token0 row) = Ok (token0 poolKey) ∧
               BigInt env (info_token1 row) = Ok (token1 poolKey) ∧
               BigInt env (info_fee row) = Ok (fee (config poolKey)) ∧
               BigInt env (info_extension row) = Ok (extension (config poolKey)) ∧
               tick_spacing row = tickSpacing (config poolKey))
            kept poolKeys.
Proof.
  intros Hkeys. pose proof (fetchAllPoolKeys_supported _ _ Hkeys) as Hsup.
  apply fetchAllPoolKeys_rows in Hkeys as (kept & Hsub & Hrows).
  split_and!.
  - exact Hsup.
  - rewrite <- (Forall2_length _ _ _ Hrows). by apply sublist_length.
  - exists kept. split; [done|].
    eapply Forall2_impl; [exact Hrows|].
    intros row poolKey (? & ? & ? & ? & ? & ? & _). by split_and!.
Qed.

(** X14. A row that names an extension the adapter does not support, or another
    core, is dropped without a look at its remaining fields: the answer
    with the row and the answer without it give the same keys or the same
    failure. *)
Theorem fetchAllPoolKeys_drops_foreign_rows before row after ext :
  BigInt env (info_extension row) = Ok ext →
  (ext ≠ 0%Z ∧ ext ≠ oracle this) ∨
  (∃ core, BigInt env (core_address row) = Ok core ∧ core ≠ coreAddress this) →
  fetchAllPoolKeys env this (Ok (before ++ row :: after)) =
  fetchAllPoolKeys env this (Ok (before ++ after)).
Proof.
  intros Hext Hforeign. rewrite !fetchAllPoolKeys_unfold.
  rewrite filterR_drop; [done|].
  unfold rowIsKept, mbind, Result_bind. rewrite Hext.
  destruct (includes (supportedExtensions this) ext) eqn:Hinc; [|done].
  destruct Hforeign as [[H0 Ho] | (core & -> & Hcore)].
  - apply includes_supported in Hinc. lia.
  - simpl. by rewrite (proj2 (Z.eqb_neq _ _) Hcore).
Qed.

(** X15. One row whose extension is not a number fails the whole index call,
    wherever it stands and whatever the other rows are; [updatePoolMap]
    then returns with the registry as it was and one error logged. *)
Theorem one_malformed_row_fails_the_index rows row e blockNumber world s :
  row ∈ rows →
  BigInt env (info_extension row) = Throw e →
  ∃ e',
    fetchAllPoolKeys env this (Ok rows) = Throw e' ∧
    updatePoolMap env this blockNumber (Ok rows) world s =
      (Ok tt, addLogs [UpdatingPoolMapFailed e'] s).
Proof.
  intros Hin Hext.
  destruct (filterR_Throw (rowIsKept env this) rows row e Hin) as [e' He'].
  { unfold rowIsKept, mbind, Result_bind. by rewrite Hext. }
  exists e'.
  assert (Hfail : fetchAllPoolKeys env this (Ok rows) = Throw e').
  { rewrite fetchAllPoolKeys_unfold. unfold mbind, Result_bind. by rewrite He'. }
  split; [done|]. unfold updatePoolMap. by rewrite Hfail.
Qed.

(** X16. The rows [fetchPairPoolsInfo] returns are rows of the answer, in their
    order, each with a supported extension, the adapter's core and a TVL
    other than ['0'] on one side at least. *)
Theorem fetchPairPoolsInfo_keeps_live_rows rows kept :
  fetchPairPoolsInfo env this (Ok rows) = Ok kept →
  sublist kept rows ∧
  Forall (fun row =>
            (∃ ext, BigInt env (pair_extension row) = Ok ext ∧
                    (ext = 0%Z ∨ ext = oracle this)) ∧
            BigInt env (pair_core_address row) = Ok (coreAddress this) ∧
            (tvl0_total row ≠ "0"%string ∨ tvl1_total row ≠ "0"%string))
         kept.
Proof.
  unfold fetchPairPoolsInfo. unfold mbind at 1, Result_bind at 1.
  intros [-> _]%filterR_Ok. split.
  - induction rows as [|row rows IH]; simpl; [done|].
    destruct (match _ with Ok true => true | _ => false end).
    + by apply sublist_skip.
    + by apply sublist_cons.
  - apply Forall_forall. intros row [_ Hrow]%list_elem_of_In%filter_In.
    revert Hrow. unfold mbind, Result_bind.
    destruct (BigInt env (pair_extension row)) as [ext|]; [|done].
    destruct (includes (supportedExtensions this) ext) eqn:Hinc; [|done].
    destruct (BigInt env (pair_core_address row)) as [core|]; [|done].
    simpl.
    destruct (Z.eqb_spec (coreAddress this) core) as [<-|]; [|done]. simpl.
    intros Htvl. split_and!.
    + exists ext. split; [done|].
      by apply includes_supported.
    + done.
    + destruct (decide (tvl0_total row = "0"%string)) as [H0|H0]; [|by left].
      destruct (decide (tvl1_total row = "0"%string)) as [H1|H1]; [|by right].
      by rewrite (bool_decide_eq_true_2 _ H0), (bool_decide_eq_true_2 _ H1) in Htvl.
Qed.

End Index.

(** *** Batches and their callbacks *)

Lemma batchLoop_length poolKeys fuel :
  ∀ start, length poolKeys ≤ start + fuel →
    length poolKeys - start
      ≤ MAX_POOL_BATCH_COUNT * length (batchLoop fuel poolKeys start)
      < length poolKeys - start + MAX_POOL_BATCH_COUNT.
Proof.
  induction fuel as [|fuel IH]; intros start Hfuel; cbn [batchLoop].
  - cbn [length]. unfold MAX_POOL_BATCH_COUNT. lia.
  - case_bool_decide as Hlt; cbn [length];
      [|unfold MAX_POOL_BATCH_COUNT; lia].
    specialize (IH (start + MAX_POOL_BATCH_COUNT)).
    unfold MAX_POOL_BATCH_COUNT in *. lia.
Qed.

(** X17. A pass over [n] keys makes the least number of calls that covers them
    five at a time: none for no key, and [k] calls for more than
    [5 * (k - 1)] and at most [5 * k] keys. *)
Theorem batches_count poolKeys :
  length poolKeys ≤ MAX_POOL_BATCH_COUNT * length (batches poolKeys)
                  < length poolKeys + MAX_POOL_BATCH_COUNT ∧
  (poolKeys = [] ↔ batches poolKeys = []).
Proof.
  pose proof (batchLoop_length poolKeys (length poolKeys) 0 ltac:(lia)) as H.
  fold (batches poolKeys) in H. rewrite Nat.sub_0_r in H. split; [exact H|].
  unfold MAX_POOL_BATCH_COUNT in H.
  split; [by intros -> | intros Hnone].
  rewrite Hnone in H. simpl in H. destruct poolKeys; [done | simpl in H; lia].
Qed.

Section Batches.

Variable env : Collaborators.
Variable this : Adapter.

Lemma runAll_outcomes {A B} (l : list B) :
  ∀ (f : nat → B → M State A) (g : nat → B → Result A),
    (∀ i x s, fst (f i x s) = g i x) →
    ∀ s, fst (runAll (imap f l) s) = imap g l.
Proof.
  induction l as [|x l IH]; intros f g Hfg s; simpl; [done|].
  specialize (Hfg 0 x s) as H0.
  destruct (f 0 x s) as [r s1]. simpl in H0.
  specialize (IH (f ∘ S) (g ∘ S) (fun i x s => Hfg (S i) x s) s1).
  destruct (runAll (imap (f ∘ S) l) s1) as [rs s2]. simpl in *.
  by rewrite H0, IH.
Qed.

(** What the function of a batch returns or throws, read off the answer
    alone. *)
Lemma fetchBatch_outcome poolKeys blockNumber start run s :
  fst (fetchBatch env this poolKeys blockNumber start run s) =
  (fetchedData ← answer run;
   promiseAll (imap (callbackOutcome env this poolKeys start) fetchedData)).
Proof.
  unfold fetchBatch, mbind at 1, M_bind, bind, lift.
  destruct (answer run) as [fetchedData|]; [|done]. simpl.
  unfold awaitAll.
  pose proof (runAll_outcomes fetchedData
                (initializePool env this poolKeys start blockNumber)
                (callbackOutcome env this poolKeys start)) as Hall.
  specialize (Hall ltac:(intros i x s0; rewrite initializePool_run;
                         unfold callbackOutcome;
                         by destruct (preparePool env this poolKeys start i x)) s).
  destruct (runAll _ s) as [outcomes s1]. simpl in *. by rewrite Hall.
Qed.

Lemma promiseAll_Ok {A} (outcomes : list (Result A)) values :
  promiseAll outcomes = Ok values ↔ outcomes = Ok <$> values.
Proof.
  revert values. induction outcomes as [|[a|e] rest IH]; intros values; simpl.
  - split; [by intros [= <-] | by destruct values].
  - unfold mbind, Result_bind. split.
    + destruct (promiseAll rest) as [others|]; [|done].
      intros [= <-]. rewrite fmap_cons. f_equal. by apply IH.
    + destruct values as [|v values]; [done|]. rewrite fmap_cons.
      intros [= -> Hrest]. apply IH in Hrest. by rewrite Hrest.
  - split; [done | by destruct values].
Qed.

(** A callback succeeds exactly when the entry decodes, the list has a
    key at its position and the extension of the key is supported. *)
Lemma preparePool_success poolKeys start i data st poolKey :
  fromQuoter env data = Ok st →
  poolKeys !! (start + i) = Some poolKey →
  supported this poolKey →
  preparePool env this poolKeys start i data =
  Ok {| new_poolId := string_id env poolKey;
        new_class := if (extension (config poolKey) =? 0)%Z
                     then BasePoolClass else OraclePoolClass;
        new_key := poolKey; new_state := st |}.
Proof.
  intros Hst Hkey Hsup. unfold preparePool, mbind, Result_bind.
  rewrite Hst, Hkey. simpl.
  destruct (Z.eqb_spec (extension (config poolKey)) 0) as [|Hno]; [done|].
  destruct Hsup as [|Horacle]; [done|].
  by rewrite (proj2 (Z.eqb_eq _ _) Horacle).
Qed.

Lemma preparePool_class poolKeys start i data p :
  preparePool env this poolKeys start i data = Ok p →
  new_class p = (if (extension (config (new_key p)) =? 0)%Z
                 then BasePoolClass else OraclePoolClass).
Proof.
  unfold preparePool, mbind, Result_bind.
  destruct (fromQuoter env data); [|done].
  destruct (poolKeys !! (start + i)) as [poolKey|]; [|done]. simpl.
  destruct (Z.eqb_spec (extension (config poolKey)) 0) as [H0|H0].
  - intros [= <-]. simpl. by rewrite (proj2 (Z.eqb_eq _ _) H0).
  - destruct (extension (config poolKey) =? oracle this)%Z; [|done].
    intros [= <-]. simpl. by rewrite (proj2 (Z.eqb_neq _ _) H0).
Qed.

(** X18. A batch of supported keys whose call is answered with one decodable
    entry per key, and whose timer does not fire first, is fulfilled with
    the identifiers of its keys, in order. *)
Theorem well_formed_answer_fulfils_the_batch poolKeys blockNumber maxTime world
    s j b fetchedData :
  Forall (supported this) poolKeys →
  batches poolKeys !! j = Some b →
  answer (world j) = Ok fetchedData →
  length fetchedData = length (snd b) →
  Forall (fun data => isOk (fromQuoter env data) = true) fetchedData →
  hasDeadline maxTime && deadlineFirst (world j) = false →
  ∃ settled,
    fst (initializePools env this poolKeys blockNumber maxTime world s) = Ok settled ∧
    settled !! j = Some (Fulfilled (string_id env <$> snd b)).
Proof.
  intros Hsup Hj Hanswer Hlen Hdecode Hrace.
  eexists. split; [apply initializePools_settled|].
  rewrite list_lookup_fmap, calls_lookup, Hj. simpl.
  unfold raceBatch. rewrite Hrace, fetchBatch_outcome, Hanswer. simpl.
  destruct (batchLoop_lookup _ _ _ _ _ Hj) as (_ & Hbatch & _).
  assert (Hall : imap (callbackOutcome env this poolKeys (fst b)) fetchedData
                 = Ok <$> (string_id env <$> snd b)).
  { apply list_eq. intros i. rewrite list_lookup_imap, !list_lookup_fmap.
    destruct (fetchedData !! i) as [data|] eqn:Hdata; simpl.
    - pose proof (lookup_lt_Some _ _ _ Hdata) as Hi. rewrite Hlen in Hi.
      destruct (lookup_lt_is_Some_2 _ _ Hi) as [poolKey Hkey].
      rewrite Hkey. simpl. f_equal.
      pose proof Hkey as Hkey'.
      rewrite Hbatch, lookup_take_Some in Hkey'. destruct Hkey' as [Hkey' _].
      rewrite lookup_drop in Hkey'.
      pose proof (proj1 (Forall_forall _ _) Hdecode data
                    (list_elem_of_lookup_2 _ _ _ Hdata)) as Hok.
      simpl in Hok.
      destruct (fromQuoter env data) as [st|] eqn:Hst; [|done].
      unfold callbackOutcome.
      rewrite (preparePool_success _ _ _ _ st poolKey Hst Hkey'); [done|].
      eapply (proj1 (Forall_forall _ _) Hsup), list_elem_of_lookup_2, Hkey'.
    - apply lookup_ge_None in Hdata. rewrite Hlen in Hdata.
      by rewrite (lookup_ge_None_2 _ _ Hdata). }
  rewrite Hall. by rewrite (proj2 (promiseAll_Ok _ _) eq_refl).
Qed.

End Batches.

(** *** Batches settle alone *)

Section Isolation.

Variable env : Collaborators.
Variable this : Adapter.




End Isolation.

(** *** Passes *)

Lemma filter_none {A} (f : A → bool) l :
  Forall (fun x => f x = false) l → List.filter f l = [].
Proof. induction 1 as [|x l Hx _ IH]; simpl; [done|]. by rewrite Hx. Qed.

Lemma filter_all {A} (f : A → bool) l :
  Forall (fun x => f x = true) l → List.filter f l = l.
Proof. induction 1 as [|x l Hx _ IH]; simpl; [done|]. by rewrite Hx, IH. Qed.

Section MorePasses.

Variable env : Collaborators.
Variable this : Adapter.

Lemma runAll_tracks_each (callbacks : list (M State string)) :
  Forall (fun callback => ∀ s,
            (∀ poolId, fst (callback s) = Ok poolId →
                       tracked poolId (snd (callback s))) ∧
            (∀ poolId, tracked poolId s → tracked poolId (snd (callback s))))
         callbacks →
  ∀ s i callback poolId,
    callbacks !! i = Some callback →
    (∀ s', fst (callback s') = Ok poolId) →
    tracked poolId (snd (runAll callbacks s)).
Proof.
  induction 1 as [|first rest Hfirst Hrest IH]; intros s i callback poolId;
    [done|].
  simpl. destruct (Hfirst s) as [Hnew Hold].
  pose proof (runAll_preserves (A := string) (tracked poolId) rest) as Hkeep.
  specialize (Hkeep ltac:(eapply Forall_impl; [exact Hrest|];
                          intros cb H s0; apply H)).
  destruct i as [|i]; simpl.
  - intros [= <-] Hok. specialize (Hok s). specialize (Hnew poolId).
    destruct (first s) as [r s1]. simpl in *. specialize (Hkeep s1 (Hnew Hok)).
    by destruct (runAll rest s1).
  - intros Hi Hok. destruct (first s) as [r s1].
    specialize (IH s1 i callback poolId Hi Hok).
    by destruct (runAll rest s1).
Qed.

Lemma fetchBatch_tracks_each poolKeys blockNumber start run s fetchedData i data
    poolId :
  answer run = Ok fetchedData →
  fetchedData !! i = Some data →
  callbackOutcome env this poolKeys start i data = Ok poolId →
  tracked poolId (snd (fetchBatch env this poolKeys blockNumber start run s)).
Proof.
  intros Hanswer Hdata Hid.
  unfold fetchBatch, mbind, M_bind, bind, lift. rewrite Hanswer.
  unfold awaitAll.
  pose proof (runAll_tracks_each
                (imap (initializePool env this poolKeys start blockNumber)
                      fetchedData)) as Hall.
  specialize (Hall ltac:(apply Forall_forall;
    intros cb (i0 & data0 & -> & _)%elem_of_lookup_imap_1; intros s0; split;
    intros id; [apply initializePool_tracks | apply initializePool_tracked])
    s i (initializePool env this poolKeys start blockNumber i data) poolId).
  destruct (runAll _ s) as [outcomes s1]. simpl in *. apply Hall.
  - by rewrite list_lookup_imap, Hdata.
  - intros s'. rewrite initializePool_run. unfold callbackOutcome in Hid.
    by destruct (preparePool env this poolKeys start i data).
Qed.

(** X19. The pools a batch function has constructed stay in the registry when
    the batch is rejected: by its timer, or because a later entry of the
    same answer made the function throw. *)
Theorem rejected_batches_leave_their_pools poolKeys blockNumber maxTime world s
    j b fetchedData i data poolId :
  batches poolKeys !! j = Some b →
  answer (world j) = Ok fetchedData →
  fetchedData !! i = Some data →
  callbackOutcome env this poolKeys (fst b) i data = Ok poolId →
  tracked poolId
    (snd (initializePools env this poolKeys blockNumber maxTime world s)).
Proof.
  intros Hj Hanswer Hdata Hid. unfold initializePools. simpl.
  assert (Hcall : {| call_start := fst b; call_batch := snd b;
                     call_run := world j |} ∈
                  merge_sort answeredBefore (calls poolKeys world)).
  { rewrite merge_sort_Permutation. apply list_elem_of_lookup. exists j.
    by rewrite calls_lookup, Hj. }
  apply list_elem_of_split in Hcall as (before & after & ->).
  rewrite foldl_app. simpl.
  apply (foldl_preserves (tracked poolId)).
  { intros c s0. apply fetchBatch_preserves. intros i0 data0 s1.
    apply initializePool_tracked. }
  by eapply fetchBatch_tracks_each.
Qed.

Lemma collectFulfilled_exact results :
  ∀ s, collectFulfilled results s =
       (Ok (fulfilledIds results), addLogs (rejectionEntries results) s).
Proof.
  unfold fulfilledIds, rejectionEntries.
  induction results as [|[value|reason] rest IH]; intros s; simpl.
  - by rewrite addLogs_nil.
  - run. by rewrite IH.
  - run. rewrite IH. by rewrite addLogs_app.
Qed.

Lemma reportRejected_exact results :
  ∀ s, reportRejected results s = (Ok tt, addLogs (rejectionEntries results) s).
Proof.
  unfold rejectionEntries.
  induction results as [|[value|reason] rest IH]; intros s; simpl.
  - by rewrite addLogs_nil.
  - by rewrite IH.
  - run. rewrite IH. by rewrite addLogs_app.
Qed.

(** [fetchPoolsByPair], step by step. *)
Lemma fetchPoolsByPair_unfold tokenA tokenB blockNumber maxTime response world s :
  ∃ poolKeys es settled,
    pairPoolKeys env this (fst (sortAndConvertTokens env tokenA tokenB))
      (snd (sortAndConvertTokens env tokenA tokenB)) response s
      = (Ok poolKeys, addLogs es s) ∧
    fst (initializePools env this
           (List.filter (uninitialized env (pools s)) poolKeys) blockNumber
           (Some ((maxTime - 50) / 2)%Q) world (addLogs es s)) = Ok settled ∧
    fetchPoolsByPair env this tokenA tokenB blockNumber maxTime response world s =
    (Ok (map (string_id env)
           (List.filter (fun poolKey => negb (uninitialized env (pools s) poolKey))
                        poolKeys)
         ++ fulfilledIds settled),
     addLogs (rejectionEntries settled)
       (snd (initializePools env this
               (List.filter (uninitialized env (pools s)) poolKeys) blockNumber
               (Some ((maxTime - 50) / 2)%Q) world (addLogs es s)))).
Proof.
  unfold fetchPoolsByPair.
  destruct (sortAndConvertTokens env tokenA tokenB) as [t0 t1]. cbn [fst snd].
  destruct (pairPoolKeys_run env this t0 t1 response s) as (poolKeys & es & Hkeys).
  exists poolKeys, es. eexists. split; [exact Hkeys|].
  split; [apply initializePools_settled|].
  unfold mbind, M_bind, bind. rewrite Hkeys. unfold gets. cbv beta iota.
  rewrite pools_addLogs.
  pose proof (initializePools_settled env this
    (List.filter (uninitialized env (pools s)) poolKeys) blockNumber
    (Some ((maxTime - 50) / 2)%Q) world (addLogs es s)) as Hsettled.
  destruct (initializePools env this
    (List.filter (uninitialized env (pools s)) poolKeys) blockNumber
    (Some ((maxTime - 50) / 2)%Q) world (addLogs es s)) as [r final].
  simpl in Hsettled. rewrite Hsettled. cbv beta iota.
  by rewrite collectFulfilled_exact.
Qed.

(** An identifier among the fulfilled ones was returned by the function of
    a batch that the race let through. *)
Lemma fulfilledIds_elem poolKeys blockNumber maxTime world s poolId :
  poolId ∈ fulfilledIds
    (map (fun c =>
            raceBatch maxTime (call_batch c) (call_run c)
              (fst (fetchBatch env this poolKeys blockNumber (call_start c)
                      (call_run c) s)))
         (calls poolKeys world)) →
  ∃ j b poolIds,
    batches poolKeys !! j = Some b ∧
    fst (fetchBatch env this poolKeys blockNumber (fst b) (world j) s) = Ok poolIds ∧
    poolId ∈ poolIds.
Proof.
  unfold fulfilledIds.
  intros (value & Hvalue & Hin)%list_elem_of_In%in_concat.
  apply list_elem_of_In in Hin.
  apply in_map_iff in Hvalue as (result & <- & Hresult).
  apply in_map_iff in Hresult as (c & <- & Hc).
  apply list_elem_of_In, list_elem_of_lookup_1 in Hc as [j Hj].
  rewrite calls_lookup in Hj.
  destruct (batches poolKeys !! j) as [b|] eqn:Hb; [|done].
  injection Hj as <-. simpl in Hin. unfold raceBatch in Hin.
  destruct (hasDeadline maxTime && deadlineFirst (world j));
    [by apply elem_of_nil in Hin|].
  destruct (fst (fetchBatch env this poolKeys blockNumber (fst b) (world j) s))
    as [poolIds|] eqn:Hids; [|by apply elem_of_nil in Hin].
  by exists j, b, poolIds.
Qed.

(** X20. Every identifier [fetchPoolsByPair] (and so [getPoolIdentifiers])
    returns is in the registry once the calls of the pass have been
    answered, and the pass removes no identifier: an allow-list made of the
    returned identifiers then finds every one of its pools. *)
Theorem returned_identifiers_are_tracked tokenA tokenB blockNumber maxTime
    response world s :
  ∃ poolIds,
    fst (fetchPoolsByPair env this tokenA tokenB blockNumber maxTime response
           world s) = Ok poolIds ∧
    (∀ poolId, poolId ∈ poolIds →
       tracked poolId
         (snd (fetchPoolsByPair env this tokenA tokenB blockNumber maxTime
                 response world s))) ∧
    (∀ poolId, tracked poolId s →
       tracked poolId
         (snd (fetchPoolsByPair env this tokenA tokenB blockNumber maxTime
                 response world s))) ∧
    missing poolIds
      (snd (fetchPoolsByPair env this tokenA tokenB blockNumber maxTime
              response world s)) = [].
Proof.
  destruct (fetchPoolsByPair_unfold tokenA tokenB blockNumber maxTime response
              world s) as (poolKeys & es & settled & Hkeys & Hsettled & Hrun).
  rewrite Hrun. cbn [fst snd].
  rewrite initializePools_settled in Hsettled. injection Hsettled as <-.
  assert (Hold : ∀ poolId, tracked poolId s →
    tracked poolId
      (addLogs (rejectionEntries
         (map (fun c =>
                 raceBatch (Some ((maxTime - 50) / 2)%Q) (call_batch c) (call_run c)
                   (fst (fetchBatch env this
                           (List.filter (uninitialized env (pools s)) poolKeys)
                           blockNumber (call_start c) (call_run c) (addLogs es s))))
              (calls (List.filter (uninitialized env (pools s)) poolKeys) world)))
         (snd (initializePools env this
                 (List.filter (uninitialized env (pools s)) poolKeys) blockNumber
                 (Some ((maxTime - 50) / 2)%Q) world (addLogs es s))))).
  { intros poolId Htracked. unfold tracked. rewrite pools_addLogs.
    apply (initializePools_preserves env this (tracked poolId)); [|done].
    intros start i data s0. apply initializePool_tracked. }
  assert (Hnew : ∀ poolId,
    poolId ∈ map (string_id env)
               (List.filter (fun poolKey => negb (uninitialized env (pools s) poolKey))
                            poolKeys)
             ++ fulfilledIds
                  (map (fun c =>
                     raceBatch (Some ((maxTime - 50) / 2)%Q) (call_batch c) (call_run c)
                       (fst (fetchBatch env this
                               (List.filter (uninitialized env (pools s)) poolKeys)
                               blockNumber (call_start c) (call_run c) (addLogs es s))))
                  (calls (List.filter (uninitialized env (pools s)) poolKeys) world)) →
    tracked poolId
      (addLogs (rejectionEntries
         (map (fun c =>
                 raceBatch (Some ((maxTime - 50) / 2)%Q) (call_batch c) (call_run c)
                   (fst (fetchBatch env this
                           (List.filter (uninitialized env (pools s)) poolKeys)
                           blockNumber (call_start c) (call_run c) (addLogs es s))))
              (calls (List.filter (uninitialized env (pools s)) poolKeys) world)))
         (snd (initializePools env this
                 (List.filter (uninitialized env (pools s)) poolKeys) blockNumber
                 (Some ((maxTime - 50) / 2)%Q) world (addLogs es s))))).
  { intros poolId [Hin|Hin]%elem_of_app.
    - apply Hold.
      apply list_elem_of_In, in_map_iff in Hin as (poolKey & <- & Hkey).
      apply filter_In in Hkey as [_ Hkey].
      unfold uninitialized in Hkey. by apply negb_true_iff, negb_false_iff in Hkey.
    - apply fulfilledIds_elem in Hin as (j & b & poolIds & Hj & Hids & Hin).
      unfold tracked. rewrite pools_addLogs.
      by eapply (initializePools_tracks env this). }
  eexists. split; [reflexivity|]. split_and!; [exact Hnew | exact Hold |].
  unfold missing. apply filter_none, Forall_forall.
  intros poolId Hin. apply negb_false_iff. by apply Hnew.
Qed.

Lemma set_Forall {K V} `{EqDecision K} (P : K * V → Prop) k v (m : JSMap.t K V) :
  Forall P m → P (k, v) → Forall P (JSMap.set k v m).
Proof.
  intros Hm Hkv. induction Hm as [|[k' v'] m Hhead Htail IH]; simpl.
  - by constructor.
  - destruct (decide (k = k')) as [<-|]; by constructor.
Qed.

Lemma initializePool_wellKeyed poolKeys start blockNumber i data s :
  wellKeyed env this s →
  wellKeyed env this
    (snd (initializePool env this poolKeys start blockNumber i data s)).
Proof.
  rewrite initializePool_run. unfold wellKeyed.
  destruct (preparePool env this poolKeys start i data) as [p|] eqn:Hp;
    simpl; [|done].
  intros Hs. apply set_Forall; [done|]. simpl.
  pose proof (preparePool_class env this _ _ _ _ _ Hp) as Hclass.
  apply preparePool_Ok in Hp as (poolKey & _ & Hid & Hkey & Hsup).
  rewrite Hkey in *. by split_and!.
Qed.

(** X21. Both passes keep the registry well keyed: every pool they store sits
    under the identifier of its own key, has a supported extension, and is
    an oracle pool exactly when its extension is not 0. *)
Theorem passes_keep_the_registry_well_keyed tokenA tokenB blockNumber maxTime
    response world s :
  wellKeyed env this s →
  wellKeyed env this (snd (updatePoolMap env this blockNumber response world s)) ∧
  wellKeyed env this
    (snd (fetchPoolsByPair env this tokenA tokenB blockNumber maxTime response
            world s)).
Proof.
  intros Hs. split.
  - apply (updatePoolMap_preserves env this (wellKeyed env this)); [done| |done].
    intros poolKeys _ start i data s0. apply initializePool_wellKeyed.
  - apply (fetchPoolsByPair_preserves env this (wellKeyed env this));
      [done| |done].
    intros poolKeys start i data s0. apply initializePool_wellKeyed.
Qed.

Lemma pairPoolKeys_keys token0 token1 response s poolKeys s' :
  pairPoolKeys env this token0 token1 response s = (Ok poolKeys, s') →
  Forall (fun poolKey => Ekubo.token0 poolKey = token0 ∧
                         Ekubo.token1 poolKey = token1 ∧
                         supported this poolKey) poolKeys.
Proof.
  unfold pairPoolKeys.
  destruct (fetchAllPoolKeys env this response) as [all|e] eqn:Hall.
  - intros [= <- _]. apply Forall_forall.
    intros poolKey [Hin Hpair]%list_elem_of_In%filter_In.
    apply pairIs_spec in Hpair. injection Hpair as ? ?.
    split_and!; [done..|].
    eapply (proj1 (Forall_forall _ _) (fetchAllPoolKeys_supported _ _ _ _ Hall)).
    by apply list_elem_of_In.
  - run.
    match goal with |- context [if ?c then _ else _] => destruct c end;
      intros [= <- _]; unfold supported;
      repeat (constructor; [simpl; auto|]); constructor.
Qed.

Lemma fetchBatch_ids_keys poolKeys blockNumber start run s poolIds :
  fst (fetchBatch env this poolKeys blockNumber start run s) = Ok poolIds →
  ∀ poolId, poolId ∈ poolIds →
    ∃ poolKey, poolKey ∈ poolKeys ∧ string_id env poolKey = poolId.
Proof.
  rewrite fetchBatch_outcome. unfold mbind, Result_bind.
  destruct (answer run) as [fetchedData|]; [|done].
  intros Hall%promiseAll_Ok poolId Hin.
  apply (list_elem_of_fmap_2 Ok) in Hin. rewrite <- Hall in Hin.
  apply elem_of_lookup_imap_1 in Hin as (i & data & Hid & _).
  symmetry in Hid. unfold callbackOutcome in Hid.
  destruct (preparePool env this poolKeys start i data) as [p|] eqn:Hp; [|done].
  injection Hid as <-.
  apply preparePool_Ok in Hp as (poolKey & Hkey & Hid & _).
  exists poolKey. split; [by eapply list_elem_of_lookup_2 | done].
Qed.

(** X22. Every identifier [fetchPoolsByPair] returns is the identifier of a key
    of the requested pair, in its sorted form, with an extension the
    adapter supports. *)
Theorem returned_identifiers_are_of_the_pair tokenA tokenB blockNumber maxTime
    response world s :
  ∃ poolIds,
    fst (fetchPoolsByPair env this tokenA tokenB blockNumber maxTime response
           world s) = Ok poolIds ∧
    ∀ poolId, poolId ∈ poolIds →
      ∃ poolKey,
        string_id env poolKey = poolId ∧
        (token0 poolKey, token1 poolKey) = sortAndConvertTokens env tokenA tokenB ∧
        supported this poolKey.
Proof.
  destruct (fetchPoolsByPair_unfold tokenA tokenB blockNumber maxTime response
              world s) as (poolKeys & es & settled & Hkeys & Hsettled & Hrun).
  rewrite Hrun. cbn [fst snd]. eexists. split; [reflexivity|].
  apply pairPoolKeys_keys in Hkeys.
  rewrite initializePools_settled in Hsettled. injection Hsettled as <-.
  assert (Hkey : ∀ poolKey, poolKey ∈ poolKeys →
            (token0 poolKey, token1 poolKey) = sortAndConvertTokens env tokenA tokenB ∧
            supported this poolKey).
  { intros poolKey Hin.
    destruct (proj1 (Forall_forall _ _) Hkeys poolKey Hin) as (H0 & H1 & Hsup).
    split; [|done]. rewrite H0, H1. by destruct (sortAndConvertTokens _ _ _). }
  intros poolId [Hin|Hin]%elem_of_app.
  - apply list_elem_of_In, in_map_iff in Hin as (poolKey & <- & Hin).
    apply filter_In in Hin as [Hin _]. apply list_elem_of_In in Hin.
    exists poolKey. split; [done | by apply Hkey].
  - apply fulfilledIds_elem in Hin as (j & b & poolIds & _ & Hids & Hin).
    destruct (fetchBatch_ids_keys _ _ _ _ _ _ Hids poolId Hin)
      as (poolKey & Hpool & Hid).
    exists poolKey. split; [done|]. apply Hkey.
    by apply list_elem_of_In, filter_In in Hpool as [Hpool%list_elem_of_In _].
Qed.

Lemma initializePools_nil blockNumber maxTime world s :
  initializePools env this [] blockNumber maxTime world s = (Ok [], s).
Proof. reflexivity. Qed.

(** X23. When the index answers and the registry already holds every pool it
    lists, [updatePoolMap] does nothing at all; when it holds every listed
    pool of a pair, [fetchPoolsByPair] returns the identifiers of those
    pools in the order of the index and does nothing else. No call to the
    data fetcher is made in either case. *)
Theorem tracked_pools_are_not_fetched_again tokenA tokenB blockNumber maxTime
    response world s all :
  fetchAllPoolKeys env this response = Ok all →
  (Forall (fun poolKey => tracked (string_id env poolKey) s) all →
   updatePoolMap env this blockNumber response world s = (Ok tt, s)) ∧
  (Forall (fun poolKey => tracked (string_id env poolKey) s)
          (List.filter (pairIs (fst (sortAndConvertTokens env tokenA tokenB))
                               (snd (sortAndConvertTokens env tokenA tokenB)))
                       all) →
   fetchPoolsByPair env this tokenA tokenB blockNumber maxTime response world s =
   (Ok (map (string_id env)
          (List.filter (pairIs (fst (sortAndConvertTokens env tokenA tokenB))
                               (snd (sortAndConvertTokens env tokenA tokenB)))
                       all)), s)).
Proof.
  intros Hall. split; intros Htracked.
  - unfold updatePoolMap. rewrite Hall.
    unfold mbind, M_bind, bind, gets. cbv beta iota.
    rewrite filter_none.
    + by rewrite initializePools_nil.
    + eapply Forall_impl; [exact Htracked|]. intros poolKey Hk.
      unfold uninitialized. by rewrite Hk.
  - unfold fetchPoolsByPair, pairPoolKeys.
    destruct (sortAndConvertTokens env tokenA tokenB) as [t0 t1].
    cbn [fst snd] in *. rewrite Hall.
    unfold mbind, M_bind, bind, gets, mret, M_ret, ret. cbv beta iota.
    rewrite filter_none, filter_all.
    + rewrite initializePools_nil. cbv beta iota. simpl. by rewrite app_nil_r.
    + eapply Forall_impl; [exact Htracked|]. intros poolKey Hk.
      unfold uninitialized. by rewrite Hk.
    + eapply Forall_impl; [exact Htracked|]. intros poolKey Hk.
      unfold uninitialized. by rewrite Hk.
Qed.

Lemma initializePool_logged poolKeys start blockNumber i data s :
  logged (snd (initializePool env this poolKeys start blockNumber i data s))
  = logged s.
Proof.
  rewrite initializePool_run.
  by destruct (preparePool env this poolKeys start i data).
Qed.

(** X24. When the index answers, [updatePoolMap] returns normally whatever
    happens to its batches; it logs one error per rejected batch and
    nothing else, and, as it sets no deadline, a batch is rejected only
    with what its own function threw. *)
Theorem updatePoolMap_logs_each_failed_batch blockNumber response world s all :
  fetchAllPoolKeys env this response = Ok all →
  ∃ settled,
    fst (initializePools env this
           (List.filter (uninitialized env (pools s)) all) blockNumber None
           world s) = Ok settled ∧
    fst (updatePoolMap env this blockNumber response world s) = Ok tt ∧
    logged (snd (updatePoolMap env this blockNumber response world s)) =
      logged s ++ rejectionEntries settled ∧
    ∀ j reason, settled !! j = Some (Rejected reason) →
      ∃ b, batches (List.filter (uninitialized env (pools s)) all) !! j = Some b ∧
           batch reason = snd b ∧
           ∀ s', fst (fetchBatch env this
                        (List.filter (uninitialized env (pools s)) all)
                        blockNumber (fst b) (world j) s') = Throw (err reason).
Proof.
  intros Hall. eexists. split; [apply initializePools_settled|].
  unfold updatePoolMap. rewrite Hall.
  unfold mbind, M_bind, bind, gets. cbv beta iota.
  pose proof (initializePools_settled env this
    (List.filter (uninitialized env (pools s)) all) blockNumber None world s)
    as Hsettled.
  pose proof (initializePools_preserves env this
    (fun s0 => logged s0 = logged s)
    (List.filter (uninitialized env (pools s)) all) blockNumber None world
    ltac:(intros start i data s0 Hs0; cbv beta;
          by rewrite initializePool_logged)
    s eq_refl) as Hlogged.
  destruct (initializePools env this
    (List.filter (uninitialized env (pools s)) all) blockNumber None world s)
    as [r final].
  simpl in Hsettled, Hlogged. rewrite Hsettled. cbv beta iota.
  rewrite reportRejected_exact. cbn [fst snd]. split_and!; [done| |].
  - simpl. by rewrite Hlogged.
  - intros j reason. rewrite list_lookup_fmap, calls_lookup.
    destruct (batches _ !! j) as [b|]; [|done]. simpl.
    unfold raceBatch. simpl.
    destruct (fst (fetchBatch env this _ blockNumber (fst b) (world j) s))
      as [ids|e] eqn:Hbody; [done|].
    intros [= <-]. exists b. split_and!; [done..|].
    intros s'. simpl. by rewrite (fetchBatch_value _ _ _ _ _ _ s' s).
Qed.

(** [getPoolIdentifiers] is the pair pass run under the adapter's deadline,
    whatever the side: what holds of [fetchPoolsByPair] for every [maxTime]
    holds of it. *)
Lemma getPoolIdentifiers_is_a_pair_pass timeout srcToken destToken side
    blockNumber response world :
  getPoolIdentifiers env this timeout srcToken destToken side blockNumber
    response world =
  fetchPoolsByPair env this srcToken destToken blockNumber timeout response world.
Proof. reflexivity. Qed.

End MorePasses.

(** *** On concrete answers *)

Import Examples.

Lemma fetchAllPoolKeys_keeps_supported_rows_witness :
  fetchAllPoolKeys ekuboEnv ekubo (Ok [knownRow; foreignRow; newRow])
    = Ok [knownKey; shallowKey] ∧
  Forall (supported ekubo) [knownKey; shallowKey].
Proof.
  split; [vm_compute; reflexivity|].
  apply (fetchAllPoolKeys_keeps_supported_rows ekuboEnv ekubo
           [knownRow; foreignRow; newRow] [knownKey; shallowKey]).
  vm_compute. reflexivity.
Defined.

Lemma fetchAllPoolKeys_drops_foreign_rows_witness :
  BigInt ekuboEnv (info_extension foreignRow) = Ok 77%Z ∧
  fetchAllPoolKeys ekuboEnv ekubo (Ok ([knownRow] ++ foreignRow :: [newRow])) =
  fetchAllPoolKeys ekuboEnv ekubo (Ok ([knownRow] ++ [newRow])).
Proof.
  split; [reflexivity|].
  apply (fetchAllPoolKeys_drops_foreign_rows ekuboEnv ekubo [knownRow]
           foreignRow [newRow] 77%Z).
  - reflexivity.
  - left. split; discriminate.
Defined.

Lemma one_malformed_row_fails_the_index_witness :
  BigInt ekuboEnv (info_extension brokenRow)
    = Throw (External "SyntaxError: Cannot convert to a BigInt") ∧
  ∃ e',
    fetchAllPoolKeys ekuboEnv ekubo (Ok [knownRow; newRow; brokenRow]) = Throw e' ∧
    updatePoolMap ekuboEnv ekubo 9 (Ok [knownRow; newRow; brokenRow])
      (promptWorld 5) oneKnownPool =
      (Ok tt, addLogs [UpdatingPoolMapFailed e'] oneKnownPool).
Proof.
  split; [reflexivity|].
  apply (one_malformed_row_fails_the_index ekuboEnv ekubo
           [knownRow; newRow; brokenRow] brokenRow
           (External "SyntaxError: Cannot convert to a BigInt")
           9 (promptWorld 5) oneKnownPool).
  - apply list_elem_of_further, list_elem_of_further, list_elem_of_here.
  - reflexivity.
Defined.

Lemma fetchPairPoolsInfo_keeps_live_rows_witness :
  fetchPairPoolsInfo ekuboEnv ekubo (Ok [deadPairRow; livePairRow])
    = Ok [livePairRow] ∧
  sublist [livePairRow] [deadPairRow; livePairRow].
Proof.
  split; [vm_compute; reflexivity|].
  apply (fetchPairPoolsInfo_keeps_live_rows ekuboEnv ekubo
           [deadPairRow; livePairRow] [livePairRow]).
  vm_compute. reflexivity.
Defined.

Lemma well_formed_answer_fulfils_the_batch_witness :
  batches [knownKey; shallowKey] !! 0 = Some (0, [knownKey; shallowKey]) ∧
  ∃ settled,
    fst (initializePools ekuboEnv ekubo [knownKey; shallowKey] 9 None
           (promptWorld 2) emptyState) = Ok settled ∧
    settled !! 0 =
      Some (Fulfilled (string_id ekuboEnv <$> [knownKey; shallowKey])).
Proof.
  split; [reflexivity|].
  apply (well_formed_answer_fulfils_the_batch ekuboEnv ekubo
           [knownKey; shallowKey] 9 None (promptWorld 2) emptyState 0
           (0, [knownKey; shallowKey])
           (replicate 2 {| quoteData := [1000%Z] |})).
  - repeat (constructor; [by left|]). constructor.
  - reflexivity.
  - reflexivity.
  - reflexivity.
  - repeat (constructor; [reflexivity|]). constructor.
  - reflexivity.
Defined.

Lemma rejected_batches_leave_their_pools_witness :
  fst (initializePools ekuboEnv ekubo [knownKey] 9 None (promptWorld 2) emptyState)
    = Ok [Rejected {| batch := [knownKey]; err := TypeError |}] ∧
  tracked (poolId knownKey)
    (snd (initializePools ekuboEnv ekubo [knownKey] 9 None (promptWorld 2)
            emptyState)).
Proof.
  split; [vm_compute; reflexivity|].
  apply (rejected_batches_leave_their_pools ekuboEnv ekubo [knownKey] 9 None
           (promptWorld 2) emptyState 0 (0, [knownKey])
           (replicate 2 {| quoteData := [1000%Z] |}) 0
           {| quoteData := [1000%Z] |} (poolId knownKey)).
  - reflexivity.
  - reflexivity.
  - reflexivity.
  - vm_compute. reflexivity.
Defined.

Lemma passes_keep_the_registry_well_keyed_witness :
  wellKeyed ekuboEnv ekubo oneKnownPool ∧
  wellKeyed ekuboEnv ekubo
    (snd (updatePoolMap ekuboEnv ekubo 9 (Ok [knownRow; newRow]) (promptWorld 1)
            oneKnownPool)).
Proof.
  assert (Hkeyed : wellKeyed ekuboEnv ekubo oneKnownPool).
  { unfold wellKeyed, oneKnownPool. simpl.
    constructor; [|constructor]. split_and!; [reflexivity | by left | reflexivity]. }
  split; [exact Hkeyed|].
  apply (passes_keep_the_registry_well_keyed ekuboEnv ekubo ETH USDC 9 500
           (Ok [knownRow; newRow]) (promptWorld 1) oneKnownPool Hkeyed).
Defined.

Lemma tracked_pools_are_not_fetched_again_witness :
  fetchAllPoolKeys ekuboEnv ekubo (Ok [knownRow]) = Ok [knownKey] ∧
  updatePoolMap ekuboEnv ekubo 9 (Ok [knownRow]) deafWorld oneKnownPool
    = (Ok tt, oneKnownPool) ∧
  fetchPoolsByPair ekuboEnv ekubo USDC ETH 9 500 (Ok [knownRow]) deafWorld
    oneKnownPool = (Ok [poolId knownKey], oneKnownPool).
Proof.
  split; [vm_compute; reflexivity|].
  destruct (tracked_pools_are_not_fetched_again ekuboEnv ekubo USDC ETH 9 500
              (Ok [knownRow]) deafWorld oneKnownPool [knownKey])
    as [Hupdate Hpair].
  { vm_compute. reflexivity. }
  split.
  - apply Hupdate. constructor; [reflexivity | constructor].
  - apply Hpair. constructor; [reflexivity | constructor].
Defined.

Lemma updatePoolMap_logs_each_failed_batch_witness :
  fetchAllPoolKeys ekuboEnv ekubo (Ok [knownRow; newRow])
    = Ok [knownKey; shallowKey] ∧
  ∃ settled,
    fst (initializePools ekuboEnv ekubo
           (List.filter (uninitialized ekuboEnv (pools oneKnownPool))
                        [knownKey; shallowKey]) 9 None deafWorld oneKnownPool)
      = Ok settled ∧
    fst (updatePoolMap ekuboEnv ekubo 9 (Ok [knownRow; newRow]) deafWorld
           oneKnownPool) = Ok tt ∧
    logged (snd (updatePoolMap ekuboEnv ekubo 9 (Ok [knownRow; newRow])
                   deafWorld oneKnownPool)) =
      logged oneKnownPool ++ rejectionEntries settled.
Proof.
  split; [vm_compute; reflexivity|].
  destruct (updatePoolMap_logs_each_failed_batch ekuboEnv ekubo 9
              (Ok [knownRow; newRow]) deafWorld oneKnownPool
              [knownKey; shallowKey])
    as (settled & Hsettled & Hreturn & Hlogged & _).
  { vm_compute. reflexivity. }
  exists settled. by split_and!.
Defined.

(** Seven keys make two batches. When the first call is slower than its
    timer, the first batch is rejected with its five keys and the second is
    fulfilled; the pools of both are in the registry once the calls have
    been answered, those of the second batch first. *)
Example timeout_of_one_batch :
  let '(settled, after) :=
    initializePools ekuboEnv ekubo sevenKeys 9 (Some 100%Q) slowFirstCall
      emptyState in
  settled = Ok [Rejected {| batch := take 5 sevenKeys; err := Timeout |};
                Fulfilled ["0_41144_0_6_200"; "0_41144_0_7_200"]%string] ∧
  map fst (pools after) =
    ["0_41144_0_6_200"; "0_41144_0_7_200"; "0_41144_0_1_200";
     "0_41144_0_2_200"; "0_41144_0_3_200"; "0_41144_0_4_200";
     "0_41144_0_5_200"]%string.
Proof. vm_compute. done. Qed.

(** When the first call is lost, the first batch is rejected with what the
    call threw and the second batch is fulfilled as before. *)
Example failure_of_one_batch :
  let '(settled, after) :=
    initializePools ekuboEnv ekubo sevenKeys 9 None lostFirstCall emptyState in
  settled = Ok [Rejected {| batch := take 5 sevenKeys;
                            err := External "missing response" |};
                Fulfilled ["0_41144_0_6_200"; "0_41144_0_7_200"]%string] ∧
  map fst (pools after) = ["0_41144_0_6_200"; "0_41144_0_7_200"]%string.
Proof. vm_compute. done. Qed.

(** The pass of a deaf world logs the one batch it could not fetch. *)
Example deaf_pass_logs_one_batch :
  logged (snd (updatePoolMap ekuboEnv ekubo 9 (Ok [knownRow; newRow]) deafWorld
                 oneKnownPool))
  = [FetchingBatchFailed [shallowKey] (External "missing response")].
Proof. vm_compute. reflexivity. Qed.

End DiscoveryMore.
